(** * Stremio Real-Debrid addon: discovery, ranking and resolution pipeline

    A shallow embedding of the JavaScript sources
    - [src/lib/utils.js]      ([TorrentUtils], [JackettSearcher]),
    - [src/unnamed/part_002]  ([TorrentSearcher], [RealDebridClient]),
    - [src/unnamed/part_001]  (stream handler with the credential check),
    - [src/unnamed/part_000]  (stream handler without it),
    and the properties of the specification that are settled on it.

    Conventions of the embedding.
    - A JavaScript string is the list of its UTF-16 code units ([jstring]).
    - [undefined]/[null] are [None]; a falsy string is [None] or the empty list.
    - Integer-valued numbers are [Z]; [NaN] is a constructor of [jsnum].
    - [try]/[catch] is a result monad; the handler additionally threads the
      in-memory cache, the wall clock and the trace of external calls.
    - What the network answers (trackers, Jackett, OMDb, Real-Debrid) is a
      [world] record of oracles. *)

From Stdlib Require Import ZArith NArith List Bool Lia Ascii String DecimalString DecimalPos.
From Stdlib Require Import Sorting.Permutation Sorting.Sorted.
From stdpp Require Import base option list gmap.

Open Scope Z_scope.

(* ================================================================= *)
(** ** JavaScript strings *)

Module JS.

(** A string is a sequence of UTF-16 code units. *)
Definition jstring := list N.

(** An ASCII literal. *)
Definition js (s : string) : jstring :=
  map N_of_ascii (list_ascii_of_string s).

Definition in_range (lo hi c : N) : bool := ((lo <=? c) && (c <=? hi))%N.

(** [String.prototype.toLowerCase] / [toUpperCase], code unit by code unit.
    The mapping is the built-in's on Basic Latin and on the Cyrillic block
    (the alphabets of the titles, keywords and hashes handled here); other
    code units are left as they are. *)
Definition lower_cu (c : N) : N :=
  if in_range 65 90 c then (c + 32)%N                 (* A-Z *)
  else if in_range 1040 1071 c then (c + 32)%N        (* U+0410..U+042F *)
  else if in_range 1024 1039 c then (c + 80)%N        (* U+0400..U+040F *)
  else c.

Definition upper_cu (c : N) : N :=
  if in_range 97 122 c then (c - 32)%N                (* a-z *)
  else if in_range 1072 1103 c then (c - 32)%N        (* U+0430..U+044F *)
  else if in_range 1104 1119 c then (c - 80)%N        (* U+0450..U+045F *)
  else c.

Definition toLowerCase (s : jstring) : jstring := map lower_cu s.
Definition toUpperCase (s : jstring) : jstring := map upper_cu s.

(** Truthiness of a possibly-undefined string: defined and non-empty. *)
Definition truthy (o : option jstring) : bool :=
  match o with
  | Some (_ :: _) => true
  | _ => false
  end.

(** [a || b] on possibly-undefined strings. *)
Definition or_else (a b : option jstring) : option jstring :=
  if truthy a then a else b.

Fixpoint startsWith (s p : jstring) : bool :=
  match p, s with
  | [], _ => true
  | c :: p', d :: s' => (c =? d)%N && startsWith s' p'
  | _ :: _, [] => false
  end.

(** [s.includes(p)] *)
Fixpoint includes (s p : jstring) : bool :=
  startsWith s p ||
  match s with
  | [] => false
  | _ :: s' => includes s' p
  end.

(** [s.endsWith(p)] *)
Definition endsWith (s p : jstring) : bool :=
  startsWith (rev s) (rev p).

(** [s.substring(0, n)] *)
Definition substring0 (n : nat) (s : jstring) : jstring := take n s.

(** [s.padStart(n, '0')] *)
Definition padStart0 (n : nat) (s : jstring) : jstring :=
  repeat 48%N (n - length s) ++ s.

(** [s.split(sep)] for a one-code-unit separator. *)
Fixpoint split_acc (sep : N) (cur : jstring) (s : jstring) : list jstring :=
  match s with
  | [] => [rev cur]
  | c :: s' =>
      if (c =? sep)%N then rev cur :: split_acc sep [] s'
      else split_acc sep (c :: cur) s'
  end.

Definition split (sep : N) (s : jstring) : list jstring := split_acc sep [] s.

(** [parts.join(sep)] *)
Fixpoint join (sep : jstring) (parts : list jstring) : jstring :=
  match parts with
  | [] => []
  | [p] => p
  | p :: rest => p ++ sep ++ join sep rest
  end.

(** Numbers that reach the code: integer-valued doubles and [NaN].
    [Int z] stands for the double of value [z]; printing is exact below
    10^21, where JavaScript switches to exponent notation.  [Infinity],
    which [parseInt] gives for a run of more than 308 digits, has no
    counterpart. *)
Inductive jsnum :=
| Int (z : Z)
| NaN.

(** [Number.prototype.toString()] and template interpolation of a number. *)
Definition num_toString (n : jsnum) : jstring :=
  match n with
  | Int z => js (NilZero.string_of_int (Z.to_int z))
  | NaN => js "NaN"
  end.

(** Truthiness of a number: neither [0] nor [NaN]. *)
Definition num_truthy (n : jsnum) : bool :=
  match n with
  | Int z => negb (z =? 0)
  | NaN => false
  end.

(** White space as [\s] and [parseInt] see it. *)
Definition is_space (c : N) : bool :=
  in_range 9 13 c || (c =? 32)%N || (c =? 160)%N || (c =? 5760)%N
  || in_range 8192 8202 c || (c =? 8232)%N || (c =? 8233)%N
  || (c =? 8239)%N || (c =? 8287)%N || (c =? 12288)%N || (c =? 65279)%N.

Definition is_digit (c : N) : bool := in_range 48 57 c.

(** Value of a digit in radix 10 or 16. *)
Definition digit_value (radix : N) (c : N) : option N :=
  if is_digit c then Some (c - 48)%N
  else if (radix =? 16)%N && in_range 97 102 c then Some (c - 87)%N
  else if (radix =? 16)%N && in_range 65 70 c then Some (c - 55)%N
  else None.

Fixpoint parse_digits (radix : N) (acc : option N) (s : jstring) : option N :=
  match s with
  | [] => acc
  | c :: s' =>
      match digit_value radix c with
      | Some d => parse_digits radix (Some (default 0%N acc * radix + d)%N) s'
      | None => acc
      end
  end.

Fixpoint skip_space (s : jstring) : jstring :=
  match s with
  | c :: s' => if is_space c then skip_space s' else s
  | [] => []
  end.

(** The double nearest to a natural number: the number itself when it has
    at most 53 significant bits, else its 53 leading bits rounded to
    nearest, ties to even.  (Beyond the largest double, above 10^308, the
    language gives [Infinity], which [jsnum] does not have.) *)
Definition to_double (n : N) : N :=
  let bits := N.size n in
  if (bits <=? 53)%N then n
  else
    let shift := (bits - 53)%N in
    let q := N.shiftr n shift in
    let r := (n - N.shiftl q shift)%N in
    let half := N.shiftl 1 (shift - 1) in
    let q' := if (half <? r)%N || ((r =? half)%N && N.odd q) then (q + 1)%N else q in
    N.shiftl q' shift.

(** [parseInt(s)] without a radix: leading white space, a sign, an optional
    [0x] prefix, then the longest run of digits, whose value is rounded to
    a double; [NaN] when there is none. *)
Definition parseInt (s : jstring) : jsnum :=
  let s := skip_space s in
  let '(neg, s) :=
    match s with
    | 45%N :: s' => (true, s')
    | 43%N :: s' => (false, s')
    | _ => (false, s)
    end in
  let '(radix, s) :=
    match s with
    | 48%N :: 120%N :: s' => (16%N, s')
    | 48%N :: 88%N :: s' => (16%N, s')
    | _ => (10%N, s)
    end in
  match parse_digits radix None s with
  | Some n => Int (if neg then - Z.of_N (to_double n) else Z.of_N (to_double n))
  | None => NaN
  end.

(** [parseInt(parts[i])]: a missing element is [undefined], which parses to
    [NaN]. *)
Definition parseInt_at (parts : list jstring) (i : nat) : jsnum :=
  match parts !! i with
  | Some p => parseInt p
  | None => NaN
  end.

End JS.

Import JS.

(* ================================================================= *)
(** ** Errors: [throw], [try]/[catch] *)

Inductive error :=
| TypeError            (* a property read on undefined or null *)
| URIError             (* encodeURIComponent on a lone surrogate *)
| NetworkError.        (* a rejected HTTP request: failure or timeout *)

Inductive result (A : Type) :=
| Ok (a : A)
| Throw (e : error).
Arguments Ok {A} a.
Arguments Throw {A} e.

Definition rbind {A B} (m : result A) (k : A -> result B) : result B :=
  match m with
  | Ok a => k a
  | Throw e => Throw e
  end.

(** [try { m } catch (e) { h e }] *)
Definition rcatch {A} (m : result A) (h : error -> A) : A :=
  match m with
  | Ok a => a
  | Throw e => h e
  end.

(* ================================================================= *)
(** ** Regular expressions

    The fragment of ECMAScript regular expressions that the sources use:
    literal characters, [.], [\d], [\s], character classes, the greedy
    quantifiers [*], [?] and [{n}] over one-character terms, the look-ahead
    [(?!x)], [\b], one capture group, and the [i] flag.  The matcher is
    the backtracking matcher of the language specification: [run] lists the
    states reachable by matching a pattern at a position, in priority
    order. *)

Module RegExp.

Inductive citem :=
| IRange (lo hi : N)          (* a-f ; a single character is [IRange c c] *)
| IDigit.                     (* \d inside a class *)

Inductive cclass :=
| CChar (c : N)               (* a pattern character *)
| CDot                        (* .  *)
| CDigit                      (* \d *)
| CSpace                      (* \s *)
| CSet (negated : bool) (items : list citem).   (* [...] and [^...] *)

Inductive regex :=
| REmpty
| RChar (cc : cclass)
| RCat (r1 r2 : regex)
| RStar (cc : cclass)             (* x*   *)
| ROpt (cc : cclass)              (* x?   *)
| RRepeat (n : nat) (cc : cclass) (* x{n} *)
| RNotAhead (cc : cclass)         (* (?!x) *)
| RWordB                          (* \b   *)
| RGroup (r : regex).             (* ( r ), capture group 1 *)

(** A pattern text without special characters. *)
Fixpoint lit (s : jstring) : regex :=
  match s with
  | [] => REmpty
  | c :: s' => RCat (RChar (CChar c)) (lit s')
  end.

Fixpoint rcat (rs : list regex) : regex :=
  match rs with
  | [] => REmpty
  | r :: rs' => RCat r (rcat rs')
  end.

(** [Canonicalize] of the specification for the [i] flag without [u]: the
    upper-case code unit, except that a non-ASCII character never folds to
    an ASCII one. *)
Definition canonicalize (c : N) : N :=
  let u := upper_cu c in
  if (128 <=? c)%N && (u <? 128)%N then c else u.

Definition is_line_terminator (c : N) : bool :=
  (c =? 10)%N || (c =? 13)%N || (c =? 8232)%N || (c =? 8233)%N.

Definition is_word (c : N) : bool :=
  in_range 97 122 c || in_range 65 90 c || is_digit c || (c =? 95)%N.

Definition item_match (ic : bool) (it : citem) (c : N) : bool :=
  match it with
  | IRange lo hi =>
      in_range lo hi c ||
      (ic && (in_range lo hi (canonicalize c) || in_range lo hi (lower_cu c)))
  | IDigit => is_digit c
  end.

(** Does the code unit [c] match the one-character term [cc]?  [ic] is the
    [i] flag. *)
Definition cc_match (ic : bool) (cc : cclass) (c : N) : bool :=
  match cc with
  | CChar p => if ic then (canonicalize p =? canonicalize c)%N else (p =? c)%N
  | CDot => negb (is_line_terminator c)
  | CDigit => is_digit c
  | CSpace => is_space c
  | CSet negated items => xorb negated (existsb (fun it => item_match ic it c) items)
  end.

(** A matcher state: the code unit before the current position, the input
    that is left, and the text of capture group 1. *)
Record mstate := MState {
  m_prev : option N;
  m_rest : jstring;
  m_cap : option jstring
}.

Definition advance (st : mstate) (c : N) (s' : jstring) : mstate :=
  MState (Some c) s' (m_cap st).

(** Greedy [x*]: the longest run first. *)
Fixpoint star_run (ic : bool) (cc : cclass) (st : mstate) (s : jstring) : list mstate :=
  match s with
  | c :: s' =>
      if cc_match ic cc c
      then star_run ic cc (advance st c s') s' ++ [MState (m_prev st) s (m_cap st)]
      else [MState (m_prev st) s (m_cap st)]
  | [] => [MState (m_prev st) s (m_cap st)]
  end.

Fixpoint repeat_run (ic : bool) (cc : cclass) (n : nat) (st : mstate) (s : jstring)
  : list mstate :=
  match n with
  | O => [MState (m_prev st) s (m_cap st)]
  | S n' =>
      match s with
      | c :: s' =>
          if cc_match ic cc c then repeat_run ic cc n' (advance st c s') s' else []
      | [] => []
      end
  end.

Definition opt_is_word (o : option N) : bool :=
  match o with
  | Some c => is_word c
  | None => false
  end.

Fixpoint run (ic : bool) (r : regex) (st : mstate) : list mstate :=
  match r with
  | REmpty => [st]
  | RChar cc =>
      match m_rest st with
      | c :: s' => if cc_match ic cc c then [advance st c s'] else []
      | [] => []
      end
  | RCat r1 r2 => flat_map (run ic r2) (run ic r1 st)
  | RStar cc => star_run ic cc st (m_rest st)
  | ROpt cc =>
      match m_rest st with
      | c :: s' => if cc_match ic cc c then [advance st c s'; st] else [st]
      | [] => [st]
      end
  | RRepeat n cc => repeat_run ic cc n st (m_rest st)
  | RNotAhead cc =>
      match m_rest st with
      | c :: _ => if cc_match ic cc c then [] else [st]
      | [] => [st]
      end
  | RWordB =>
      if xorb (opt_is_word (m_prev st)) (opt_is_word (head (m_rest st)))
      then [st] else []
  | RGroup r' =>
      map (fun st' =>
             MState (m_prev st') (m_rest st')
                    (Some (take (length (m_rest st) - length (m_rest st')) (m_rest st))))
          (run ic r' st)
  end.

(** [RegExp.prototype.exec] without the [g] flag: the first position, from
    the left, at which the pattern matches. *)
Fixpoint exec_from (ic : bool) (r : regex) (prev : option N) (s : jstring)
  : option mstate :=
  match run ic r (MState prev s None) with
  | st :: _ => Some st
  | [] =>
      match s with
      | c :: s' => exec_from ic r (Some c) s'
      | [] => None
      end
  end.

Definition exec (ic : bool) (r : regex) (s : jstring) : option mstate :=
  exec_from ic r None s.

(** [pattern.test(s)] *)
Definition test (ic : bool) (r : regex) (s : jstring) : bool :=
  match exec ic r s with
  | Some _ => true
  | None => false
  end.

End RegExp.

Import RegExp.

(* ================================================================= *)
(** ** Data model *)

(** A torrent as the searchers build it and the utilities read it (fields
    that nothing downstream reads, such as [magnet] or [topicId], are left
    out).  [infoHash] may be undefined in an object handed to
    [removeDuplicates]; the searchers always set it. *)
Record torrent := Torrent {
  title : jstring;
  infoHash : option jstring;
  size : jstring;
  seeders : Z;
  quality : jstring;
  source : jstring
}.

(** A file of a torrent: [{ path, name }], either of which may be missing. *)
Record file := File {
  path : option jstring;
  name : option jstring
}.

(* ================================================================= *)
(** ** Arrays *)

(** [Array.prototype.sort(compare)]: the stable sort by the sign of
    [compare].  For a consistent comparator every conforming engine returns
    this list; for an inconsistent one the language leaves the order to the
    engine, and this insertion sort is one admissible outcome. *)
Section Sort.
Context {A : Type} (compare : A -> A -> Z).

Fixpoint insert_sorted (x : A) (l : list A) : list A :=
  match l with
  | [] => [x]
  | y :: l' => if compare x y <=? 0 then x :: l else y :: insert_sorted x l'
  end.

Fixpoint array_sort (l : list A) : list A :=
  match l with
  | [] => []
  | x :: l' => insert_sorted x (array_sort l')
  end.
End Sort.

(** What [sort] makes of the value a comparator returns: a number counts
    by its sign, and [NaN] as [+0]. *)
Definition sort_order (v : jsnum) : Z :=
  match v with
  | Int z => z
  | NaN => 0
  end.

(* ================================================================= *)
(** ** [TorrentUtils] (src/lib/utils.js) *)

Module TorrentUtils.

(** [[a-fA-F0-9]] *)
Definition hex_class : cclass :=
  CSet false [IRange 97 102; IRange 65 70; IRange 48 57].

(** [/btih:([a-fA-F0-9]{40})/i] *)
Definition infoHash_re : regex :=
  RCat (lit (js "btih:")) (RGroup (RRepeat 40 hex_class)).

(** [match[1]]; the group takes part in every match of [infoHash_re]. *)
Definition group1 (st : mstate) : jstring := default [] (m_cap st).

Definition extractInfoHash (magnet : option jstring) : option jstring :=
  if negb (truthy magnet) then None
  else
    match exec true infoHash_re (default [] magnet) with
    | Some st => Some (toUpperCase (group1 st))
    | None => None
    end.

(** [encodeURIComponent]: the unreserved characters stay, every other code
    point is written as the percent-escaped octets of its UTF-8 encoding; a
    surrogate that is not part of a pair throws [URIError]. *)
Definition uri_unescaped (c : N) : bool :=
  in_range 65 90 c || in_range 97 122 c || is_digit c
  || existsb (N.eqb c) (js "-_.!~*'()").

Definition hex_digit (n : N) : N :=
  if (n <? 10)%N then (48 + n)%N else (55 + n)%N.

Definition percent (octet : N) : jstring :=
  [37%N; hex_digit (octet / 16); hex_digit (octet mod 16)].

Definition utf8 (cp : N) : list N :=
  if (cp <? 0x80)%N then [cp]
  else if (cp <? 0x800)%N then [0xC0 + cp / 64; 0x80 + cp mod 64]%N
  else if (cp <? 0x10000)%N then
    [0xE0 + cp / 4096; 0x80 + (cp / 64) mod 64; 0x80 + cp mod 64]%N
  else
    [0xF0 + cp / 262144; 0x80 + (cp / 4096) mod 64;
     0x80 + (cp / 64) mod 64; 0x80 + cp mod 64]%N.

Definition is_high_surrogate (c : N) : bool := in_range 0xD800 0xDBFF c.
Definition is_low_surrogate (c : N) : bool := in_range 0xDC00 0xDFFF c.

Fixpoint encodeURIComponent (s : jstring) : result jstring :=
  match s with
  | [] => Ok []
  | c :: s' =>
      if uri_unescaped c then
        rbind (encodeURIComponent s') (fun r => Ok (c :: r))
      else if is_low_surrogate c then Throw URIError
      else if is_high_surrogate c then
        match s' with
        | d :: s'' =>
            if is_low_surrogate d then
              let cp := ((c - 0xD800) * 0x400 + (d - 0xDC00) + 0x10000)%N in
              rbind (encodeURIComponent s'')
                    (fun r => Ok (flat_map percent (utf8 cp) ++ r))
            else Throw URIError
        | [] => Throw URIError
        end
      else
        rbind (encodeURIComponent s')
              (fun r => Ok (flat_map percent (utf8 c) ++ r))
  end.

Definition defaultTrackers : list jstring :=
  [ js "udp://tracker.opentrackr.org:1337/announce";
    js "udp://tracker.openbittorrent.com:80/announce";
    js "udp://open.stealth.si:80/announce";
    js "udp://tracker.torrent.eu.org:451/announce";
    js "udp://tracker.moeking.me:6969/announce" ].

(** [allTrackers.forEach(tracker => magnet += `&tr=${encodeURIComponent(tracker)}`)] *)
Fixpoint append_trackers (magnet : jstring) (trackers : list jstring) : result jstring :=
  match trackers with
  | [] => Ok magnet
  | tracker :: rest =>
      rbind (encodeURIComponent tracker)
            (fun e => append_trackers (magnet ++ js "&tr=" ++ e) rest)
  end.

Definition createMagnetLink (infoHash : jstring) (name : option jstring)
    (trackers : list jstring) : result jstring :=
  let magnet := js "magnet:?xt=urn:btih:" ++ toUpperCase infoHash in
  rbind (if truthy name
         then rbind (encodeURIComponent (default [] name))
                    (fun e => Ok (magnet ++ js "&dn=" ++ e))
         else Ok magnet)
        (fun magnet => append_trackers magnet (defaultTrackers ++ trackers)).

(** *** [parseQuality] *)

Record qualityInfo := Quality {
  resolution : option jstring;
  q_source : option jstring;
  codec : option jstring;
  audio : option jstring;
  hdr : bool
}.

(** [if (kws1.some(includes)) v1 else if (kws2.some(includes)) v2 ...]:
    the value of the first branch one of whose keywords occurs. *)
Fixpoint first_keyword (t : jstring) (branches : list (list jstring * jstring))
  : option jstring :=
  match branches with
  | [] => None
  | (kws, v) :: rest =>
      if existsb (fun kw => includes t kw) kws then Some v
      else first_keyword t rest
  end.

Definition resolution_branches : list (list jstring * jstring) :=
  [ ([js "2160p"; js "4k"; js "uhd"], js "4K");
    ([js "1080p"], js "1080p");
    ([js "720p"], js "720p");
    ([js "480p"], js "480p") ].

Definition source_branches : list (list jstring * jstring) :=
  [ ([js "remux"], js "REMUX");
    ([js "bluray"; js "bdrip"; js "brrip"], js "BluRay");
    ([js "web-dl"; js "webdl"], js "WEB-DL");
    ([js "webrip"], js "WEBRip");
    ([js "hdtv"], js "HDTV");
    ([js "dvdrip"], js "DVDRip");
    ([js "cam"; js "camrip"], js "CAM");
    ([js "ts"; js "telesync"], js "TS") ].

Definition codec_branches : list (list jstring * jstring) :=
  [ ([js "hevc"; js "h265"; js "x265"], js "HEVC");
    ([js "h264"; js "x264"; js "avc"], js "H.264");
    ([js "av1"], js "AV1") ].

Definition audio_branches : list (list jstring * jstring) :=
  [ ([js "atmos"], js "Dolby Atmos");
    ([js "truehd"], js "TrueHD");
    ([js "dts-hd"; js "dts-ma"], js "DTS-HD");
    ([js "dts"], js "DTS");
    ([js "dd5.1"; js "ac3"], js "DD 5.1");
    ([js "aac"], js "AAC") ].

Definition hdr_keywords : list jstring :=
  [js "hdr"; js "hdr10"; js "dolby vision"; js "dv"].

Definition parseQuality (title : jstring) : qualityInfo :=
  let titleLower := toLowerCase title in
  {| resolution := first_keyword titleLower resolution_branches;
     q_source := first_keyword titleLower source_branches;
     codec := first_keyword titleLower codec_branches;
     audio := first_keyword titleLower audio_branches;
     hdr := existsb (fun kw => includes titleLower kw) hdr_keywords |}.

(** *** [findEpisodeFile] *)

Definition videoExts : list jstring :=
  [js ".mkv"; js ".mp4"; js ".avi"; js ".mov"; js ".wmv"].

Definition zeros : regex := RStar (CChar 48).
Definition spaces : regex := RStar CSpace.

(** The four patterns, all with the [i] flag; [season] and [episode] are
    interpolated as their decimal text. *)
Definition patterns (season episode : jsnum) : list regex :=
  let s := lit (num_toString season) in
  let e := lit (num_toString episode) in
  [ (* s0*${season}e0*${episode}(?!\d) *)
    rcat [lit (js "s"); zeros; s; lit (js "e"); zeros; e; RNotAhead CDigit];
    (* \b${season}x0*${episode}(?!\d) *)
    rcat [RWordB; s; lit (js "x"); zeros; e; RNotAhead CDigit];
    (* season\s*0*${season}.*episode\s*0*${episode} *)
    rcat [lit (js "season"); spaces; zeros; s; RStar CDot;
         lit (js "episode"); spaces; zeros; e];
    (* the same with the Russian words for season and episode *)
    rcat [lit [0x441; 0x435; 0x437; 0x43E; 0x43D]%N; spaces; zeros; s; RStar CDot;
         lit [0x441; 0x435; 0x440; 0x438; 0x44F]%N; spaces; zeros; e] ].

(** [(file.path || file.name || '').toLowerCase()] *)
Definition lower_name (f : file) : jstring :=
  toLowerCase (default [] (or_else (or_else (path f) (name f)) (Some []))).

Definition isVideo (name : jstring) : bool :=
  existsb (fun ext => endsWith name ext) videoExts.

Definition matches (ps : list regex) (name : jstring) : bool :=
  existsb (fun pattern => test true pattern name) ps.

(** First loop, from index [i]: the first video file that matches. *)
Fixpoint match_loop (ps : list regex) (i : nat) (files : list file) : option nat :=
  match files with
  | [] => None
  | f :: rest =>
      let name := lower_name f in
      if negb (isVideo name) then match_loop ps (S i) rest
      else if matches ps name then Some (i + 1)%nat
      else match_loop ps (S i) rest
  end.

(** Second loop: the first video file. *)
Fixpoint video_loop (i : nat) (files : list file) : option nat :=
  match files with
  | [] => None
  | f :: rest =>
      if isVideo (lower_name f) then Some (i + 1)%nat
      else video_loop (S i) rest
  end.

Definition findEpisodeFile (files : list file) (season episode : jsnum) : option nat :=
  match match_loop (patterns season episode) 0 files with
  | Some idx => Some idx
  | None => video_loop 0 files
  end.

(** *** [getQualityString] *)

(** [if (x) parts.push(x)] for a possibly-null label. *)
Definition push_if (label : option jstring) : list jstring :=
  if truthy label then [default [] label] else [].

(** [parts.join(' | ') || 'Unknown'] over the resolution, source and codec
    labels and the [HDR] tag; the audio label is not shown. *)
Definition getQualityString (title : jstring) : jstring :=
  let q := parseQuality title in
  let parts :=
    push_if (resolution q) ++ push_if (q_source q) ++ push_if (codec q)
    ++ (if hdr q then [js "HDR"] else []) in
  default [] (or_else (Some (join (js " | ") parts)) (Some (js "Unknown"))).

(** *** [isGoodQuality] *)

Definition goodKeywords : list jstring :=
  [js "1080p"; js "720p"; js "4k"; js "2160p"; js "bluray"; js "web-dl";
   js "webrip"; js "remux"].

Definition badKeywords : list jstring :=
  [js "cam"; js "ts"; js "telesync"; js "hdcam"; js "sample"; js "trailer"].

Definition isGoodQuality (title : jstring) : bool :=
  let titleLower := toLowerCase title in
  let hasGood := existsb (fun keyword => includes titleLower keyword) goodKeywords in
  let hasBad := existsb (fun keyword => includes titleLower keyword) badKeywords in
  hasGood && negb hasBad.

(** *** [removeDuplicates] *)

(** [torrents.filter(...)] with the [seen] set threaded through. *)
Fixpoint removeDuplicates_from (seen : gset jstring) (torrents : list torrent)
  : list torrent :=
  match torrents with
  | [] => []
  | t :: rest =>
      if negb (truthy (infoHash t)) then t :: removeDuplicates_from seen rest
      else
        let hash := toUpperCase (default [] (infoHash t)) in
        if decide (hash ∈ seen) then removeDuplicates_from seen rest
        else t :: removeDuplicates_from ({[hash]} ∪ seen) rest
  end.

Definition removeDuplicates (torrents : list torrent) : list torrent :=
  removeDuplicates_from ∅ torrents.

(** *** [sortByPriority] *)

(** The object literal [qualityPriority]: its own properties. *)
Definition qualityPriority : list (jstring * Z) :=
  [ (js "4K", 100); (js "REMUX", 95); (js "2160p", 90); (js "1080p", 80);
    (js "BluRay", 70); (js "720p", 60); (js "WEB-DL", 65); (js "WEBRip", 60);
    (js "HDTV", 50); (js "480p", 40) ].

(** The names that an object literal inherits from [Object.prototype].
    What is read under one of them is a function, or the prototype object
    itself for [__proto__]: a truthy value that is [NaN] as a number. *)
Definition prototype_names : list jstring :=
  [ js "constructor"; js "hasOwnProperty"; js "isPrototypeOf";
    js "propertyIsEnumerable"; js "toLocaleString"; js "toString"; js "valueOf";
    js "__proto__"; js "__defineGetter__"; js "__defineSetter__";
    js "__lookupGetter__"; js "__lookupSetter__" ].

(** The value of [qualityPriority[q] || 0]: a number, or an inherited
    member. *)
Inductive priority_value :=
| PNumber (v : Z)
| PInherited.

(** The own property [q] of the literal, when it has one. *)
Fixpoint own_property (table : list (jstring * Z)) (q : jstring) : option Z :=
  match table with
  | [] => None
  | (k, v) :: rest => if decide (k = q) then Some v else own_property rest q
  end.

(** [qualityPriority[q] || 0] for a quality label [q]: the own property,
    else the inherited member, else ([undefined || 0]) zero. *)
Definition lookup_priority (table : list (jstring * Z)) (q : jstring) : priority_value :=
  match own_property table q with
  | Some v => PNumber v
  | None => if bool_decide (q ∈ prototype_names) then PInherited else PNumber 0
  end.

Definition priority (t : torrent) : priority_value :=
  lookup_priority qualityPriority (quality t).

(** [bPriority - aPriority]: a number when both are numbers, else [NaN]. *)
Definition priority_sub (b a : priority_value) : jsnum :=
  match b, a with
  | PNumber x, PNumber y => Int (x - y)
  | _, _ => NaN
  end.

Definition compare_priority (a b : torrent) : jsnum :=
  let seedDiff := seeders b - seeders a in
  if Z.abs seedDiff >? 10 then Int seedDiff
  else priority_sub (priority b) (priority a).

(** [torrents.sort(compare)]: the sort reads a comparator result of [NaN]
    as [+0]. *)
Definition sortByPriority (torrents : list torrent) : list torrent :=
  array_sort (fun a b => sort_order (compare_priority a b)) torrents.

End TorrentUtils.

(* ================================================================= *)
(** ** The outside world and the effects of a request *)

Inductive tracker := Rutor | RuTracker | Kinozal.

(** A call that leaves the process. *)
Inductive event :=
| CallMetadata (imdbId type : jstring)
| CallJackett (query : jstring)
| CallTracker (t : tracker) (query : jstring)
| CallProvider (apiKey hash : jstring).

(** A file of a cached variant in the provider's answer. *)
Record rd_file := RdFile {
  filename : option jstring;
  filesize : Z
}.

(** The provider's answer to [GET /torrents/instantAvailability/<hash>]:
    the request fails, or it carries the list [data[hash].rd] of cached
    variants ([None] when [data], the entry of the hash or its [rd] field is
    missing). *)
Inductive provider_reply :=
| ProviderFault (e : error)
| ProviderData (rd : option (list (list rd_file))).

(** What the network answers.  For the searchers the oracle gives the
    outcome of the body of the adapter's [try] block: the parsed results,
    or the exception of a failed or timed-out request. *)
Record world := World {
  w_omdb : jstring -> jstring -> result (option (jstring * jstring));
  w_jackett : option (jstring -> result (list torrent));
  w_tracker : tracker -> jstring -> result (list torrent);
  w_provider : jstring -> jstring -> provider_reply;
  w_latency : event -> N
}.

(** A stream object of the answer. *)
Record stream := Stream {
  s_name : jstring;
  s_title : jstring;
  s_infoHash : option jstring;
  fileIdx : option nat;
  bingeGroup : jstring;
  sources : list jstring;
  description : jstring
}.

(** An entry of the in-memory cache: [{ data, timestamp }]. *)
Record cache_item := CacheItem {
  data : list stream;
  timestamp : Z
}.

(** The state a request runs in: the module-level [cache], the wall clock
    that [Date.now()] reads, and the calls made so far. *)
Record state := State {
  cache : gmap jstring cache_item;
  clock : Z;
  trace : list event
}.

Definition M (A : Type) : Type := state -> result A * state.

Definition ret {A} (a : A) : M A := fun s => (Ok a, s).

Definition bind {A B} (m : M A) (k : A -> M B) : M B :=
  fun s =>
    match m s with
    | (Ok a, s') => k a s'
    | (Throw e, s') => (Throw e, s')
    end.

Notation "x <- m ;; k" := (bind m (fun x => k))
  (at level 100, m at next level, right associativity).
Notation "m ;;; k" := (bind m (fun _ => k))
  (at level 100, right associativity).

Definition lift {A} (r : result A) : M A := fun s => (r, s).

(** [try { m } catch (e) { h e }]; the effects of [m] up to the throw stay. *)
Definition try_catch {A} (m : M A) (h : error -> M A) : M A :=
  fun s =>
    match m s with
    | (Ok a, s') => (Ok a, s')
    | (Throw e, s') => h e s'
    end.

(** An awaited external call: it is recorded and takes time. *)
Definition call (w : world) (ev : event) : M unit :=
  fun s => (Ok tt, State (cache s) (clock s + Z.of_N (w_latency w ev)) (trace s ++ [ev])).

(** Template interpolation of a possibly-undefined string. *)
Definition interp (o : option jstring) : jstring := default (js "undefined") o.

(** Template interpolation of a number or [null]. *)
Definition interp_num (o : option jsnum) : jstring :=
  match o with
  | Some n => num_toString n
  | None => js "null"
  end.

Definition opt_num_truthy (o : option jsnum) : bool :=
  match o with
  | Some n => num_truthy n
  | None => false
  end.

(** [x.toString().padStart(2, '0')]; [null.toString()] throws. *)
Definition pad2 (o : option jsnum) : result jstring :=
  match o with
  | Some n => Ok (padStart0 2 (num_toString n))
  | None => Throw TypeError
  end.

Definition is_series (type : jstring) : bool := bool_decide (type = js "series").

(* ================================================================= *)
(** ** [TorrentSearcher] (src/unnamed/part_002) *)

Module TorrentSearcher.

Record params := Params {
  p_type : jstring;
  p_title : jstring;
  p_year : jstring;
  p_season : option jsnum;
  p_episode : option jsnum
}.

(** [this.trackers.<t>.enabled], all [true] in the constructor. *)
Definition enabled (t : tracker) : bool := true.

(** The search text: title, year, and [S0#E0#] for an episode.  Inside the
    guards [season] and [episode] are truthy, hence numbers. *)
Definition searchQuery (p : params) : jstring :=
  let q := p_title p in
  let q := if truthy (Some (p_year p)) then q ++ js " " ++ p_year p else q in
  if is_series (p_type p) && opt_num_truthy (p_season p) then
    let q := q ++ js " S" ++ padStart0 2 (interp_num (p_season p)) in
    if opt_num_truthy (p_episode p)
    then q ++ js "E" ++ padStart0 2 (interp_num (p_episode p))
    else q
  else q.

(** The state of a settled promise. *)
Inductive settled :=
| Fulfilled (value : list torrent)
| Rejected (reason : error).

(** [searchRutor], [searchRutracker], [searchKinozal]: the body runs inside
    [try]; [catch] logs and returns [[]], so the promise is fulfilled. *)
Definition searchTracker (w : world) (t : tracker) (query : jstring) : M settled :=
  call w (CallTracker t query) ;;;
  ret (Fulfilled (rcatch (w_tracker w t query) (fun _ => []))).

(** [allResults.forEach(result => { if (fulfilled && value) results.push(...value) })] *)
Fixpoint collect (allResults : list settled) : list torrent :=
  match allResults with
  | [] => []
  | Fulfilled value :: rest => value ++ collect rest
  | Rejected _ :: rest => collect rest
  end.

(** [(a, b) => (b.seeders || 0) - (a.seeders || 0)] *)
Definition by_seeders (a b : torrent) : Z := seeders b - seeders a.

(** What [search] returns once the promises have settled. *)
Definition search_results (allResults : list settled) : list torrent :=
  array_sort by_seeders (collect allResults).

(** [Promise.allSettled(searches)] over the enabled trackers. *)
Fixpoint allSettled (w : world) (query : jstring) (ts : list tracker) : M (list settled) :=
  match ts with
  | [] => ret []
  | t :: rest =>
      r <- searchTracker w t query ;;
      rs <- allSettled w query rest ;;
      ret (r :: rs)
  end.

Definition search (w : world) (p : params) : M (list torrent) :=
  let query := searchQuery p in
  allResults <- allSettled w query (filter (fun t => enabled t = true) [Rutor; RuTracker; Kinozal]) ;;
  ret (search_results allResults).

(** [extractQuality]: the label of the first keyword group that occurs in
    the title, else ['Unknown']. *)
Definition quality_branches : list (list jstring * jstring) :=
  [ ([js "2160p"; js "4k"], js "4K");
    ([js "1080p"], js "1080p");
    ([js "720p"], js "720p");
    ([js "480p"], js "480p");
    ([js "bdrip"; js "bluray"], js "BluRay");
    ([js "webrip"; js "web-dl"], js "WEB-DL");
    ([js "hdtv"], js "HDTV") ].

Definition extractQuality (title : jstring) : jstring :=
  default (js "Unknown")
          (TorrentUtils.first_keyword (toLowerCase title) quality_branches).






End TorrentSearcher.

(* ================================================================= *)
(** ** [JackettSearcher.search] (src/lib/utils.js, second class) *)

Module JackettSearcher.

Import TorrentSearcher.

(** The search text; unlike [TorrentSearcher] it does not look at [type]. *)
Definition searchQuery (p : params) : jstring :=
  let q := p_title p in
  let q := if truthy (Some (p_year p)) then q ++ js " " ++ p_year p else q in
  if opt_num_truthy (p_season p) then
    let q := q ++ js " S" ++ padStart0 2 (interp_num (p_season p)) in
    if opt_num_truthy (p_episode p)
    then q ++ js "E" ++ padStart0 2 (interp_num (p_episode p))
    else q
  else q.

(** [search] of an enabled searcher with the results oracle [results]:
    the request and the mapping of its hits run inside [try]; [catch]
    returns [[]]. *)
Definition search (w : world) (results : jstring -> result (list torrent)) (p : params)
  : M (list torrent) :=
  let query := searchQuery p in
  call w (CallJackett query) ;;;
  ret (rcatch (results query) (fun _ => [])).

(** The constructor: enabled when both the URL and the API key are set. *)
Definition enabled (jackettUrl apiKey : option jstring) : bool :=
  truthy jackettUrl && truthy apiKey.

Definition quality_branches : list (list jstring * jstring) :=
  [ ([js "2160p"; js "4k"; js "uhd"], js "4K");
    ([js "1080p"], js "1080p");
    ([js "720p"], js "720p");
    ([js "480p"], js "480p");
    ([js "remux"], js "REMUX");
    ([js "bdrip"; js "bluray"], js "BluRay");
    ([js "webrip"; js "web-dl"], js "WEB-DL");
    ([js "hdtv"], js "HDTV");
    ([js "cam"; js "ts"], js "CAM/TS") ].

Definition extractQuality (title : jstring) : jstring :=
  default (js "Unknown")
          (TorrentUtils.first_keyword (toLowerCase title) quality_branches).

(** A hit of the Jackett API, with the fields [search] reads. *)
Record item := Item {
  MagnetUri : option jstring;
  Link : option jstring;
  Title : option jstring;
  Size : option Z;
  Seeders : option Z;
  Tracker : option jstring
}.

Section Results.

(** [formatSize] renders a byte count with floating-point arithmetic; the
    mapping of the hits only stores its result. *)
Variable formatSize : option Z -> jstring.

(** The callback of [.map]: [null] for a hit without a hash in its magnet
    link; reading the quality off a missing title throws. *)
Definition map_item (it : item) : result (option torrent) :=
  let infoHash :=
    if truthy (MagnetUri it) then
      match exec true TorrentUtils.infoHash_re (default [] (MagnetUri it)) with
      | Some st => Some (toUpperCase (TorrentUtils.group1 st))
      | None => None
      end
    else None in
  if negb (truthy infoHash) then Ok None
  else
    match Title it with
    | None => Throw TypeError
    | Some t =>
        Ok (Some {| title := t;
                    infoHash := infoHash;
                    size := formatSize (Size it);
                    seeders := default 0 (Seeders it);
                    quality := extractQuality t;
                    source := default [] (or_else (Tracker it) (Some (js "Jackett"))) |})
    end.

(** [.map(...)] over the hits, in order; an exception ends it. *)
Fixpoint map_items (items : list item) : result (list (option torrent)) :=
  match items with
  | [] => Ok []
  | it :: rest =>
      rbind (map_item it) (fun r =>
      rbind (map_items rest) (fun rs => Ok (r :: rs)))
  end.

(** The body of [try] after the request: [Results] filtered to the hits
    with a magnet or a link, mapped, and cleared of [null]. *)
Definition results_of (Results : option (list item)) : result (list torrent) :=
  match Results with
  | None => Ok []
  | Some items =>
      rbind (map_items
               (List.filter (fun it => truthy (or_else (MagnetUri it) (Link it))) items))
            (fun mapped => Ok (omap id mapped))
  end.

(** What [search] returns: [catch] turns an exception into [[]]. *)
Definition search_results (Results : option (list item)) : list torrent :=
  rcatch (results_of Results) (fun _ => []).

End Results.

End JackettSearcher.

(* ================================================================= *)
(** ** [RealDebridClient.checkAvailability] (src/unnamed/part_002) *)

Module RealDebridClient.

Record rdInfo := RdInfo {
  available : bool;
  files : option (list file)
}.

(** The whole body is inside [try]; a failed request is caught and
    answered [{ available: false }]. *)
Definition checkAvailability (w : world) (apiKey infoHash : jstring) : M rdInfo :=
  call w (CallProvider apiKey infoHash) ;;;
  ret match w_provider w apiKey infoHash with
      | ProviderData (Some (variant :: _)) =>
          RdInfo true (Some (map (fun f => File (filename f) None) variant))
      | ProviderData _ => RdInfo false None
      | ProviderFault _ => RdInfo false None
      end.

End RealDebridClient.

(* ================================================================= *)
(** ** The stream handler (src/unnamed/part_001 and part_000) *)

Module Addon.

Import RealDebridClient.

Definition CACHE_TTL : Z := 3600000.

Definition getCache (key : jstring) : M (option (list stream)) :=
  fun s =>
    match cache s !! key with
    | None => (Ok None, s)
    | Some item =>
        if clock s - timestamp item >? CACHE_TTL
        then (Ok None, State (delete key (cache s)) (clock s) (trace s))
        else (Ok (Some (data item)), s)
    end.

Definition setCache (key : jstring) (streams : list stream) : M unit :=
  fun s =>
    (Ok tt, State (<[key := CacheItem streams (clock s)]> (cache s)) (clock s) (trace s)).

(** [`streams:${id}:${config.rdApiKey.substring(0, 8)}`] *)
Definition cacheKey (id rdApiKey : jstring) : jstring :=
  js "streams:" ++ id ++ js ":" ++ substring0 8 rdApiKey.

(** [getMetadata]: title and year from the catalogue, or empty strings. *)
Definition getMetadata (w : world) (imdbId type : jstring) : M (jstring * jstring) :=
  call w (CallMetadata imdbId type) ;;;
  ret match w_omdb w imdbId type with
      | Ok (Some m) => m
      | _ => ([], [])
      end.

(** *** [findVideoFile] *)

Definition videoExts : list jstring := [js ".mkv"; js ".mp4"; js ".avi"].

Definition isVideo (name : jstring) : bool :=
  existsb (fun ext => endsWith name ext) videoExts.

Definition zero_opt : regex := ROpt (CChar 48).
Definition non_digit : regex := RChar (CSet true [IDigit]).

(** The three patterns with their [i] flag.  Building the third one calls
    [episode.toString()], which throws when [episode] is [null]. *)
Definition patterns (season episode : option jsnum) : result (list (bool * regex)) :=
  let s := lit (interp_num season) in
  let e := lit (interp_num episode) in
  rbind (pad2 episode) (fun ee =>
  Ok [ (* s0?${season}e0?${episode} , i *)
       (true, rcat [lit (js "s"); zero_opt; s; lit (js "e"); zero_opt; e]);
       (* ${season}x0?${episode} , i *)
       (true, rcat [s; lit (js "x"); zero_opt; e]);
       (* [^\d]${season}${episode.toString().padStart(2, '0')}[^\d] *)
       (false, rcat [non_digit; s; lit ee; non_digit]) ]).

(** First loop, from index [i].  [file.path.toLowerCase()] throws when the
    file has no [path]. *)
Fixpoint match_loop (season episode : option jsnum) (i : nat) (files : list file)
  : result (option nat) :=
  match files with
  | [] => Ok None
  | f :: rest =>
      match path f with
      | None => Throw TypeError
      | Some p =>
          let name := toLowerCase p in
          if negb (isVideo name) then match_loop season episode (S i) rest
          else
            rbind (patterns season episode) (fun ps =>
              if existsb (fun '(ic, pattern) => test ic pattern name) ps
              then Ok (Some (i + 1)%nat)
              else match_loop season episode (S i) rest)
      end
  end.

(** Second loop: the first video file. *)
Fixpoint video_loop (i : nat) (files : list file) : result (option nat) :=
  match files with
  | [] => Ok None
  | f :: rest =>
      match path f with
      | None => Throw TypeError
      | Some p =>
          if isVideo (toLowerCase p) then Ok (Some (i + 1)%nat)
          else video_loop (S i) rest
      end
  end.

Definition findVideoFile (files : list file) (season episode : option jsnum)
  : result (option nat) :=
  rbind (match_loop season episode 0 files) (fun found =>
    match found with
    | Some idx => Ok (Some idx)
    | None => video_loop 0 files
    end).

(** *** The stream built for an available torrent *)

(** ["RD "], the flag of Russia (two regional indicators, four code units)
    and a space. *)
Definition name_prefix : jstring :=
  js "RD " ++ [0xD83C; 0xDDF7; 0xD83C; 0xDDFA]%N ++ js " ".

Definition people : jstring := [0xD83D; 0xDC65]%N.      (* busts in silhouette *)
Definition package : jstring := [0xD83D; 0xDCE6]%N.     (* package *)
Definition clapper : jstring := [0xD83C; 0xDFAC]%N.     (* clapper board *)
(** The Russian word for seeders, with its colon. *)
Definition seeders_label : jstring := [0x421; 0x438; 0x434; 0x44B; 0x3A]%N.

Definition seeders_text (t : torrent) : jstring := num_toString (Int (seeders t)).

Definition mkStream (t : torrent) (fileIndex : option nat) : stream :=
  {| s_name := name_prefix ++ source t;
     s_title := title t;
     s_infoHash := infoHash t;
     fileIdx := fileIndex;
     bingeGroup := js "realdebrid-" ++ interp (infoHash t);
     sources :=
       if negb (seeders t =? 0) then [people ++ js " " ++ seeders_text t] else [];
     description :=
       join (js " | ")
         ((if truthy (Some (size t)) then [package ++ js " " ++ size t] else []) ++
          (if truthy (Some (quality t)) then [clapper ++ js " " ++ quality t] else []) ++
          (if negb (seeders t =? 0)
           then [people ++ js " " ++ seeders_label ++ js " " ++ seeders_text t]
           else [])) |}.

(** *** The availability loop *)

(** The body of [try] for one torrent: the new value of [streams]. *)
Definition resolve_one (w : world) (apiKey type : jstring) (season episode : option jsnum)
    (t : torrent) (streams : list stream) : M (list stream) :=
  rdInfo <- checkAvailability w apiKey (interp (infoHash t)) ;;
  if available rdInfo then
    fileIndex <-
      match files rdInfo with
      | Some fs =>
          if is_series type then lift (findVideoFile fs season episode) else ret None
      | None => ret None
      end ;;
    ret (streams ++ [mkStream t fileIndex])
  else ret streams.

(** [for (const torrent of ...) { try { ... } catch (err) { log } }] *)
Fixpoint resolve_loop (w : world) (apiKey type : jstring) (season episode : option jsnum)
    (torrents : list torrent) (streams : list stream) : M (list stream) :=
  match torrents with
  | [] => ret streams
  | t :: rest =>
      streams' <- try_catch (resolve_one w apiKey type season episode t streams)
                            (fun _ => ret streams) ;;
      resolve_loop w apiKey type season episode rest streams'
  end.

(** *** The handler *)

Record config := Config {
  rdApiKey : option jstring
}.

(** The three shapes of the answer [{ streams: [...] }]: resolved streams;
    the single [notFound] entry asking for the API key; the single
    [notFound] entry that reports [error.message] of a caught exception. *)
Inductive response :=
| Streams (streams : list stream)
| ConfigurationRequired
| ErrorResult (e : error).

(** [config.rdApiKey] followed by a method call on it. *)
Definition read_rdApiKey (cfg : option config) : result jstring :=
  match cfg with
  | None => Throw TypeError
  | Some c =>
      match rdApiKey c with
      | None => Throw TypeError
      | Some k => Ok k
      end
  end.

(** [season] and [episode]: parsed from [id] for a series, else [null]. *)
Definition parse_episode (type id : jstring) : option jsnum * option jsnum :=
  let parts := split 58 id in
  if is_series type && includes id (js ":")
  then (Some (parseInt_at parts 1), Some (parseInt_at parts 2))
  else (None, None).

(** The handler after a cache miss: metadata, search (Jackett first, the
    trackers when it is disabled or finds nothing), availability of the
    first fifteen torrents, and the store of a non-empty result. *)
Definition resolve_miss (w : world) (type id apiKey : jstring)
    (season episode : option jsnum) : M response :=
  let imdbId := default [] (head (split 58 id)) in
  metadata <- getMetadata w imdbId type ;;
  let p := TorrentSearcher.Params type (fst metadata) (snd metadata) season episode in
  torrents <-
    match w_jackett w with
    | Some results => JackettSearcher.search w results p
    | None => ret []
    end ;;
  torrents <-
    (if (length torrents =? 0)%nat then TorrentSearcher.search w p else ret torrents) ;;
  streams <- resolve_loop w apiKey type season episode (take 15 torrents) [] ;;
  (if (0 <? length streams)%nat then setCache (cacheKey id apiKey) streams else ret tt) ;;;
  ret (Streams streams).

(** The handler from the parsing of [id] on; both variants share it. *)
Definition resolve (w : world) (type id : jstring) (cfg : option config) : M response :=
  let se := parse_episode type id in
  apiKey <- lift (read_rdApiKey cfg) ;;
  cached <- getCache (cacheKey id apiKey) ;;
  match cached with
  | Some streams => ret (Streams streams)
  | None => resolve_miss w type id apiKey (fst se) (snd se)
  end.

Definition has_credential (cfg : option config) : bool :=
  match cfg with
  | Some c => truthy (rdApiKey c)
  | None => false
  end.

(** part_001: the credential is checked first. *)
Definition streamHandler_part001 (w : world) (type id : jstring) (cfg : option config)
  : M response :=
  try_catch
    (if negb (has_credential cfg) then ret ConfigurationRequired
     else resolve w type id cfg)
    (fun e => ret (ErrorResult e)).

(** part_000: a constant [rdApiKey] is declared and never read; the body
    goes on to [config.rdApiKey] without a check. *)
Definition streamHandler_part000 (w : world) (type id : jstring) (cfg : option config)
  : M response :=
  try_catch (resolve w type id cfg) (fun e => ret (ErrorResult e)).

End Addon.

(* ================================================================= *)
(** ** Vocabulary of the properties *)

Module Props.

Import TorrentUtils.

(** Hexadecimal digits, and info hashes: forty of them. *)
Definition is_hex (c : N) : bool :=
  in_range 48 57 c || in_range 97 102 c || in_range 65 70 c.

Definition is_upper_hex (c : N) : bool :=
  in_range 48 57 c || in_range 65 70 c.

Definition hex40 (h : jstring) : bool :=
  (length h =? 40)%nat && forallb is_hex h.

Definition upper_hex40 (h : jstring) : bool :=
  (length h =? 40)%nat && forallb is_upper_hex h.

(** Well-formed UTF-16: every surrogate is half of a pair. *)
Fixpoint well_formed (s : jstring) : bool :=
  match s with
  | [] => true
  | c :: s' =>
      if is_low_surrogate c then false
      else if is_high_surrogate c then
        match s' with
        | d :: s'' => is_low_surrogate d && well_formed s''
        | [] => false
        end
      else well_formed s'
  end.

Definition well_formed_opt (o : option jstring) : bool :=
  match o with
  | Some s => well_formed s
  | None => true
  end.

(** The key under which [removeDuplicates] remembers a torrent: its
    upper-cased hash, when it has a non-empty one. *)
Definition hash_key (t : torrent) : option jstring :=
  if truthy (infoHash t) then Some (toUpperCase (default [] (infoHash t))) else None.

Definition has_key (k : jstring) (t : torrent) : bool :=
  bool_decide (hash_key t = Some k).

Definition no_key (t : torrent) : bool :=
  bool_decide (hash_key t = None).

(** The identity hash of a candidate after case normalization. *)
Definition normalized_hash (t : torrent) : jstring :=
  toUpperCase (default [] (infoHash t)).

(** The candidate has an identity hash, and it is not empty. *)
Definition has_hash (t : torrent) : bool := truthy (infoHash t).

(** The quality-priority value that the table gives a candidate's label,
    [0] for a label that is not in the table. *)
Definition table_priority (t : torrent) : Z :=
  default 0 (own_property qualityPriority (quality t)).

(** The quality label is the name of a member that the table object
    inherits, such as [toString]. *)
Definition inherited_label (t : torrent) : bool :=
  bool_decide (quality t ∈ prototype_names).

(** The ranking rule for a candidate [a] placed before a candidate [b]:
    when the seeders differ by more than ten, [a] has more of them;
    otherwise [a] has at least the quality priority of [b]. *)
Definition placed_as_ranked (a b : torrent) : bool :=
  if Z.abs (seeders a - seeders b) >? 10 then seeders b <? seeders a
  else table_priority b <=? table_priority a.

(** Every two candidates of [out] are placed as the rule asks. *)
Fixpoint ranked (out : list torrent) : bool :=
  match out with
  | [] => true
  | a :: rest => forallb (placed_as_ranked a) rest && ranked rest
  end.

(** Sorted by seeders, most first. *)
Definition seeders_descending (out : list torrent) : Prop :=
  StronglySorted (fun a b => seeders b <= seeders a) out.

(** What an adapter contributes: its results when it succeeds, nothing
    when it throws or times out. *)
Definition adapter_output (w : world) (query : jstring) (t : tracker) : list torrent :=
  match w_tracker w t query with
  | Ok found => found
  | Throw _ => []
  end.

(** The values of the promises that were fulfilled, in order. *)
Definition fulfilled_values (allResults : list TorrentSearcher.settled) : list torrent :=
  flat_map (fun r => match r with
                     | TorrentSearcher.Fulfilled value => value
                     | TorrentSearcher.Rejected _ => []
                     end) allResults.

(** The files of a torrent that the provider reports available to the
    account [apiKey]; [None] when it reports it unavailable or the call
    fails. *)
Definition provider_files (w : world) (apiKey : jstring) (t : torrent)
  : option (list file) :=
  match w_provider w apiKey (interp (infoHash t)) with
  | ProviderData (Some (variant :: _)) =>
      Some (map (fun f => File (filename f) None) variant)
  | ProviderData _ => None
  | ProviderFault _ => None
  end.

(** The streams that one candidate gives rise to. *)
Definition emitted (w : world) (apiKey type : jstring) (season episode : option jsnum)
    (t : torrent) : list stream :=
  match provider_files w apiKey t with
  | None => []
  | Some fs =>
      if is_series type then
        match Addon.findVideoFile fs season episode with
        | Ok idx => [Addon.mkStream t idx]
        | Throw _ => []
        end
      else [Addon.mkStream t None]
  end.

Definition provider_call (apiKey : jstring) (t : torrent) : event :=
  CallProvider apiKey (interp (infoHash t)).

(** [i] is the index of the first element of [l] that satisfies [P]. *)
Definition first_index {A} (P : A -> bool) (l : list A) (i : nat) : Prop :=
  (exists x, l !! i = Some x /\ P x = true)
  /\ (forall j y, (j < i)%nat -> l !! j = Some y -> P y = false).

(** A file with a recognised video extension. *)
Definition is_video_file (f : file) : bool := isVideo (lower_name f).

(** A video file whose name matches one of the episode patterns. *)
Definition is_episode_file (season episode : jsnum) (f : file) : bool :=
  is_video_file f && matches (patterns season episode) (lower_name f).

(** A file known by its name. *)
Definition named (n : string) : file := File (Some (js n)) None.

(** The same notions for [findVideoFile] of the handler, which reads
    [file.path] only, knows three extensions and has patterns of its own. *)
Definition path_name (f : file) : jstring := toLowerCase (default [] (path f)).

Definition is_handler_video_file (f : file) : bool := Addon.isVideo (path_name f).

Definition handler_matches (season : option jsnum) (episode : jsnum) (name : jstring)
  : bool :=
  match Addon.patterns season (Some episode) with
  | Ok ps => existsb (fun '(ic, pattern) => test ic pattern name) ps
  | Throw _ => false
  end.

Definition is_handler_episode_file (season : option jsnum) (episode : jsnum) (f : file)
  : bool :=
  is_handler_video_file f && handler_matches season episode (path_name f).

(** Every file has a [path]. *)
Definition all_have_path (files : list file) : Prop :=
  Forall (fun f => path f <> None) files.

(** The keywords of each field of a quality descriptor. *)
Definition resolution_keywords : list jstring :=
  [js "2160p"; js "4k"; js "uhd"; js "1080p"; js "720p"; js "480p"].
Definition source_keywords : list jstring :=
  [js "remux"; js "bluray"; js "bdrip"; js "brrip"; js "web-dl"; js "webdl";
   js "webrip"; js "hdtv"; js "dvdrip"; js "cam"; js "camrip"; js "ts"; js "telesync"].
Definition codec_keywords : list jstring :=
  [js "hevc"; js "h265"; js "x265"; js "h264"; js "x264"; js "avc"; js "av1"].
Definition audio_keywords : list jstring :=
  [js "atmos"; js "truehd"; js "dts-hd"; js "dts-ma"; js "dts"; js "dd5.1";
   js "ac3"; js "aac"].
Definition hdr_tokens : list jstring :=
  [js "hdr"; js "hdr10"; js "dolby vision"; js "dv"].

(** Does the title, in lower case, contain one of the keywords? *)
Definition mentions (title : jstring) (keywords : list jstring) : bool :=
  existsb (fun kw => includes (toLowerCase title) kw) keywords.

(** The state [s] with the cache replaced by [c]. *)
Definition with_cache (c : gmap jstring cache_item) (s : state) : state :=
  State c (clock s) (trace s).

(** A computation that neither reads nor writes the cache. *)
Definition cache_free {A} (m : M A) : Prop :=
  forall s c, m (with_cache c s) = (fst (m s), with_cache c (snd (m s))).

(** A computation that changes the cache under [key] at most. *)
Definition writes_only {A} (key : jstring) (m : M A) : Prop :=
  forall s key', key' <> key -> cache (snd (m s)) !! key' = cache s !! key'.

(** A computation whose result does not depend on the cache. *)
Definition cache_blind {A} (m : M A) : Prop :=
  forall s c, fst (m (with_cache c s)) = fst (m s).

(** *** Sample data for the worked cases *)

Definition listing (hash : string) (n : Z) (q : string) : torrent :=
  Torrent (js "Movie Name 2020") (Some (js hash)) (js "1.4 GB") n (js q) (js "Rutor").

(** Three candidates on which the ranking rule runs in a circle: each is
    within ten seeders of the next and of better quality, while the last
    has sixteen seeders more than the first. *)
Definition cyc_a : torrent := listing "AAAAAAAAAAAAAAAAAAAAAAAAAAAAAAAAAAAAAAAA" 0 "4K".
Definition cyc_b : torrent := listing "BBBBBBBBBBBBBBBBBBBBBBBBBBBBBBBBBBBBBBBB" 8 "HDTV".
Definition cyc_c : torrent := listing "CCCCCCCCCCCCCCCCCCCCCCCCCCCCCCCCCCCCCCCC" 16 "Unknown".

(** Two listings of one release, its hash in lower case from one source
    and in upper case from another. *)
Definition dup_a : torrent :=
  Torrent (js "Movie Name 2020") (Some (js "abcdefabcdefabcdefabcdefabcdefabcdefabcd"))
          (js "1.4 GB") 5 (js "1080p") (js "Rutor").
Definition dup_b : torrent :=
  Torrent (js "Movie Name 2020") (Some (js "ABCDEFABCDEFABCDEFABCDEFABCDEFABCDEFABCD"))
          (js "1.4 GB") 7 (js "1080p") (js "Kinozal").

Definition sample_hash : jstring := js "0123456789abcdef0123456789ABCDEF01234567".

Definition sample_torrent : torrent :=
  Torrent (js "Movie Name 2020 1080p") (Some (toUpperCase sample_hash))
          (js "1.4 GB") 5 (js "1080p") (js "Rutor").

(** Two accounts whose keys agree on their first eight characters. *)
Definition key_a : jstring := js "ABCDEFGH-account-a".
Definition key_b : jstring := js "ABCDEFGH-account-b".

(** A world without Jackett in which Rutor lists [sample_torrent], the
    other trackers time out, and the provider has the torrent cached for
    the account [key_a] only. *)
Definition sample_world : world :=
  {| w_omdb := fun _ _ => Ok (Some (js "Movie Name", js "2020"));
     w_jackett := None;
     w_tracker := fun t _ =>
       match t with
       | Rutor => Ok [sample_torrent]
       | _ => Throw NetworkError
       end;
     w_provider := fun apiKey _ =>
       if bool_decide (apiKey = key_a)
       then ProviderData (Some [[RdFile (Some (js "Movie.Name.2020.mkv")) 1400000000]])
       else ProviderData None;
     w_latency := fun _ => 100%N |}.

Definition empty_state : state := State ∅ 0 [].

(** A world in which Rutor lists two torrents, fewer seeders first, and
    the other two trackers time out. *)
Definition partial_world : world :=
  {| w_omdb := fun _ _ => Ok (Some (js "Movie Name", js "2020"));
     w_jackett := None;
     w_tracker := fun t _ =>
       match t with
       | Rutor => Ok [cyc_a; cyc_b]
       | _ => Throw NetworkError
       end;
     w_provider := fun _ _ => ProviderFault NetworkError;
     w_latency := fun _ => 100%N |}.

Definition movie_params : TorrentSearcher.params :=
  TorrentSearcher.Params (js "movie") (js "Movie Name") (js "2020") None None.

End Props.

Import Props.

(* ================================================================= *)
(** ** Vocabulary of the further properties *)

Module Pipeline.

Import TorrentSearcher.

(** What [getMetadata] hands on: the catalogue's title and year, or two
    empty strings. *)
Definition metadata_of (w : world) (imdbId type : jstring) : jstring * jstring :=
  match w_omdb w imdbId type with
  | Ok (Some m) => m
  | _ => ([], [])
  end.

(** The search parameters of a request. *)
Definition params_of (w : world) (type id : jstring) (season episode : option jsnum)
  : params :=
  let m := metadata_of w (default [] (head (split 58 id))) type in
  Params type (fst m) (snd m) season episode.

(** What Jackett contributes: nothing when it is not configured or its
    request fails. *)
Definition jackett_output (w : world) (p : params) : list torrent :=
  match w_jackett w with
  | Some results =>
      match results (JackettSearcher.searchQuery p) with
      | Ok found => found
      | Throw _ => []
      end
  | None => []
  end.

(** The trackers' results as [TorrentSearcher.search] returns them. *)
Definition tracker_output (w : world) (p : params) : list torrent :=
  array_sort by_seeders
    (adapter_output w (searchQuery p) Rutor
     ++ adapter_output w (searchQuery p) RuTracker
     ++ adapter_output w (searchQuery p) Kinozal).

(** The candidates of a request: Jackett's when it finds any, else the
    trackers'. *)
Definition candidates (w : world) (p : params) : list torrent :=
  if (length (jackett_output w p) =? 0)%nat then tracker_output w p
  else jackett_output w p.

(** The calls of the search stage. *)
Definition search_calls (w : world) (p : params) : list event :=
  match w_jackett w with
  | Some _ => [CallJackett (JackettSearcher.searchQuery p)]
  | None => []
  end
  ++ (if (length (jackett_output w p) =? 0)%nat
      then [CallTracker Rutor (searchQuery p);
            CallTracker RuTracker (searchQuery p);
            CallTracker Kinozal (searchQuery p)]
      else []).

(** The streams of a request whose cache lookup misses. *)
Definition resolved (w : world) (type id apiKey : jstring) : list stream :=
  let se := Addon.parse_episode type id in
  flat_map (emitted w apiKey type (fst se) (snd se))
           (take 15 (candidates w (params_of w type id (fst se) (snd se)))).

(** The calls of a request whose cache lookup misses. *)
Definition miss_calls (w : world) (type id apiKey : jstring) : list event :=
  let se := Addon.parse_episode type id in
  let p := params_of w type id (fst se) (snd se) in
  CallMetadata (default [] (head (split 58 id))) type
  :: search_calls w p ++ map (provider_call apiKey) (take 15 (candidates w p)).

Definition is_provider_call (ev : event) : bool :=
  match ev with
  | CallProvider _ _ => true
  | _ => false
  end.

Definition is_tracker_call (ev : event) : bool :=
  match ev with
  | CallTracker _ _ => true
  | _ => false
  end.

(** The entry under [key] is present and not older than the time to live. *)
Definition fresh_entry (s : state) (key : jstring) (item : cache_item) : Prop :=
  cache s !! key = Some item /\ clock s - timestamp item <= Addon.CACHE_TTL.

(** There is no entry under [key], or it has expired. *)
Definition no_fresh_entry (s : state) (key : jstring) : Prop :=
  match cache s !! key with
  | Some item => Addon.CACHE_TTL < clock s - timestamp item
  | None => True
  end.



(** A label that is not empty and does not start with the letter U. *)
Definition plain_label (v : jstring) : bool :=
  match v with
  | c :: _ => negb (c =? 85)%N
  | [] => false
  end.

(** *** Sample data *)

(** A world in which the provider has a season pack of two episodes
    cached for the account [key_a]. *)
Definition series_world : world :=
  {| w_omdb := fun _ _ => Ok (Some (js "Show", js "2020"));
     w_jackett := None;
     w_tracker := fun t _ =>
       match t with
       | Rutor => Ok [sample_torrent]
       | _ => Throw NetworkError
       end;
     w_provider := fun apiKey _ =>
       if bool_decide (apiKey = key_a)
       then ProviderData (Some [[RdFile (Some (js "Show.S01E01.mkv")) 700000000;
                                 RdFile (Some (js "Show.S01E02.mkv")) 700000000]])
       else ProviderData None;
     w_latency := fun _ => 100%N |}.

(** A world in which Jackett finds [sample_torrent], Rutor would list two
    other torrents, and the provider has everything cached for the account
    [key_a]. *)
Definition jackett_world : world :=
  {| w_omdb := fun _ _ => Ok (Some (js "Movie Name", js "2020"));
     w_jackett := Some (fun _ => Ok [sample_torrent]);
     w_tracker := fun t _ =>
       match t with
       | Rutor => Ok [cyc_a; cyc_b]
       | _ => Throw NetworkError
       end;
     w_provider := fun apiKey _ =>
       if bool_decide (apiKey = key_a)
       then ProviderData (Some [[RdFile (Some (js "Movie.Name.2020.mkv")) 1400000000]])
       else ProviderData None;
     w_latency := fun _ => 100%N |}.

Definition sample_id : jstring := js "tt0111161".
Definition sample_config : option Addon.config := Some (Addon.Config (Some key_a)).

(** The state that the first request of the account [key_a] leaves. *)
Definition state_after_first : state :=
  snd (Addon.streamHandler_part001 sample_world (js "movie") sample_id sample_config
         empty_state).

Definition first_entry : cache_item :=
  CacheItem [Addon.mkStream sample_torrent None] 500.

(** A hit of Jackett and a row of Rutor for [sample_torrent]. *)
Definition sample_magnet : jstring :=
  js "magnet:?xt=urn:btih:0123456789abcdef0123456789ABCDEF01234567&dn=Movie".

Definition sample_item : JackettSearcher.item :=
  JackettSearcher.Item (Some sample_magnet) None (Some (js "Movie Name 2020 1080p"))
                       (Some 1400000000) (Some 5) (Some (js "rutor")).


Definition no_size : option Z -> jstring := fun _ => js "Unknown".

(** The number a run of decimal digits denotes when it is read after a
    prefix of value [a]. *)
Definition decimal_value (a : N) (d : Decimal.uint) : N :=
  match a with
  | 0%N => Pos.of_uint d
  | Npos p => Npos (Pos.of_uint_acc d p)
  end.

(** [Number.isSafeInteger]: the integers below 2^53 in absolute value,
    each of which is a double of its own. *)
Definition safe_integer (z : Z) : Prop := Z.abs z < 2 ^ 53.

(** The id Stremio sends for an episode: [`${imdb}:${season}:${episode}`]. *)
Definition episode_id (imdb : jstring) (season episode : Z) : jstring :=
  imdb ++ js ":" ++ num_toString (Int season) ++ js ":" ++ num_toString (Int episode).

End Pipeline.

Import Pipeline.

(* ================================================================= *)
(** * Properties *)

(** ** Code units below 128 *)

Lemma below_128_table (P : N -> bool) :
  forallb P (map N.of_nat (seq 0%nat 128%nat)) = true ->
  forall c, (c < 128)%N -> P c = true.
Proof.
  intros H c Hc.
  rewrite forallb_forall in H. apply H.
  apply in_map_iff. exists (N.to_nat c). split; [lia|].
  apply in_seq. lia.
Qed.

Lemma below_128_impl (P Q : N -> bool) :
  forallb (fun c => implb (P c) (Q c)) (map N.of_nat (seq 0%nat 128%nat)) = true ->
  forall c, (c < 128)%N -> P c = true -> Q c = true.
Proof.
  intros H c Hc HP.
  apply (below_128_table (fun c => implb (P c) (Q c)) H) in Hc.
  rewrite HP in Hc. exact Hc.
Qed.

Lemma lower_cu_ge_128 c : (128 <= c)%N -> (128 <= lower_cu c)%N.
Proof.
  intros H. unfold lower_cu, in_range.
  repeat match goal with
         | |- context [(?a <=? ?b)%N] => destruct (N.leb_spec a b); simpl
         end; lia.
Qed.

Lemma canonicalize_ge_128 c : (128 <= c)%N -> (128 <= canonicalize c)%N.
Proof.
  intros H. unfold canonicalize.
  destruct (N.leb_spec 128 c); [|lia]. simpl.
  destruct (N.ltb_spec (upper_cu c) 128); lia.
Qed.

(** ** The regular-expression matcher *)

Section MatcherFacts.
Variable ic : bool.

#[local] Arguments cc_match : simpl never.

Lemma cc_match_self c : cc_match ic (CChar c) c = true.
Proof. unfold cc_match. destruct ic; apply N.eqb_refl. Qed.

Lemma run_lit_self p rest prev cap :
  exists prev', run ic (lit p) (MState prev (p ++ rest) cap) = [MState prev' rest cap].
Proof.
  revert prev. induction p as [|c p IH]; intros prev; simpl.
  - eauto.
  - rewrite cc_match_self. simpl. unfold advance. simpl.
    destruct (IH (Some c)) as [prev' ->]. rewrite app_nil_r. eauto.
Qed.

Lemma run_lit_mismatch p ps r c s prev cap :
  cc_match ic (CChar p) c = false ->
  run ic (RCat (lit (p :: ps)) r) (MState prev (c :: s) cap) = [].
Proof. intros H. simpl. rewrite H. reflexivity. Qed.

Lemma exec_from_skip r pre s prev :
  Forall (fun c => forall s' prev', run ic r (MState prev' (c :: s') None) = []) pre ->
  exists prev', exec_from ic r prev (pre ++ s) = exec_from ic r prev' s.
Proof.
  intros H. revert prev. induction H as [|c pre Hc _ IH]; intros prev; simpl.
  - eauto.
  - rewrite Hc. apply IH.
Qed.

Lemma exec_from_Some r prev s st :
  exec_from ic r prev s = Some st ->
  exists prev' s', In st (run ic r (MState prev' s' None)).
Proof.
  revert prev. induction s as [|c s IH]; intros prev; simpl.
  - destruct (run ic r (MState prev [] None)) eqn:E; [discriminate|].
    intros [= ->]. exists prev, []. rewrite E. left. reflexivity.
  - destruct (run ic r (MState prev (c :: s) None)) eqn:E.
    + apply IH.
    + intros [= ->]. exists prev, (c :: s). rewrite E. left. reflexivity.
Qed.

Lemma repeat_run_app cc pre rest st :
  Forall (fun c => cc_match ic cc c = true) pre ->
  exists prev', repeat_run ic cc (length pre) st (pre ++ rest) = [MState prev' rest (m_cap st)].
Proof.
  intros H. revert st. induction H as [|c pre Hc _ IH]; intros st; simpl.
  - eauto.
  - rewrite Hc. destruct (IH (advance st c (pre ++ rest))) as [p' ->]. simpl. eauto.
Qed.

Lemma repeat_run_spec cc n st s st' :
  In st' (repeat_run ic cc n st s) ->
  exists pre, s = pre ++ m_rest st' /\ length pre = n
              /\ Forall (fun c => cc_match ic cc c = true) pre.
Proof.
  revert st s. induction n as [|n IH]; intros st s; simpl.
  - intros [<-|[]]. exists []. simpl. auto.
  - destruct s as [|c s]; [intros []|].
    destruct (cc_match ic cc c) eqn:E; [|intros []].
    intros H. apply IH in H as (pre & -> & Hl & Hf).
    exists (c :: pre). simpl. repeat split; auto.
Qed.

End MatcherFacts.

Lemma exec_from_hit ic r prev s st l :
  run ic r (MState prev s None) = st :: l -> exec_from ic r prev s = Some st.
Proof. intros H. destruct s; simpl; rewrite H; reflexivity. Qed.

(** ** Info hashes and magnet links *)

Import TorrentUtils.

Lemma is_hex_below_128 c : is_hex c = true -> (c < 128)%N.
Proof.
  unfold is_hex, in_range. intros H.
  destruct (N.ltb_spec c 128) as [|Hge]; [assumption|exfalso].
  repeat match type of H with
         | context [(?a <=? ?b)%N] => destruct (N.leb_spec a b); simpl in H
         end; try discriminate; lia.
Qed.

Lemma in_range_above lo hi x : (hi < x)%N -> in_range lo hi x = false.
Proof.
  intros H. unfold in_range. destruct (N.leb_spec x hi); [lia|].
  apply andb_false_r.
Qed.

Lemma item_match_ge_128 lo hi c :
  (hi < 128)%N -> (128 <= c)%N -> item_match true (IRange lo hi) c = false.
Proof.
  intros Hhi Hc. unfold item_match.
  pose proof (canonicalize_ge_128 c Hc). pose proof (lower_cu_ge_128 c Hc).
  rewrite !in_range_above by lia. reflexivity.
Qed.

Lemma hex_class_ge_128 c : (128 <= c)%N -> cc_match true hex_class c = false.
Proof.
  intros Hc. unfold cc_match, hex_class. cbn [existsb xorb].
  rewrite !item_match_ge_128 by (assumption || lia). reflexivity.
Qed.

(** What the class accepts is a hexadecimal digit once upper-cased. *)
Lemma hex_class_sound c :
  cc_match true hex_class c = true -> is_upper_hex (upper_cu c) = true.
Proof.
  intros H. destruct (N.ltb_spec c 128) as [Hlt|Hge].
  - revert c Hlt H.
    apply (below_128_impl (cc_match true hex_class)
                          (fun c => is_upper_hex (upper_cu c))).
    vm_compute. reflexivity.
  - rewrite hex_class_ge_128 in H by assumption. discriminate.
Qed.

(** An upper-cased hexadecimal digit is accepted by the class. *)
Lemma hex_class_complete c :
  is_hex c = true -> cc_match true hex_class (upper_cu c) = true.
Proof.
  intros H. pose proof (is_hex_below_128 c H) as Hlt. revert c Hlt H.
  apply (below_128_impl is_hex (fun c => cc_match true hex_class (upper_cu c))).
  vm_compute. reflexivity.
Qed.

Lemma is_upper_hex_is_hex c : is_upper_hex c = true -> is_hex c = true.
Proof.
  unfold is_hex, is_upper_hex. intros H.
  apply orb_true_iff in H as [->| ->]; rewrite ?orb_true_r; reflexivity.
Qed.

Lemma is_hex_upper c : is_hex c = true -> is_upper_hex (upper_cu c) = true.
Proof.
  intros H. pose proof (is_hex_below_128 c H) as Hlt. revert c Hlt H.
  apply (below_128_impl is_hex (fun c => is_upper_hex (upper_cu c))).
  vm_compute. reflexivity.
Qed.

Lemma upper_hex_idempotent c : is_upper_hex c = true -> upper_cu c = c.
Proof.
  intros H.
  pose proof (is_hex_below_128 c (is_upper_hex_is_hex c H)) as Hlt.
  apply N.eqb_eq. revert c Hlt H.
  apply (below_128_impl is_upper_hex (fun c => (upper_cu c =? c)%N)).
  vm_compute. reflexivity.
Qed.

(** In a text that starts with the magnet scheme and forty accepted
    characters, the pattern captures exactly those. *)
Lemma exec_infoHash_magnet (H rest : jstring) :
  Forall (fun c => cc_match true hex_class c = true) H ->
  length H = 40%nat ->
  exists st, exec true infoHash_re (js "magnet:?xt=urn:btih:" ++ H ++ rest) = Some st
             /\ m_cap st = Some H.
Proof.
  intros HH Hlen. unfold exec.
  change (js "magnet:?xt=urn:btih:") with (js "magnet:?xt=urn:" ++ js "btih:").
  rewrite <- app_assoc.
  destruct (exec_from_skip true infoHash_re (js "magnet:?xt=urn:")
              (js "btih:" ++ H ++ rest) None) as [prev' ->].
  { repeat constructor; intros;
      apply (run_lit_mismatch true 98%N (js "tih:")); reflexivity. }
  destruct (run_lit_self true (js "btih:") (H ++ rest) prev' None) as [p1 E1].
  destruct (repeat_run_app true hex_class H rest (MState p1 (H ++ rest) None) HH)
    as [p2 E2].
  eexists. split.
  - eapply exec_from_hit. unfold infoHash_re.
    cbn [run]. rewrite E1. cbn [flat_map m_rest]. rewrite <- Hlen, E2.
    cbn [map app m_rest m_prev]. reflexivity.
  - cbn [m_cap]. f_equal. rewrite length_app, Nat.add_sub.
    apply take_app_length.
Qed.

Lemma uri_unescaped_below_128 c : uri_unescaped c = true -> (c < 128)%N.
Proof.
  intros H. destruct (N.ltb_spec c 128) as [|Hge]; [assumption|exfalso].
  unfold uri_unescaped, is_digit in H.
  rewrite !in_range_above in H by lia.
  cbn in H.
  repeat match type of H with
         | context [(c =? ?k)%N] => destruct (N.eqb_spec c k); [lia|]
         end.
  discriminate.
Qed.

Lemma uri_unescaped_not_surrogate c :
  uri_unescaped c = true -> is_low_surrogate c = false /\ is_high_surrogate c = false.
Proof.
  intros H%uri_unescaped_below_128.
  unfold is_low_surrogate, is_high_surrogate, in_range.
  destruct (N.leb_spec 0xDC00 c); [lia|].
  destruct (N.leb_spec 0xD800 c); [lia|]. auto.
Qed.

(** [encodeURIComponent] returns on every well-formed string. *)
Lemma encodeURIComponent_well_formed s :
  well_formed s = true -> exists r, encodeURIComponent s = Ok r.
Proof.
  remember (length s) as n eqn:Hn.
  revert s Hn. induction n as [n IH] using lt_wf_ind. intros s Hn.
  destruct s as [|c s]; [eauto|]. intros Hwf.
  cbn [encodeURIComponent well_formed] in *.
  destruct (uri_unescaped c) eqn:Hu.
  - apply uri_unescaped_not_surrogate in Hu as [Hl Hh]. rewrite Hl, Hh in Hwf.
    destruct (IH (length s)) with (s := s) as [r ->];
      [simpl in Hn; lia | reflexivity | assumption |]. simpl. eauto.
  - destruct (is_low_surrogate c); [discriminate|].
    destruct (is_high_surrogate c).
    + destruct s as [|d s]; [discriminate|].
      apply andb_true_iff in Hwf as [-> Hwf].
      destruct (IH (length s)) with (s := s) as [r ->];
        [simpl in Hn; lia | reflexivity | assumption |]. simpl. eauto.
    + destruct (IH (length s)) with (s := s) as [r ->];
        [simpl in Hn; lia | reflexivity | assumption |]. simpl. eauto.
Qed.

Lemma append_trackers_shape magnet trackers m :
  append_trackers magnet trackers = Ok m -> exists tail, m = magnet ++ tail.
Proof.
  revert magnet. induction trackers as [|t ts IH]; intros magnet; simpl.
  - intros [= <-]. exists []. rewrite app_nil_r. reflexivity.
  - destruct (encodeURIComponent t) as [e|]; [|discriminate]. simpl.
    intros (tail & ->)%IH. rewrite <- !app_assoc. eauto.
Qed.

Lemma append_trackers_returns magnet trackers :
  forallb well_formed trackers = true ->
  exists m, append_trackers magnet trackers = Ok m.
Proof.
  revert magnet. induction trackers as [|t ts IH]; intros magnet; simpl.
  - eauto.
  - intros [Ht Hts]%andb_true_iff.
    destruct (encodeURIComponent_well_formed t Ht) as [e ->]. simpl. auto.
Qed.

(** Whatever [createMagnetLink] returns starts with the scheme and the
    upper-cased hash. *)
Lemma createMagnetLink_shape h name trackers m :
  createMagnetLink h name trackers = Ok m ->
  exists tail, m = js "magnet:?xt=urn:btih:" ++ toUpperCase h ++ tail.
Proof.
  unfold createMagnetLink.
  destruct (truthy name).
  - destruct (encodeURIComponent (default [] name)) as [e|]; [|discriminate].
    cbn [rbind]. intros (tail & ->)%append_trackers_shape.
    rewrite <- !app_assoc. eauto.
  - cbn [rbind]. intros (tail & ->)%append_trackers_shape.
    rewrite <- !app_assoc. eauto.
Qed.

Lemma createMagnetLink_returns h name trackers :
  well_formed_opt name = true -> forallb well_formed trackers = true ->
  exists m, createMagnetLink h name trackers = Ok m.
Proof.
  intros Hn Ht. unfold createMagnetLink.
  assert (Hall : forallb well_formed (defaultTrackers ++ trackers) = true).
  { rewrite forallb_app, Ht. reflexivity. }
  destruct (truthy name) eqn:E.
  - destruct name as [s|]; [|discriminate]. simpl in Hn.
    destruct (encodeURIComponent_well_formed s Hn) as [e He].
    change (default [] (Some s)) with s. rewrite He. cbn [rbind].
    apply append_trackers_returns, Hall.
  - cbn [rbind]. apply append_trackers_returns, Hall.
Qed.

Lemma hex40_upper h :
  hex40 h = true ->
  length (toUpperCase h) = 40%nat
  /\ Forall (fun c => cc_match true hex_class c = true) (toUpperCase h).
Proof.
  unfold hex40, toUpperCase. intros [Hl Hf]%andb_true_iff.
  apply Nat.eqb_eq in Hl. split; [rewrite length_map; exact Hl|].
  rewrite forallb_forall in Hf.
  apply List.Forall_forall. intros c (x & <- & Hx)%in_map_iff.
  apply hex_class_complete, Hf, Hx.
Qed.

Lemma extractInfoHash_magnet h tail :
  hex40 h = true ->
  extractInfoHash (Some (js "magnet:?xt=urn:btih:" ++ toUpperCase h ++ tail))
  = Some (toUpperCase h).
Proof.
  intros Hhex. destruct (hex40_upper h Hhex) as [Hl Hf].
  destruct (exec_infoHash_magnet (toUpperCase h) tail Hf Hl) as (st & E & Hcap).
  unfold extractInfoHash.
  replace (truthy (Some (js "magnet:?xt=urn:btih:" ++ toUpperCase h ++ tail)))
    with true by reflexivity.
  cbn [negb].
  change (default [] (Some ?m)) with m.
  rewrite E. unfold group1. rewrite Hcap.
  change (default [] (Some ?m)) with m.
  f_equal. unfold toUpperCase. rewrite List.map_map.
  apply List.map_ext_in. intros c Hc. apply upper_hex_idempotent, is_hex_upper.
  apply andb_true_iff in Hhex as [_ Hall].
  rewrite forallb_forall in Hall. apply Hall, Hc.
Qed.

(** Whatever [extractInfoHash] returns is forty upper-case hexadecimal
    digits. *)
Lemma extractInfoHash_shape magnet x :
  extractInfoHash magnet = Some x -> upper_hex40 x = true.
Proof.
  unfold extractInfoHash. destruct (truthy magnet); [|discriminate].
  cbn [negb]. unfold exec.
  destruct (exec_from true infoHash_re None (default [] magnet)) as [st|] eqn:E;
    [|discriminate].
  intros [= <-].
  apply exec_from_Some in E as (prev & s & Hin).
  unfold infoHash_re in Hin. cbn [run] in Hin.
  apply in_flat_map in Hin as (st1 & _ & Hin).
  apply in_map_iff in Hin as (st2 & <- & Hin).
  apply repeat_run_spec in Hin as (pre & Hs & Hl & Hf).
  unfold group1. cbn [m_cap]. change (default [] (Some ?m)) with m.
  rewrite Hs, length_app, Nat.add_sub, take_app_length.
  unfold upper_hex40, toUpperCase. rewrite length_map, Hl. cbn [Nat.eqb andb].
  apply forallb_forall. intros c (y & <- & Hy)%in_map_iff.
  rewrite List.Forall_forall in Hf. apply hex_class_sound, Hf, Hy.
Qed.

(** C10 (as amended).  For every forty-character hexadecimal [h] and every
    display name and tracker list that are well-formed UTF-16,
    [createMagnetLink] returns a link and [extractInfoHash] reads [h]
    upper-cased from it; the same holds of whatever link [createMagnetLink]
    returns; and on every input [extractInfoHash] returns [null] or forty
    upper-case hexadecimal digits. *)
Theorem C10_magnet_link_round_trip :
  (forall h name trackers,
      hex40 h = true ->
      well_formed_opt name = true ->
      forallb well_formed trackers = true ->
      exists m, createMagnetLink h name trackers = Ok m
                /\ extractInfoHash (Some m) = Some (toUpperCase h))
  /\ (forall h name trackers m,
         hex40 h = true ->
         createMagnetLink h name trackers = Ok m ->
         extractInfoHash (Some m) = Some (toUpperCase h))
  /\ (forall magnet,
         extractInfoHash magnet = None
         \/ exists x, extractInfoHash magnet = Some x /\ upper_hex40 x = true).
Proof.
  assert (Hany : forall h name trackers m,
             hex40 h = true ->
             createMagnetLink h name trackers = Ok m ->
             extractInfoHash (Some m) = Some (toUpperCase h)).
  { intros h name trackers m Hh Hm.
    apply createMagnetLink_shape in Hm as (tail & ->).
    apply extractInfoHash_magnet, Hh. }
  split; [|split].
  - intros h name trackers Hh Hn Ht.
    destruct (createMagnetLink_returns h name trackers Hn Ht) as [m Hm].
    exists m. split; [exact Hm|]. eapply Hany; eassumption.
  - exact Hany.
  - intros magnet. destruct (extractInfoHash magnet) as [x|] eqn:E; [right|left; reflexivity].
    exists x. split; [reflexivity|]. eapply extractInfoHash_shape, E.
Qed.

Lemma C10_magnet_link_round_trip_witness :
  exists m,
    createMagnetLink sample_hash (Some (js "Movie Name (2020)"))
                     [js "udp://tracker.example.org:6969/announce"] = Ok m
    /\ extractInfoHash (Some m) = Some (toUpperCase sample_hash).
Proof.
  apply (proj1 C10_magnet_link_round_trip); reflexivity.
Defined.

(** C10, as stated, fails: a display name that holds a lone surrogate makes
    [encodeURIComponent], and with it [createMagnetLink], throw. *)
Lemma C10_counterexample_lone_surrogate :
  hex40 sample_hash = true
  /\ createMagnetLink sample_hash (Some [0xD800%N]) [] = Throw URIError.
Proof. split; reflexivity. Qed.

(** ** The result cache *)

Import Addon.

Lemma cacheKey_prefix id k1 k2 :
  cacheKey id k1 = cacheKey id k2 -> substring0 8 k1 = substring0 8 k2.
Proof.
  unfold cacheKey. intros H.
  repeat apply app_inv_head in H. exact H.
Qed.

Lemma getCache_lookup key s s' :
  cache s' !! key = cache s !! key -> clock s' = clock s ->
  fst (getCache key s') = fst (getCache key s).
Proof.
  intros Hc Ht. unfold getCache. rewrite Hc, Ht.
  destruct (cache s !! key) as [item|]; [|reflexivity].
  destruct (clock s - timestamp item >? CACHE_TTL); reflexivity.
Qed.

(** Everything between the lookup and the store leaves the cache alone. *)
Section CacheFrame.

Lemma with_cache_with_cache c c' s : with_cache c (with_cache c' s) = with_cache c s.
Proof. reflexivity. Qed.

Lemma cache_free_ret {A} (a : A) : cache_free (ret a).
Proof. intros s c. reflexivity. Qed.

Lemma cache_free_lift {A} (r : result A) : cache_free (lift r).
Proof. intros s c. reflexivity. Qed.

Lemma cache_free_call w ev : cache_free (call w ev).
Proof. intros s c. reflexivity. Qed.

Lemma cache_free_bind {A B} (m : M A) (k : A -> M B) :
  cache_free m -> (forall a, cache_free (k a)) -> cache_free (bind m k).
Proof.
  intros Hm Hk s c. unfold bind. rewrite Hm.
  destruct (m s) as [[a|e] s1]; cbn [fst snd]; [apply Hk | reflexivity].
Qed.

Lemma cache_free_try_catch {A} (m : M A) (h : error -> M A) :
  cache_free m -> (forall e, cache_free (h e)) -> cache_free (try_catch m h).
Proof.
  intros Hm Hh s c. unfold try_catch. rewrite Hm.
  destruct (m s) as [[a|e] s1]; cbn [fst snd]; [reflexivity | apply Hh].
Qed.

Lemma cache_blind_bind {A B} (m : M A) (k : A -> M B) :
  cache_free m -> (forall a, cache_blind (k a)) -> cache_blind (bind m k).
Proof.
  intros Hm Hk s c. unfold bind. rewrite Hm.
  destruct (m s) as [[a|e] s1]; cbn [fst snd]; [apply Hk | reflexivity].
Qed.

Lemma cache_free_getMetadata w imdbId type : cache_free (getMetadata w imdbId type).
Proof.
  apply cache_free_bind; [apply cache_free_call | intros; apply cache_free_ret].
Qed.

Lemma cache_free_jackett w results p : cache_free (JackettSearcher.search w results p).
Proof.
  apply cache_free_bind; [apply cache_free_call | intros; apply cache_free_ret].
Qed.

Lemma cache_free_allSettled w query ts : cache_free (TorrentSearcher.allSettled w query ts).
Proof.
  induction ts as [|t ts IH]; cbn [TorrentSearcher.allSettled].
  - apply cache_free_ret.
  - apply cache_free_bind.
    + apply cache_free_bind; [apply cache_free_call | intros; apply cache_free_ret].
    + intros r. apply cache_free_bind; [exact IH | intros; apply cache_free_ret].
Qed.

Lemma cache_free_search w p : cache_free (TorrentSearcher.search w p).
Proof.
  apply cache_free_bind; [apply cache_free_allSettled | intros; apply cache_free_ret].
Qed.

Lemma cache_free_resolve_loop w apiKey type season episode torrents :
  forall streams, cache_free (resolve_loop w apiKey type season episode torrents streams).
Proof.
  induction torrents as [|t rest IH]; intros streams; cbn [resolve_loop].
  - apply cache_free_ret.
  - apply cache_free_bind; [|intros; apply IH].
    apply cache_free_try_catch; [|intros; apply cache_free_ret].
    apply cache_free_bind.
    + apply cache_free_bind; [apply cache_free_call | intros; apply cache_free_ret].
    + intros rdInfo. destruct (RealDebridClient.available rdInfo); [|apply cache_free_ret].
      apply cache_free_bind; [|intros; apply cache_free_ret].
      destruct (RealDebridClient.files rdInfo); [|apply cache_free_ret].
      destruct (is_series type); [apply cache_free_lift | apply cache_free_ret].
Qed.

(** Once the lookup has missed, the answer does not depend on the cache. *)
Lemma cache_blind_resolve_miss w type id apiKey season episode :
  cache_blind (resolve_miss w type id apiKey season episode).
Proof.
  unfold resolve_miss.
  apply cache_blind_bind; [apply cache_free_getMetadata|]. intros metadata.
  apply cache_blind_bind.
  { destruct (w_jackett w); [apply cache_free_jackett | apply cache_free_ret]. }
  intros torrents. apply cache_blind_bind.
  { destruct (length torrents =? 0)%nat; [apply cache_free_search | apply cache_free_ret]. }
  intros torrents'. apply cache_blind_bind; [apply cache_free_resolve_loop|].
  intros streams s c. unfold bind.
  destruct (0 <? length streams)%nat; reflexivity.
Qed.

Lemma resolve_reads_own_key w type id apiKey s c :
  c !! cacheKey id apiKey = cache s !! cacheKey id apiKey ->
  fst (resolve w type id (Some (Config (Some apiKey))) (with_cache c s))
  = fst (resolve w type id (Some (Config (Some apiKey))) s).
Proof.
  intros Hc. unfold resolve, bind, lift, read_rdApiKey, getCache.
  cbn [rdApiKey with_cache cache clock trace]. rewrite Hc.
  destruct (cache s !! cacheKey id apiKey) as [item|].
  - destruct (clock s - timestamp item >? CACHE_TTL); [|reflexivity].
    exact (cache_blind_resolve_miss w type id apiKey _ _
             (State (delete (cacheKey id apiKey) (cache s)) (clock s) (trace s))
             (delete (cacheKey id apiKey) c)).
  - exact (cache_blind_resolve_miss w type id apiKey _ _ s c).
Qed.

(** The handler's answer depends on the cache through the entry under the
    request's own key only. *)
Lemma streamHandler_reads_own_key w type id apiKey s c :
  c !! cacheKey id apiKey = cache s !! cacheKey id apiKey ->
  fst (streamHandler_part001 w type id (Some (Config (Some apiKey))) (with_cache c s))
  = fst (streamHandler_part001 w type id (Some (Config (Some apiKey))) s).
Proof.
  intros Hc. unfold streamHandler_part001, try_catch.
  destruct (has_credential (Some (Config (Some apiKey)))); cbn [negb]; [|reflexivity].
  pose proof (resolve_reads_own_key w type id apiKey s c Hc) as H.
  destruct (resolve w type id (Some (Config (Some apiKey))) (with_cache c s)) as [[r1|e1] s1],
           (resolve w type id (Some (Config (Some apiKey))) s) as [[r2|e2] s2];
    unfold ret; cbn [fst] in H |- *; congruence.
Qed.

Lemma with_cache_same s : with_cache (cache s) s = s.
Proof. destruct s. reflexivity. Qed.

Lemma cache_free_writes_only {A} key (m : M A) : cache_free m -> writes_only key m.
Proof.
  intros Hm s key' _. specialize (Hm s (cache s)).
  rewrite with_cache_same in Hm. rewrite Hm at 1. reflexivity.
Qed.

Lemma writes_only_bind {A B} key (m : M A) (k : A -> M B) :
  writes_only key m -> (forall a, writes_only key (k a)) -> writes_only key (bind m k).
Proof.
  intros Hm Hk s key' Hne. unfold bind. specialize (Hm s key' Hne).
  destruct (m s) as [[a|e] s1]; cbn [snd] in *.
  - rewrite (Hk a s1 key' Hne). exact Hm.
  - exact Hm.
Qed.

Lemma writes_only_getCache key : writes_only key (getCache key).
Proof.
  intros s key' Hne. unfold getCache.
  destruct (cache s !! key) as [item|]; [|reflexivity].
  destruct (clock s - timestamp item >? CACHE_TTL); [|reflexivity].
  cbn [snd cache]. apply lookup_delete_ne. congruence.
Qed.

Lemma writes_only_setCache key streams : writes_only key (setCache key streams).
Proof.
  intros s key' Hne. cbn [setCache snd cache]. apply lookup_insert_ne. congruence.
Qed.

Lemma writes_only_resolve_miss w type id apiKey season episode :
  writes_only (cacheKey id apiKey) (resolve_miss w type id apiKey season episode).
Proof.
  unfold resolve_miss.
  apply writes_only_bind; [apply cache_free_writes_only, cache_free_getMetadata|].
  intros metadata. apply writes_only_bind.
  { apply cache_free_writes_only.
    destruct (w_jackett w); [apply cache_free_jackett | apply cache_free_ret]. }
  intros torrents. apply writes_only_bind.
  { apply cache_free_writes_only.
    destruct (length torrents =? 0)%nat; [apply cache_free_search | apply cache_free_ret]. }
  intros torrents'.
  apply writes_only_bind; [apply cache_free_writes_only, cache_free_resolve_loop|].
  intros streams. apply writes_only_bind.
  - destruct (0 <? length streams)%nat;
      [apply writes_only_setCache | apply cache_free_writes_only, cache_free_ret].
  - intros _. apply cache_free_writes_only, cache_free_ret.
Qed.

(** A request changes the cache under its own key at most. *)
Lemma streamHandler_writes_own_key w type id apiKey :
  writes_only (cacheKey id apiKey)
              (streamHandler_part001 w type id (Some (Config (Some apiKey)))).
Proof.
  intros s key' Hne. unfold streamHandler_part001, try_catch.
  destruct (has_credential (Some (Config (Some apiKey)))); cbn [negb]; [|reflexivity].
  assert (H : writes_only (cacheKey id apiKey)
                          (resolve w type id (Some (Config (Some apiKey))))).
  { intros s0 key0 Hne0. unfold resolve. unfold bind at 1.
    cbn [lift read_rdApiKey rdApiKey].
    revert s0 key0 Hne0.
    refine (writes_only_bind _ _ _ (writes_only_getCache _) _).
    intros [streams|].
    - apply cache_free_writes_only, cache_free_ret.
    - apply writes_only_resolve_miss. }
  specialize (H s key' Hne).
  destruct (resolve w type id (Some (Config (Some apiKey))) s) as [[r|e] s1];
    cbn [snd] in H |- *; exact H.
Qed.

End CacheFrame.

(** ** Deduplication *)

Section RemoveDuplicates.

Lemma hash_key_truthy t :
  truthy (infoHash t) = true ->
  hash_key t = Some (toUpperCase (default [] (infoHash t))).
Proof. intros H. unfold hash_key. rewrite H. reflexivity. Qed.

Lemma hash_key_falsy t : truthy (infoHash t) = false -> hash_key t = None.
Proof. intros H. unfold hash_key. rewrite H. reflexivity. Qed.

Lemma omap_key_cons t l :
  omap hash_key (t :: l)
  = match hash_key t with
    | Some k => k :: omap hash_key l
    | None => omap hash_key l
    end.
Proof. reflexivity. Qed.

Lemma removeDuplicates_from_keys seen torrents k :
  In k (omap hash_key (removeDuplicates_from seen torrents)) -> k ∉ seen.
Proof.
  revert seen. induction torrents as [|t rest IH]; intros seen; cbn [removeDuplicates_from].
  - intros [].
  - destruct (truthy (infoHash t)) eqn:Et; cbn [negb].
    + destruct (decide (toUpperCase (default [] (infoHash t)) ∈ seen)) as [Hin|Hout].
      * apply IH.
      * rewrite omap_key_cons, (hash_key_truthy t Et).
        intros [<-|Hk]; [exact Hout|].
        apply IH in Hk. set_solver.
    + rewrite omap_key_cons, (hash_key_falsy t Et). apply IH.
Qed.

Lemma removeDuplicates_from_NoDup seen torrents :
  NoDup (omap hash_key (removeDuplicates_from seen torrents)).
Proof.
  revert seen. induction torrents as [|t rest IH]; intros seen; cbn [removeDuplicates_from].
  - constructor.
  - destruct (truthy (infoHash t)) eqn:Et; cbn [negb].
    + destruct (decide (toUpperCase (default [] (infoHash t)) ∈ seen)) as [Hin|Hout].
      * apply IH.
      * rewrite omap_key_cons, (hash_key_truthy t Et).
        apply NoDup_cons. split; [|apply IH].
        intros Hk. apply list_elem_of_In, removeDuplicates_from_keys in Hk. set_solver.
    + rewrite omap_key_cons, (hash_key_falsy t Et). apply IH.
Qed.

Lemma removeDuplicates_from_sublist seen torrents :
  sublist (removeDuplicates_from seen torrents) torrents.
Proof.
  revert seen. induction torrents as [|t rest IH]; intros seen; cbn [removeDuplicates_from].
  - constructor.
  - destruct (negb (truthy (infoHash t))); [constructor; apply IH|].
    destruct (decide _); [apply sublist_cons|apply sublist_skip]; apply IH.
Qed.

Lemma has_key_truthy k t :
  truthy (infoHash t) = true ->
  has_key k t = bool_decide (toUpperCase (default [] (infoHash t)) = k).
Proof.
  intros H. unfold has_key. rewrite (hash_key_truthy t H).
  apply bool_decide_ext. split; [intros [= E]; exact E | intros ->; reflexivity].
Qed.

Lemma has_key_falsy k t : truthy (infoHash t) = false -> has_key k t = false.
Proof.
  intros H. unfold has_key. rewrite (hash_key_falsy t H).
  apply bool_decide_eq_false_2. discriminate.
Qed.

Lemma removeDuplicates_from_first seen torrents k :
  k ∉ seen ->
  find (has_key k) (removeDuplicates_from seen torrents) = find (has_key k) torrents.
Proof.
  revert seen. induction torrents as [|t rest IH]; intros seen Hk;
    cbn [removeDuplicates_from find]; [reflexivity|].
  destruct (truthy (infoHash t)) eqn:Et; cbn [negb].
  - rewrite (has_key_truthy k t Et).
    destruct (decide (toUpperCase (default [] (infoHash t)) ∈ seen)) as [Hin|Hout].
    + rewrite bool_decide_eq_false_2 by (intros E; apply Hk; rewrite <- E; exact Hin).
      apply IH, Hk.
    + cbn [find]. rewrite (has_key_truthy k t Et).
      case_bool_decide as E; [reflexivity|].
      apply IH. rewrite elem_of_union, elem_of_singleton.
      intros [Heq|Hin]; [apply E; symmetry; exact Heq | apply Hk, Hin].
  - cbn [find]. rewrite (has_key_falsy k t Et). apply IH, Hk.
Qed.

Lemma removeDuplicates_from_keeps_blank seen torrents :
  List.filter no_key (removeDuplicates_from seen torrents) = List.filter no_key torrents.
Proof.
  revert seen. induction torrents as [|t rest IH]; intros seen;
    cbn [removeDuplicates_from List.filter]; [reflexivity|].
  destruct (truthy (infoHash t)) eqn:Et; cbn [negb].
  - assert (Hn : no_key t = false).
    { unfold no_key. rewrite (hash_key_truthy t Et).
      apply bool_decide_eq_false_2. discriminate. }
    rewrite Hn.
    destruct (decide _); [apply IH|].
    cbn [List.filter]. rewrite Hn. apply IH.
  - assert (Hn : no_key t = true).
    { unfold no_key. rewrite (hash_key_falsy t Et).
      apply bool_decide_eq_true_2. reflexivity. }
    cbn [List.filter]. rewrite Hn. f_equal. apply IH.
Qed.

End RemoveDuplicates.

(** On candidates that have a hash, the key is the normalized hash. *)
Lemma omap_hash_key_normalized (l : list torrent) :
  Forall (fun t => has_hash t = true) l -> omap hash_key l = map normalized_hash l.
Proof.
  induction 1 as [|t l Ht _ IH]; [reflexivity|].
  rewrite omap_key_cons, (hash_key_truthy t Ht), IH. reflexivity.
Qed.

Lemma find_has_key_normalized (k : jstring) (l : list torrent) :
  Forall (fun t => has_hash t = true) l ->
  find (has_key k) l = find (fun u => bool_decide (normalized_hash u = k)) l.
Proof.
  induction 1 as [|t l Ht _ IH]; [reflexivity|].
  cbn [find]. rewrite (has_key_truthy k t Ht), IH. reflexivity.
Qed.

(** In a list without two entries of the same key, the first entry with a
    key is the only one. *)
Lemma filter_first_only {A B} `{EqDecision B} (f : A -> B) (k : B) (l : list A) (y : A) :
  NoDup (map f l) ->
  find (fun u => bool_decide (f u = k)) l = Some y ->
  List.filter (fun u => bool_decide (f u = k)) l = [y].
Proof.
  induction l as [|x l IH]; cbn [map find List.filter]; [discriminate|].
  intros [Hx Hl]%NoDup_cons. case_bool_decide as E.
  - intros [= ->]. f_equal.
    clear IH Hl. induction l as [|z l IH]; [reflexivity|].
    cbn [map] in Hx. apply not_elem_of_cons in Hx as [Hz Hx].
    cbn [List.filter]. rewrite bool_decide_eq_false_2 by congruence.
    apply IH, Hx.
  - apply IH, Hl.
Qed.

(** C4.  For every list of candidates, each with its identity hash, the
    deduplicated output is a sub-list of the input in which no two entries
    have the same hash after upper-casing; and for each hash of the input
    exactly one entry is kept, the first one of the input that has this
    hash, whatever its source. *)
Theorem C4_removeDuplicates_first_seen (torrents : list torrent) :
  Forall (fun t => has_hash t = true) torrents ->
  NoDup (map normalized_hash (removeDuplicates torrents))
  /\ sublist (removeDuplicates torrents) torrents
  /\ (forall t, In t torrents ->
        exists first,
          find (fun u => bool_decide (normalized_hash u = normalized_hash t)) torrents
          = Some first
          /\ List.filter (fun u => bool_decide (normalized_hash u = normalized_hash t))
                         (removeDuplicates torrents) = [first]).
Proof.
  intros Hall.
  assert (Hsub : sublist (removeDuplicates torrents) torrents)
    by apply removeDuplicates_from_sublist.
  assert (Hout : Forall (fun t => has_hash t = true) (removeDuplicates torrents)).
  { apply Forall_forall. intros u Hu.
    apply (proj1 (Forall_forall _ _) Hall).
    eapply sublist_submseteq, elem_of_submseteq in Hsub; [exact Hsub | exact Hu]. }
  assert (Hnodup : NoDup (map normalized_hash (removeDuplicates torrents))).
  { rewrite <- (omap_hash_key_normalized _ Hout). apply removeDuplicates_from_NoDup. }
  split; [exact Hnodup|]. split; [exact Hsub|].
  intros t Ht.
  destruct (find (fun u => bool_decide (normalized_hash u = normalized_hash t)) torrents)
    as [first|] eqn:E.
  - exists first. split; [reflexivity|].
    apply filter_first_only; [exact Hnodup|].
    rewrite <- (find_has_key_normalized _ _ Hout).
    unfold removeDuplicates. rewrite removeDuplicates_from_first by set_solver.
    rewrite (find_has_key_normalized _ _ Hall). exact E.
  - apply (find_none _ _ E) in Ht.
    rewrite bool_decide_eq_true_2 in Ht by reflexivity. discriminate Ht.
Qed.

Lemma C4_removeDuplicates_first_seen_witness :
  Forall (fun t => has_hash t = true) [dup_a; cyc_a; dup_b]
  /\ NoDup (map normalized_hash (removeDuplicates [dup_a; cyc_a; dup_b]))
  /\ normalized_hash dup_a = normalized_hash dup_b
  /\ removeDuplicates [dup_a; cyc_a; dup_b] = [dup_a; cyc_a].
Proof.
  assert (H : Forall (fun t => has_hash t = true) [dup_a; cyc_a; dup_b])
    by (repeat constructor).
  split; [exact H|].
  split; [exact (proj1 (C4_removeDuplicates_first_seen _ H))|].
  split; vm_compute; reflexivity.
Defined.

(** ** Sorting and ranking *)

Section SortFacts.
Context {A : Type} (compare : A -> A -> Z).

Lemma insert_sorted_perm x l : Permutation (insert_sorted compare x l) (x :: l).
Proof.
  induction l as [|y l IH]; cbn [insert_sorted]; [reflexivity|].
  destruct (compare x y <=? 0); [reflexivity|].
  rewrite IH. apply perm_swap.
Qed.

Lemma array_sort_perm l : Permutation (array_sort compare l) l.
Proof.
  induction l as [|x l IH]; cbn [array_sort]; [reflexivity|].
  rewrite insert_sorted_perm. constructor. exact IH.
Qed.

(** For a comparator that is the difference of a key, most first. *)
Variable key : A -> Z.
Hypothesis compare_key : forall a b, compare a b = key b - key a.

Lemma insert_sorted_descending x l :
  StronglySorted (fun a b => key b <= key a) l ->
  StronglySorted (fun a b => key b <= key a) (insert_sorted compare x l).
Proof.
  induction 1 as [|y l Hs IH Hy]; cbn [insert_sorted].
  - repeat constructor.
  - rewrite compare_key. destruct (Z.leb_spec (key y - key x) 0) as [Hle|Hgt].
    + constructor; [constructor; assumption|].
      constructor; [lia|].
      eapply Forall_impl; [exact Hy|]. cbn beta. intros z Hz. lia.
    + constructor; [exact IH|].
      eapply Permutation_Forall; [symmetry; apply insert_sorted_perm|].
      constructor; [lia | exact Hy].
Qed.

Lemma array_sort_descending l :
  StronglySorted (fun a b => key b <= key a) (array_sort compare l).
Proof.
  induction l as [|x l IH]; cbn [array_sort]; [constructor|].
  apply insert_sorted_descending, IH.
Qed.

End SortFacts.

(** A label that is not an inherited name is given its table value. *)
Lemma priority_plain (t : torrent) :
  inherited_label t = false -> priority t = PNumber (table_priority t).
Proof.
  unfold inherited_label, priority, lookup_priority, table_priority. intros H.
  destruct (own_property qualityPriority (quality t)); [reflexivity|].
  rewrite H. reflexivity.
Qed.

(** An inherited name is not a key of the table. *)
Lemma priority_inherited (t : torrent) :
  inherited_label t = true -> priority t = PInherited.
Proof.
  unfold inherited_label, priority, lookup_priority. intros H. rewrite H.
  apply bool_decide_eq_true_1, list_elem_of_In in H.
  unfold prototype_names in H. cbn [In] in H.
  repeat (destruct H as [<-|H]; [reflexivity|]). destruct H.
Qed.

Lemma compare_priority_far (a b : torrent) :
  10 < Z.abs (seeders b - seeders a) ->
  compare_priority a b = Int (seeders b - seeders a).
Proof.
  intros H. unfold compare_priority. rewrite Z.gtb_ltb.
  destruct (Z.ltb_spec 10 (Z.abs (seeders b - seeders a))); [reflexivity | lia].
Qed.

Lemma compare_priority_near (a b : torrent) :
  Z.abs (seeders b - seeders a) <= 10 ->
  compare_priority a b = priority_sub (priority b) (priority a).
Proof.
  intros H. unfold compare_priority. rewrite Z.gtb_ltb.
  destruct (Z.ltb_spec 10 (Z.abs (seeders b - seeders a))); [lia | reflexivity].
Qed.

Lemma compare_priority_plain (a b : torrent) :
  inherited_label a = false -> inherited_label b = false ->
  sort_order (compare_priority a b)
  = if Z.abs (seeders b - seeders a) >? 10 then seeders b - seeders a
    else table_priority b - table_priority a.
Proof.
  intros Ha Hb. unfold compare_priority.
  rewrite (priority_plain a Ha), (priority_plain b Hb).
  destruct (Z.abs (seeders b - seeders a) >? 10); reflexivity.
Qed.

(** With a label that names an inherited member, two candidates within
    ten seeders of each other compare as [NaN], and [sort] leaves them in
    the order it finds them. *)
Lemma compare_priority_inherited (a b : torrent) :
  Z.abs (seeders a - seeders b) <= 10 ->
  inherited_label a = true \/ inherited_label b = true ->
  compare_priority a b = NaN
  /\ sortByPriority [a; b] = [a; b] /\ sortByPriority [b; a] = [b; a].
Proof.
  intros Hs Hl.
  assert (Hab : compare_priority a b = NaN).
  { rewrite compare_priority_near by lia.
    destruct Hl as [H|H]; rewrite (priority_inherited _ H);
      [destruct (priority b) | ]; reflexivity. }
  assert (Hba : compare_priority b a = NaN).
  { rewrite compare_priority_near by lia.
    destruct Hl as [H|H]; rewrite (priority_inherited _ H);
      [ | destruct (priority a)]; reflexivity. }
  split; [exact Hab|].
  unfold sortByPriority. cbn [array_sort insert_sorted]. rewrite Hab, Hba.
  split; reflexivity.
Qed.

Lemma compare_priority_sign (a b : torrent) :
  inherited_label a = false -> inherited_label b = false ->
  (sort_order (compare_priority a b) <=? 0) = true -> placed_as_ranked a b = true.
Proof.
  intros Ha Hb. rewrite (compare_priority_plain a b Ha Hb).
  unfold placed_as_ranked. intros H%Z.leb_le.
  rewrite !Z.gtb_ltb in *.
  destruct (Z.ltb_spec 10 (Z.abs (seeders b - seeders a)));
    destruct (Z.ltb_spec 10 (Z.abs (seeders a - seeders b))); lia.
Qed.

Lemma compare_priority_sign_pos (a b : torrent) :
  inherited_label a = false -> inherited_label b = false ->
  (sort_order (compare_priority a b) <=? 0) = false -> placed_as_ranked b a = true.
Proof.
  intros Ha Hb. rewrite (compare_priority_plain a b Ha Hb).
  unfold placed_as_ranked. intros H%Z.leb_gt.
  rewrite !Z.gtb_ltb in *.
  destruct (Z.ltb_spec 10 (Z.abs (seeders b - seeders a))); lia.
Qed.

(** C3 (as amended).  For every two candidates [a] and [b]: when [a] has
    more than ten seeders more than [b], the comparator of [sortByPriority]
    puts [a] first whatever the qualities, and so does the sort of the two;
    when their seeders differ by at most ten, neither quality label is the
    name of a member that the table object inherits, and [a] has the higher
    quality priority of the table, likewise; a ranked pair with such labels
    always satisfies the rule; and the ranking of any list is a permutation
    of it. *)
Theorem C3_sortByPriority_orders_pairs (a b : torrent) :
  (seeders b + 10 < seeders a ->
     compare_priority a b = Int (seeders b - seeders a)
     /\ sortByPriority [a; b] = [a; b] /\ sortByPriority [b; a] = [a; b])
  /\ (Z.abs (seeders a - seeders b) <= 10 ->
      inherited_label a = false -> inherited_label b = false ->
      table_priority b < table_priority a ->
        compare_priority a b = Int (table_priority b - table_priority a)
        /\ sortByPriority [a; b] = [a; b] /\ sortByPriority [b; a] = [a; b])
  /\ (inherited_label a = false -> inherited_label b = false ->
      ranked (sortByPriority [a; b]) = true)
  /\ (forall l, Permutation (sortByPriority l) l).
Proof.
  assert (Hsort : sort_order (compare_priority a b) < 0 ->
                  sort_order (compare_priority b a) > 0 ->
                  sortByPriority [a; b] = [a; b] /\ sortByPriority [b; a] = [a; b]).
  { intros H1 H2. unfold sortByPriority. cbn [array_sort insert_sorted].
    destruct (Z.leb_spec (sort_order (compare_priority a b)) 0); [|lia].
    destruct (Z.leb_spec (sort_order (compare_priority b a)) 0); [lia|]. auto. }
  split; [|split; [|split]].
  - intros H.
    rewrite (compare_priority_far a b) in * by lia.
    rewrite (compare_priority_far b a) in Hsort by lia.
    split; [reflexivity|]. apply Hsort; cbn [sort_order]; lia.
  - intros H Ha Hb Hp.
    rewrite (compare_priority_near a b), (priority_plain a Ha), (priority_plain b Hb)
      in * by lia.
    rewrite (compare_priority_near b a), (priority_plain a Ha), (priority_plain b Hb)
      in Hsort by lia.
    cbn [priority_sub sort_order] in *.
    split; [reflexivity|]. apply Hsort; lia.
  - intros Ha Hb. unfold sortByPriority. cbn [array_sort insert_sorted].
    destruct (sort_order (compare_priority a b) <=? 0) eqn:E; cbn [ranked forallb].
    + rewrite (compare_priority_sign a b Ha Hb E). reflexivity.
    + rewrite (compare_priority_sign_pos a b Ha Hb E). reflexivity.
  - intros l. apply array_sort_perm.
Qed.

Lemma C3_sortByPriority_orders_pairs_witness :
  (seeders cyc_a + 10 < seeders cyc_c
   /\ sortByPriority [cyc_a; cyc_c] = [cyc_c; cyc_a])
  /\ (Z.abs (seeders cyc_a - seeders cyc_b) <= 10
      /\ inherited_label cyc_a = false /\ inherited_label cyc_b = false
      /\ table_priority cyc_b < table_priority cyc_a
      /\ sortByPriority [cyc_b; cyc_a] = [cyc_a; cyc_b]).
Proof.
  assert (H : seeders cyc_a + 10 < seeders cyc_c) by (vm_compute; reflexivity).
  assert (Hs : Z.abs (seeders cyc_a - seeders cyc_b) <= 10) by (vm_compute; discriminate).
  assert (Ha : inherited_label cyc_a = false) by (vm_compute; reflexivity).
  assert (Hb : inherited_label cyc_b = false) by (vm_compute; reflexivity).
  assert (Hp : table_priority cyc_b < table_priority cyc_a) by (vm_compute; reflexivity).
  split.
  - split; [exact H|].
    exact (proj2 (proj2 (proj1 (C3_sortByPriority_orders_pairs cyc_c cyc_a) H))).
  - repeat (split; [assumption|]).
    exact (proj2 (proj2 (proj1 (proj2 (C3_sortByPriority_orders_pairs cyc_a cyc_b))
                           Hs Ha Hb Hp))).
Defined.

(** C3, as stated, fails: on three candidates the rule can run in a
    circle, and then no arrangement of them, in particular not the one
    [sortByPriority] returns, satisfies it for every two candidates. *)
Lemma C3_counterexample_circular_rule :
  ranked (sortByPriority [cyc_a; cyc_b; cyc_c]) = false
  /\ (forall out, Permutation out [cyc_a; cyc_b; cyc_c] -> ranked out = false).
Proof.
  split; [vm_compute; reflexivity|].
  intros out Hp.
  pose proof (Permutation_length Hp) as Hl.
  assert (Ha : In cyc_a out)
    by (eapply Permutation_in; [symmetry; exact Hp | cbn; auto]).
  assert (Hb : In cyc_b out)
    by (eapply Permutation_in; [symmetry; exact Hp | cbn; auto]).
  assert (Hc : In cyc_c out)
    by (eapply Permutation_in; [symmetry; exact Hp | cbn; auto]).
  destruct out as [|p [|q [|r [|]]]]; try discriminate Hl.
  clear Hp Hl. cbn [In] in Ha, Hb, Hc.
  destruct Ha as [Ha|[Ha|[Ha|[]]]]; subst;
    (destruct Hb as [Hb|[Hb|[Hb|[]]]]; try (vm_compute in Hb; discriminate Hb)); subst;
    (destruct Hc as [Hc|[Hc|[Hc|[]]]]; try (vm_compute in Hc; discriminate Hc)); subst;
    vm_compute; reflexivity.
Qed.

(** The searcher's own sort looks at the seeders only: within ten
    seeders the better quality does not come first. *)
Lemma search_results_by_seeders_only :
  TorrentSearcher.search_results
    [TorrentSearcher.Fulfilled [cyc_a; cyc_b]] = [cyc_b; cyc_a]
  /\ placed_as_ranked cyc_b cyc_a = false.
Proof. split; vm_compute; reflexivity. Qed.

(** ** The aggregator *)

Import TorrentSearcher.

Lemma collect_fulfilled_values allResults :
  collect allResults = fulfilled_values allResults.
Proof.
  induction allResults as [|[value|e] rest IH]; cbn [collect fulfilled_values flat_map].
  - reflexivity.
  - f_equal. exact IH.
  - exact IH.
Qed.

(** C7 (as amended).  For every answer of the trackers, [search] returns
    (it does not throw), after one request to each tracker; its result is
    the outputs of the adapters that succeeded, a failed or timed-out
    adapter contributing nothing, sorted by seeders, most first: a
    permutation of their concatenation.  The same holds of any list of
    settled promises, rejected ones included. *)
Theorem C7_search_fail_soft (w : world) (p : params) (s : state) :
  (exists s',
      search w p s
      = (Ok (array_sort by_seeders
               (adapter_output w (searchQuery p) Rutor
                ++ adapter_output w (searchQuery p) RuTracker
                ++ adapter_output w (searchQuery p) Kinozal)), s')
      /\ cache s' = cache s
      /\ trace s' = trace s ++ [CallTracker Rutor (searchQuery p);
                                CallTracker RuTracker (searchQuery p);
                                CallTracker Kinozal (searchQuery p)])
  /\ (forall allResults,
         Permutation (search_results allResults) (fulfilled_values allResults)
         /\ seeders_descending (search_results allResults)).
Proof.
  split.
  - eexists. split; [|split].
    + unfold search.
      change (filter _ [Rutor; RuTracker; Kinozal]) with [Rutor; RuTracker; Kinozal].
      unfold bind, allSettled, searchTracker, bind, call, ret, search_results.
      cbn [collect]. rewrite app_nil_r. reflexivity.
    + reflexivity.
    + cbn [trace]. rewrite <- !app_assoc. reflexivity.
  - intros allResults. unfold search_results. split.
    + rewrite <- collect_fulfilled_values. apply array_sort_perm.
    + apply (array_sort_descending by_seeders seeders). reflexivity.
Qed.

(** C7, as stated, fails: when Rutor answers two torrents, fewer seeders
    first, and the other trackers fail, the list returned is not the
    output of the successful adapter but that output sorted. *)
Lemma C7_counterexample_sorted_output :
  adapter_output partial_world (searchQuery movie_params) Rutor = [cyc_a; cyc_b]
  /\ fst (search partial_world movie_params empty_state) = Ok [cyc_b; cyc_a]
  /\ search_results [Fulfilled [cyc_a; cyc_b]; Rejected NetworkError] = [cyc_b; cyc_a]
  /\ [cyc_b; cyc_a] <> [cyc_a; cyc_b].
Proof.
  split; [reflexivity|].
  split; [vm_compute; reflexivity|].
  split; [vm_compute; reflexivity|].
  vm_compute. discriminate.
Qed.

(** ** The availability loop *)

Import RealDebridClient.

Lemma resolve_one_emits w apiKey type season episode t streams s :
  exists s',
    try_catch (resolve_one w apiKey type season episode t streams)
              (fun _ => ret streams) s
    = (Ok (streams ++ emitted w apiKey type season episode t), s')
    /\ cache s' = cache s
    /\ trace s' = trace s ++ [provider_call apiKey t].
Proof.
  unfold try_catch, resolve_one, checkAvailability, bind, call, ret, lift,
    emitted, provider_files, provider_call.
  destruct (w_provider w apiKey (interp (infoHash t))) as [e|[[|variant rest]|]];
    cbn [available files].
  - rewrite app_nil_r. eauto.
  - rewrite app_nil_r. eauto.
  - destruct (is_series type).
    + destruct (findVideoFile _ season episode) as [idx|e].
      * eauto.
      * rewrite app_nil_r. eauto.
    + eauto.
  - rewrite app_nil_r. eauto.
Qed.

Lemma resolve_loop_emits w apiKey type season episode torrents streams s :
  exists s',
    resolve_loop w apiKey type season episode torrents streams s
    = (Ok (streams ++ flat_map (emitted w apiKey type season episode) torrents), s')
    /\ cache s' = cache s
    /\ trace s' = trace s ++ map (provider_call apiKey) torrents.
Proof.
  revert streams s. induction torrents as [|t rest IH]; intros streams s.
  - exists s. cbn. rewrite !app_nil_r. auto.
  - cbn [resolve_loop flat_map map]. unfold bind at 1.
    destruct (resolve_one_emits w apiKey type season episode t streams s)
      as (s1 & -> & Hc1 & Ht1).
    destruct (IH (streams ++ emitted w apiKey type season episode t) s1)
      as (s2 & -> & Hc2 & Ht2).
    exists s2. rewrite <- app_assoc, Hc2, Hc1, Ht2, Ht1, <- app_assoc. auto.
Qed.

(** C8.  For every list of ranked candidates, the availability loop
    returns (it does not throw) after one call to the provider per
    candidate, in order, and its streams are those of the candidates one
    after the other, where a candidate that the provider reports
    unavailable gives no stream, one that is available for non-episodic
    media gives one stream whose file index is [null], and one whose
    provider call fails gives no stream and leaves the candidates after it
    to be resolved. *)
Theorem C8_availability_loop (w : world) (apiKey type : jstring)
    (season episode : option jsnum) (torrents : list torrent) (s : state) :
  (exists s',
      resolve_loop w apiKey type season episode torrents [] s
      = (Ok (flat_map (emitted w apiKey type season episode) torrents), s')
      /\ trace s' = trace s ++ map (provider_call apiKey) torrents)
  /\ (forall t,
         (w_provider w apiKey (interp (infoHash t)) = ProviderData None
          \/ w_provider w apiKey (interp (infoHash t)) = ProviderData (Some [])) ->
         emitted w apiKey type season episode t = [])
  /\ (forall t variant others,
         w_provider w apiKey (interp (infoHash t)) = ProviderData (Some (variant :: others)) ->
         is_series type = false ->
         emitted w apiKey type season episode t = [mkStream t None]
         /\ fileIdx (mkStream t None) = None)
  /\ (forall t e before after,
         w_provider w apiKey (interp (infoHash t)) = ProviderFault e ->
         emitted w apiKey type season episode t = []
         /\ flat_map (emitted w apiKey type season episode) (before ++ t :: after)
            = flat_map (emitted w apiKey type season episode) before
              ++ flat_map (emitted w apiKey type season episode) after).
Proof.
  split; [|split; [|split]].
  - destruct (resolve_loop_emits w apiKey type season episode torrents [] s)
      as (s' & E & _ & Ht).
    exists s'. split; [exact E | exact Ht].
  - intros t [H|H]; unfold emitted, provider_files; rewrite H; reflexivity.
  - intros t variant others H Hs. unfold emitted, provider_files.
    rewrite H, Hs. split; reflexivity.
  - intros t e before after H.
    assert (E : emitted w apiKey type season episode t = []).
    { unfold emitted, provider_files. rewrite H. reflexivity. }
    split; [exact E|].
    rewrite flat_map_app. cbn [flat_map]. rewrite E. reflexivity.
Qed.

Lemma C8_availability_loop_witness :
  w_provider sample_world key_a (interp (infoHash sample_torrent))
  = ProviderData (Some [[RdFile (Some (js "Movie.Name.2020.mkv")) 1400000000]])
  /\ emitted sample_world key_a (js "movie") None None sample_torrent
     = [mkStream sample_torrent None].
Proof.
  assert (H : w_provider sample_world key_a (interp (infoHash sample_torrent))
              = ProviderData (Some [[RdFile (Some (js "Movie.Name.2020.mkv")) 1400000000]]))
    by reflexivity.
  split; [exact H|].
  exact (proj1 (proj1 (proj2 (proj2
           (C8_availability_loop sample_world key_a (js "movie") None None [] empty_state)))
           sample_torrent _ _ H eq_refl)).
Defined.

(** ** The credential check *)

Lemma part001_requires_credential w type id cfg s :
  has_credential cfg = false ->
  streamHandler_part001 w type id cfg s = (Ok ConfigurationRequired, s).
Proof.
  intros H. unfold streamHandler_part001, try_catch. rewrite H. reflexivity.
Qed.

(** C9 on the handler of part_000.  A request whose configuration has no
    API key makes no call and changes no state, but it is answered with
    the error entry built in the handler's [catch] from the [TypeError]
    that reading the key throws, where the handler of part_001 answers
    with the entry that asks for the key. *)
Theorem C9_part000_answers_missing_credential_with_error
    (w : world) (type id : jstring) (s : state) :
  streamHandler_part000 w type id (Some (Config None)) s = (Ok (ErrorResult TypeError), s)
  /\ streamHandler_part000 w type id None s = (Ok (ErrorResult TypeError), s)
  /\ streamHandler_part001 w type id (Some (Config None)) s = (Ok ConfigurationRequired, s)
  /\ streamHandler_part001 w type id None s = (Ok ConfigurationRequired, s).
Proof.
  repeat split;
    try (apply part001_requires_credential; reflexivity);
    reflexivity.
Qed.

(** ** The episode matcher *)

Import TorrentUtils.

Section EpisodeMatcher.
Variables season episode : jsnum.

Lemma first_index_head {A} (P : A -> bool) x l :
  P x = true -> forall i, first_index P (x :: l) i -> i = 0%nat.
Proof.
  intros Hx [|i] [_ H]; [reflexivity|].
  specialize (H 0%nat x). rewrite Hx in H. discriminate H; [lia|reflexivity].
Qed.

Lemma first_index_tail {A} (P : A -> bool) x l i :
  P x = false -> first_index P (x :: l) i ->
  exists i', i = S i' /\ first_index P l i'.
Proof.
  intros Hx [(y & Hy & Py) H]. destruct i as [|i].
  - cbn in Hy. injection Hy as ->. congruence.
  - exists i. split; [reflexivity|]. split; [eauto|].
    intros j z Hj Hz. apply (H (S j) z); [lia|exact Hz].
Qed.

Lemma match_loop_step k f files :
  is_episode_file season episode f = false ->
  match_loop (patterns season episode) k (f :: files)
  = match_loop (patterns season episode) (S k) files.
Proof.
  unfold is_episode_file, is_video_file. cbn [match_loop].
  destruct (isVideo (lower_name f)); cbn [negb andb]; [|reflexivity].
  intros ->. reflexivity.
Qed.

Lemma match_loop_first files : forall k i,
  first_index (is_episode_file season episode) files i ->
  match_loop (patterns season episode) k files = Some (k + i + 1)%nat.
Proof.
  induction files as [|f files IH]; intros k i Hi.
  - destruct Hi as [(x & Hx & _) _]. rewrite lookup_nil in Hx. discriminate.
  - destruct (is_episode_file season episode f) eqn:E.
    + rewrite (first_index_head _ f files E i Hi).
      unfold is_episode_file, is_video_file in E.
      apply andb_true_iff in E as [Ev Em].
      cbn [match_loop]. rewrite Ev, Em. cbn [negb]. f_equal. lia.
    + destruct (first_index_tail _ f files i E Hi) as (i' & -> & Hi').
      rewrite (match_loop_step k f files E), (IH (S k) i' Hi'). f_equal. lia.
Qed.

Lemma match_loop_none files : forall k,
  (forall f, In f files -> is_episode_file season episode f = false) ->
  match_loop (patterns season episode) k files = None.
Proof.
  induction files as [|f files IH]; intros k H; [reflexivity|].
  rewrite match_loop_step by (apply H; left; reflexivity).
  apply IH. intros g Hg. apply H. right. exact Hg.
Qed.

Lemma video_loop_first files : forall k i,
  first_index is_video_file files i -> video_loop k files = Some (k + i + 1)%nat.
Proof.
  induction files as [|f files IH]; intros k i Hi.
  - destruct Hi as [(x & Hx & _) _]. rewrite lookup_nil in Hx. discriminate.
  - destruct (is_video_file f) eqn:E.
    + rewrite (first_index_head _ f files E i Hi).
      unfold is_video_file in E. cbn [video_loop]. rewrite E. f_equal. lia.
    + destruct (first_index_tail _ f files i E Hi) as (i' & -> & Hi').
      unfold is_video_file in E. cbn [video_loop]. rewrite E.
      rewrite (IH (S k) i' Hi'). f_equal. lia.
Qed.

Lemma video_loop_none files : forall k,
  (forall f, In f files -> is_video_file f = false) -> video_loop k files = None.
Proof.
  induction files as [|f files IH]; intros k H; [reflexivity|].
  cbn [video_loop]. pose proof (H f (or_introl eq_refl)) as E.
  unfold is_video_file in E. rewrite E.
  apply IH. intros g Hg. apply H. right. exact Hg.
Qed.

Lemma first_index_or_none {A} (P : A -> bool) (l : list A) :
  (exists i, first_index P l i) \/ (forall x, In x l -> P x = false).
Proof.
  induction l as [|x l [[i Hi]|Hnone]].
  - right. intros x [].
  - destruct (P x) eqn:E.
    + left. exists 0%nat. split; [exists x; auto|]. intros j y Hj. lia.
    + left. exists (S i). destruct Hi as [Hx Hbefore]. split; [exact Hx|].
      intros [|j] y Hj Hy.
      * cbn in Hy. injection Hy as <-. exact E.
      * apply (Hbefore j y); [lia | exact Hy].
  - destruct (P x) eqn:E.
    + left. exists 0%nat. split; [exists x; auto|]. intros j y Hj. lia.
    + right. intros y [<-|Hy]; [exact E | apply Hnone, Hy].
Qed.

End EpisodeMatcher.

(** The loops of [findVideoFile], on files that all have a path and
    with an episode that is a number. *)
Section HandlerMatcher.
Variables (season : option jsnum) (episode : jsnum).

Lemma handler_match_loop_step k f files :
  path f <> None ->
  is_handler_episode_file season episode f = false ->
  Addon.match_loop season (Some episode) k (f :: files)
  = Addon.match_loop season (Some episode) (S k) files.
Proof.
  unfold is_handler_episode_file, is_handler_video_file, handler_matches, path_name.
  cbn [Addon.match_loop].
  destruct (path f) as [p|]; [intros _ | congruence].
  change (default [] (Some p)) with p.
  destruct (Addon.isVideo (toLowerCase p)); cbn [negb andb]; [|reflexivity].
  cbn [Addon.patterns pad2 rbind]. intros ->. reflexivity.
Qed.

Lemma handler_match_loop_first files :
  all_have_path files -> forall k i,
  first_index (is_handler_episode_file season episode) files i ->
  Addon.match_loop season (Some episode) k files = Ok (Some (k + i + 1)%nat).
Proof.
  induction 1 as [|f files Hf _ IH]; intros k i Hi.
  - destruct Hi as [(x & Hx & _) _]. rewrite lookup_nil in Hx. discriminate.
  - destruct (is_handler_episode_file season episode f) eqn:E.
    + rewrite (first_index_head _ f files E i Hi).
      unfold is_handler_episode_file, is_handler_video_file, handler_matches, path_name in E.
      cbn [Addon.match_loop].
      destruct (path f) as [p|]; [|congruence].
      change (default [] (Some p)) with p in E.
      apply andb_true_iff in E as [Ev Em]. rewrite Ev. cbn [negb].
      cbn [Addon.patterns pad2 rbind] in *. rewrite Em. do 2 f_equal. lia.
    + destruct (first_index_tail _ f files i E Hi) as (i' & -> & Hi').
      rewrite (handler_match_loop_step k f files Hf E), (IH (S k) i' Hi').
      do 2 f_equal. lia.
Qed.

Lemma handler_match_loop_none files :
  all_have_path files -> forall k,
  (forall f, In f files -> is_handler_episode_file season episode f = false) ->
  Addon.match_loop season (Some episode) k files = Ok None.
Proof.
  induction 1 as [|f files Hf _ IH]; intros k H; [reflexivity|].
  rewrite handler_match_loop_step by (try exact Hf; apply H; left; reflexivity).
  apply IH. intros g Hg. apply H. right. exact Hg.
Qed.

Lemma handler_video_loop_first files :
  all_have_path files -> forall k i,
  first_index is_handler_video_file files i ->
  Addon.video_loop k files = Ok (Some (k + i + 1)%nat).
Proof.
  induction 1 as [|f files Hf _ IH]; intros k i Hi.
  - destruct Hi as [(x & Hx & _) _]. rewrite lookup_nil in Hx. discriminate.
  - destruct (is_handler_video_file f) eqn:E.
    + rewrite (first_index_head _ f files E i Hi).
      unfold is_handler_video_file, path_name in E. cbn [Addon.video_loop].
      destruct (path f) as [p|]; [|congruence].
      change (default [] (Some p)) with p in E. rewrite E. do 2 f_equal. lia.
    + destruct (first_index_tail _ f files i E Hi) as (i' & -> & Hi').
      unfold is_handler_video_file, path_name in E. cbn [Addon.video_loop].
      destruct (path f) as [p|]; [|congruence].
      change (default [] (Some p)) with p in E. rewrite E.
      rewrite (IH (S k) i' Hi'). do 2 f_equal. lia.
Qed.

Lemma handler_video_loop_none files :
  all_have_path files -> forall k,
  (forall f, In f files -> is_handler_video_file f = false) ->
  Addon.video_loop k files = Ok None.
Proof.
  induction 1 as [|f files Hf _ IH]; intros k H; [reflexivity|].
  cbn [Addon.video_loop]. pose proof (H f (or_introl eq_refl)) as E.
  unfold is_handler_video_file, path_name in E.
  destruct (path f) as [p|]; [|congruence].
  change (default [] (Some p)) with p in E. rewrite E.
  apply IH. intros g Hg. apply H. right. exact Hg.
Qed.

End HandlerMatcher.

(** [findVideoFile] throws at the first video file when the episode is
    [null]. *)
Lemma findVideoFile_null_episode f p rest season :
  path f = Some p -> Addon.isVideo (toLowerCase p) = true ->
  Addon.findVideoFile (f :: rest) season None = Throw TypeError.
Proof.
  intros Hp Hv. unfold Addon.findVideoFile. cbn [Addon.match_loop].
  rewrite Hp, Hv. reflexivity.
Qed.

(** C5.  [findEpisodeFile] does what the claim says on every input: it
    returns the 1-based index of the first video file whose name matches an
    episode pattern; when no video file matches, that of the first video
    file; when there is no video file, [null]; one of the three cases
    always applies.  [findVideoFile], the matcher that the handler calls,
    does the same on files that all have a path when the episode is a
    number, and both give the results of the three worked cases.  But
    [findVideoFile] throws where the claim says "never throws": on a [null]
    episode, which the handler passes for a series id without a season
    and an episode, at the first video file, so that the handler drops a
    torrent the provider has; and on a file without a path, which
    [findEpisodeFile] reads by its name. *)
Theorem C5_findVideoFile_throws_on_null_episode (files : list file) (season episode : jsnum) :
  ((forall i, first_index (is_episode_file season episode) files i ->
              findEpisodeFile files season episode = Some (i + 1)%nat)
   /\ (forall i, (forall f, In f files -> is_episode_file season episode f = false) ->
                 first_index is_video_file files i ->
                 findEpisodeFile files season episode = Some (i + 1)%nat)
   /\ ((forall f, In f files -> is_video_file f = false) ->
       findEpisodeFile files season episode = None)
   /\ ((exists i, first_index (is_episode_file season episode) files i)
       \/ ((forall f, In f files -> is_episode_file season episode f = false)
           /\ exists i, first_index is_video_file files i)
       \/ (forall f, In f files -> is_video_file f = false)))
  /\ (forall hseason, all_have_path files ->
        (forall i, first_index (is_handler_episode_file hseason episode) files i ->
                   Addon.findVideoFile files hseason (Some episode) = Ok (Some (i + 1)%nat))
        /\ (forall i,
               (forall f, In f files -> is_handler_episode_file hseason episode f = false) ->
               first_index is_handler_video_file files i ->
               Addon.findVideoFile files hseason (Some episode) = Ok (Some (i + 1)%nat))
        /\ ((forall f, In f files -> is_handler_video_file f = false) ->
            Addon.findVideoFile files hseason (Some episode) = Ok None))
  /\ (findEpisodeFile [named "Show.S01E01.mkv"; named "Show.S01E02.mkv"; named "sample.txt"]
                      (Int 1) (Int 2) = Some 2%nat
      /\ findEpisodeFile [named "random.mkv"] (Int 1) (Int 2) = Some 1%nat
      /\ findEpisodeFile [named "readme.txt"] (Int 1) (Int 2) = None
      /\ Addon.findVideoFile
           [named "Show.S01E01.mkv"; named "Show.S01E02.mkv"; named "sample.txt"]
           (Some (Int 1)) (Some (Int 2)) = Ok (Some 2%nat)
      /\ Addon.findVideoFile [named "random.mkv"] (Some (Int 1)) (Some (Int 2))
         = Ok (Some 1%nat)
      /\ Addon.findVideoFile [named "readme.txt"] (Some (Int 1)) (Some (Int 2)) = Ok None)
  /\ ((forall hseason f p rest,
          path f = Some p -> Addon.isVideo (toLowerCase p) = true ->
          Addon.findVideoFile (f :: rest) hseason None = Throw TypeError)
      /\ Addon.parse_episode (js "series") (js "tt0111161") = (None, None)
      /\ Addon.findVideoFile [named "random.mkv"] None None = Throw TypeError
      /\ provider_files series_world key_a sample_torrent
         = Some [named "Show.S01E01.mkv"; named "Show.S01E02.mkv"]
      /\ fst (Addon.streamHandler_part001 series_world (js "series") (js "tt0111161")
                (Some (Addon.Config (Some key_a))) empty_state)
         = Ok (Addon.Streams [])
      /\ Addon.findVideoFile [File None (Some (js "random.mkv"))]
                             (Some (Int 1)) (Some (Int 2)) = Throw TypeError
      /\ findEpisodeFile [File None (Some (js "random.mkv"))] (Int 1) (Int 2)
         = Some 1%nat).
Proof.
  split; [|split; [|split]].
  - split; [|split; [|split]].
    + intros i Hi. unfold findEpisodeFile.
      rewrite (match_loop_first season episode files 0 i Hi). reflexivity.
    + intros i Hnone Hi. unfold findEpisodeFile.
      rewrite (match_loop_none season episode files 0 Hnone).
      rewrite (video_loop_first files 0 i Hi). reflexivity.
    + intros Hnone. unfold findEpisodeFile.
      rewrite match_loop_none.
      * apply video_loop_none, Hnone.
      * intros f Hf. unfold is_episode_file. rewrite (Hnone f Hf). reflexivity.
    + destruct (first_index_or_none (is_episode_file season episode) files) as [H|H];
        [left; exact H|].
      destruct (first_index_or_none is_video_file files) as [Hv|Hv]; auto.
  - intros hseason Hp. split; [|split].
    + intros i Hi. unfold Addon.findVideoFile.
      rewrite (handler_match_loop_first hseason episode files Hp 0 i Hi). reflexivity.
    + intros i Hnone Hi. unfold Addon.findVideoFile.
      rewrite (handler_match_loop_none hseason episode files Hp 0 Hnone).
      cbn [rbind]. apply (handler_video_loop_first files Hp 0 i Hi).
    + intros Hnone. unfold Addon.findVideoFile.
      rewrite handler_match_loop_none.
      * cbn [rbind]. apply handler_video_loop_none; assumption.
      * exact Hp.
      * intros f Hf. unfold is_handler_episode_file. rewrite (Hnone f Hf). reflexivity.
  - repeat split; vm_compute; reflexivity.
  - split; [intros hseason f p rest; apply findVideoFile_null_episode|].
    repeat split; vm_compute; reflexivity.
Qed.

Lemma C5_findVideoFile_throws_on_null_episode_witness :
  (all_have_path [named "Show.S01E01.mkv"; named "Show.S01E02.mkv"; named "sample.txt"]
   /\ first_index (is_handler_episode_file (Some (Int 1)) (Int 2))
        [named "Show.S01E01.mkv"; named "Show.S01E02.mkv"; named "sample.txt"] 1)
  /\ Addon.findVideoFile
       [named "Show.S01E01.mkv"; named "Show.S01E02.mkv"; named "sample.txt"]
       (Some (Int 1)) (Some (Int 2)) = Ok (Some 2%nat).
Proof.
  assert (Hp : all_have_path
                 [named "Show.S01E01.mkv"; named "Show.S01E02.mkv"; named "sample.txt"])
    by (repeat constructor; discriminate).
  assert (H : first_index (is_handler_episode_file (Some (Int 1)) (Int 2))
                [named "Show.S01E01.mkv"; named "Show.S01E02.mkv"; named "sample.txt"] 1).
  { split.
    - eexists. split; [reflexivity | vm_compute; reflexivity].
    - intros [|j] y Hj Hy; [|lia].
      cbn in Hy. injection Hy as <-. vm_compute. reflexivity. }
  split; [split; assumption|].
  exact (proj1 (proj1 (proj2 (C5_findVideoFile_throws_on_null_episode
                                _ (Int 1) (Int 2))) (Some (Int 1)) Hp) 1%nat H).
Defined.

(** A pattern that ends in [(?!x)] matches only where no [x] follows. *)
Lemma run_not_ahead ic cc rs st st' :
  In st' (run ic (rcat (rs ++ [RNotAhead cc])) st) ->
  match m_rest st' with
  | c :: _ => cc_match ic cc c = false
  | [] => True
  end.
Proof.
  revert st. induction rs as [|r rs IH]; intros st; cbn [rcat app run].
  - intros (st1 & H1 & H2)%in_flat_map.
    destruct H2 as [<-|[]].
    destruct (m_rest st) as [|c s] eqn:E.
    + destruct H1 as [<-|[]]. rewrite E. exact I.
    + destruct (cc_match ic cc c) eqn:Ec; [destruct H1|].
      destruct H1 as [<-|[]]. rewrite E. exact Ec.
  - intros (st1 & _ & H2)%in_flat_map. eapply IH, H2.
Qed.

(** The [S..E..] and [NxM] patterns of [findEpisodeFile] end at a place
    where no digit follows. *)
Lemma findEpisodeFile_boundary season episode p name st :
  In p (take 2 (patterns season episode)) ->
  exec true p name = Some st ->
  match m_rest st with
  | c :: _ => is_digit c = false
  | [] => True
  end.
Proof.
  intros Hp E. apply exec_from_Some in E as (prev & s & Hin).
  cbn [patterns take] in Hp.
  destruct Hp as [<-|[<-|[]]].
  - apply (run_not_ahead true CDigit
             [lit (js "s"); zeros; lit (num_toString season); lit (js "e"); zeros;
              lit (num_toString episode)]) in Hin. exact Hin.
  - apply (run_not_ahead true CDigit
             [RWordB; lit (num_toString season); lit (js "x"); zeros;
              lit (num_toString episode)]) in Hin. exact Hin.
Qed.

(** C2 on the matcher the handler calls.  With the files of a season pack
    in the provider's order, [findVideoFile] asked for episode 1 selects
    the file marked [E10] (or [1x10]): its patterns have no boundary after
    the episode number.  [findEpisodeFile] selects the right file through
    its [S..E..] and [NxM] patterns, which have the boundary, and the wrong
    one through its [Season .. Episode ..] pattern, which lacks it. *)
Theorem C2_findVideoFile_selects_longer_episode_number :
  Addon.findVideoFile [named "Show.S01E10.mkv"; named "Show.S01E01.mkv"]
                      (Some (Int 1)) (Some (Int 1)) = Ok (Some 1%nat)
  /\ Addon.findVideoFile [named "Show.1x10.mkv"; named "Show.1x01.mkv"]
                         (Some (Int 1)) (Some (Int 1)) = Ok (Some 1%nat)
  /\ findEpisodeFile [named "Show.S01E10.mkv"; named "Show.S01E01.mkv"]
                     (Int 1) (Int 1) = Some 2%nat
  /\ findEpisodeFile [named "Show.1x10.mkv"; named "Show.1x01.mkv"]
                     (Int 1) (Int 1) = Some 2%nat
  /\ findEpisodeFile [named "Season 1 Episode 10.mkv"; named "Season 1 Episode 1.mkv"]
                     (Int 1) (Int 1) = Some 1%nat.
Proof. repeat split; vm_compute; reflexivity. Qed.

(** [findVideoFile] on the three cases of the specification. *)
Lemma findVideoFile_cases :
  Addon.findVideoFile [named "Show.S01E01.mkv"; named "Show.S01E02.mkv"; named "sample.txt"]
                      (Some (Int 1)) (Some (Int 2)) = Ok (Some 2%nat)
  /\ Addon.findVideoFile [named "random.mkv"] (Some (Int 1)) (Some (Int 2)) = Ok (Some 1%nat)
  /\ Addon.findVideoFile [named "readme.txt"] (Some (Int 1)) (Some (Int 2)) = Ok None
  /\ Addon.findVideoFile [File None None] (Some (Int 1)) (Some (Int 2)) = Throw TypeError
  /\ Addon.findVideoFile [named "random.mkv"] None None = Throw TypeError.
Proof. repeat split; vm_compute; reflexivity. Qed.

(** ** The quality extractor *)

Lemma first_keyword_None t branches :
  first_keyword t branches = None
  <-> existsb (fun kw => includes t kw) (flat_map fst branches) = false.
Proof.
  induction branches as [|[kws v] rest IH]; cbn [first_keyword flat_map fst].
  - tauto.
  - rewrite existsb_app.
    destruct (existsb (fun kw => includes t kw) kws); cbn [orb].
    + split; discriminate.
    + exact IH.
Qed.

(** C6.  [parseQuality] is a function of the title alone, defined on every
    title; a field is left unknown ([null]) exactly when none of its
    keywords occurs in the title, and [hdr] is [false] exactly when none of
    the HDR tokens does.  The title ["Movie.Name.2020"] has every field
    unknown and [hdr] false. *)
Theorem C6_parseQuality_total_with_defaults (title : jstring) :
  (exists q, parseQuality title = q)
  /\ (mentions title resolution_keywords = false <-> resolution (parseQuality title) = None)
  /\ (mentions title source_keywords = false <-> q_source (parseQuality title) = None)
  /\ (mentions title codec_keywords = false <-> codec (parseQuality title) = None)
  /\ (mentions title audio_keywords = false <-> audio (parseQuality title) = None)
  /\ (mentions title hdr_tokens = false <-> hdr (parseQuality title) = false)
  /\ parseQuality (js "Movie.Name.2020") = Quality None None None None false.
Proof.
  split; [eauto|].
  unfold parseQuality, mentions. cbn [resolution q_source codec audio hdr].
  repeat split; try (apply first_keyword_None); try (intros H; apply first_keyword_None; exact H);
    try (intros H; exact H).
Qed.

(* ================================================================= *)
(** * Further properties of the code *)

(** ** The cache: [getCache] and [setCache] *)

(** X1.  An entry stored by [setCache] is returned by [getCache] under the
    same key as long as no more than the time to live has passed since
    the store, the limit included, and the lookup changes nothing. *)
Theorem cache_hit_within_ttl (key : jstring) (streams : list stream) (s : state)
    (now : Z) (calls : list event) :
  now - clock s <= CACHE_TTL ->
  getCache key (State (cache (snd (setCache key streams s))) now calls)
  = (Ok (Some streams), State (cache (snd (setCache key streams s))) now calls).
Proof.
  intros Hnow. unfold getCache. cbn [setCache snd cache clock].
  rewrite lookup_insert_eq. cbn [timestamp data].
  destruct (Z.gtb_spec (now - clock s) CACHE_TTL) as [Hgt|_]; [lia|reflexivity].
Qed.

Lemma cache_hit_within_ttl_witness :
  3600000 - clock empty_state <= CACHE_TTL
  /\ fst (getCache (js "streams:tt1:ABCDEFGH")
            (State (cache (snd (setCache (js "streams:tt1:ABCDEFGH")
                                         [mkStream sample_torrent None] empty_state)))
                   3600000 []))
     = Ok (Some [mkStream sample_torrent None]).
Proof.
  assert (H : 3600000 - clock empty_state <= CACHE_TTL) by (vm_compute; discriminate).
  split; [exact H|].
  rewrite (cache_hit_within_ttl _ _ empty_state 3600000 [] H). reflexivity.
Defined.

(** X2.  Once more than the time to live has passed, [getCache] misses
    and removes the entry: every later lookup under the key misses too,
    at whatever time, and the entries under other keys stay. *)
Theorem cache_miss_after_ttl (key : jstring) (streams : list stream) (s : state)
    (now : Z) (calls : list event) :
  CACHE_TTL < now - clock s ->
  let after := getCache key (State (cache (snd (setCache key streams s))) now calls) in
  fst after = Ok None
  /\ cache (snd after) = delete key (cache s)
  /\ (forall later calls',
         fst (getCache key (State (cache (snd after)) later calls')) = Ok None)
  /\ (forall key', key' <> key -> cache (snd after) !! key' = cache s !! key').
Proof.
  intros Hnow after.
  assert (E : after = (Ok None, State (delete key (cache s)) now calls)).
  { subst after. unfold getCache. cbn [setCache snd cache clock].
    rewrite lookup_insert_eq. cbn [timestamp].
    destruct (Z.gtb_spec (now - clock s) CACHE_TTL) as [_|Hle]; [|lia].
    rewrite delete_insert_eq. reflexivity. }
  rewrite E. cbn [fst snd cache]. repeat split.
  - intros later calls'. unfold getCache. cbn [cache].
    rewrite lookup_delete_eq. reflexivity.
  - intros key' Hne. apply lookup_delete_ne. congruence.
Qed.

Lemma cache_miss_after_ttl_witness :
  CACHE_TTL < 3600001 - clock empty_state
  /\ fst (getCache (js "streams:tt1:ABCDEFGH")
            (State (cache (snd (setCache (js "streams:tt1:ABCDEFGH")
                                         [mkStream sample_torrent None] empty_state)))
                   3600001 []))
     = Ok None.
Proof.
  assert (H : CACHE_TTL < 3600001 - clock empty_state) by (vm_compute; reflexivity).
  split; [exact H|].
  exact (proj1 (cache_miss_after_ttl (js "streams:tt1:ABCDEFGH")
                  [mkStream sample_torrent None] empty_state 3600001 [] H)).
Defined.

(** ** The handler, stage by stage *)

Section Stages.
Variable w : world.

Lemma getMetadata_run imdbId type s :
  exists s1,
    getMetadata w imdbId type s = (Ok (metadata_of w imdbId type), s1)
    /\ cache s1 = cache s
    /\ trace s1 = trace s ++ [CallMetadata imdbId type].
Proof. eexists. split; [|split]; reflexivity. Qed.

Lemma jackett_stage_run p s :
  exists s1,
    match w_jackett w with
    | Some results => JackettSearcher.search w results p
    | None => ret []
    end s
    = (Ok (jackett_output w p), s1)
    /\ cache s1 = cache s
    /\ trace s1 = trace s ++ match w_jackett w with
                             | Some _ => [CallJackett (JackettSearcher.searchQuery p)]
                             | None => []
                             end.
Proof.
  unfold jackett_output. destruct (w_jackett w) as [results|].
  - eexists. split; [|split]; reflexivity.
  - exists s. cbn. rewrite app_nil_r. auto.
Qed.

Lemma search_run p s :
  exists s1,
    TorrentSearcher.search w p s = (Ok (tracker_output w p), s1)
    /\ cache s1 = cache s
    /\ trace s1 = trace s ++ [CallTracker Rutor (searchQuery p);
                              CallTracker RuTracker (searchQuery p);
                              CallTracker Kinozal (searchQuery p)].
Proof.
  eexists. split; [|split].
  - unfold TorrentSearcher.search.
    change (filter _ [Rutor; RuTracker; Kinozal]) with [Rutor; RuTracker; Kinozal].
    unfold bind, allSettled, searchTracker, bind, call, ret, TorrentSearcher.search_results,
      tracker_output.
    cbn [collect]. rewrite app_nil_r. reflexivity.
  - reflexivity.
  - cbn [trace]. rewrite <- !app_assoc. reflexivity.
Qed.

Lemma tracker_stage_run p (torrents : list torrent) s :
  exists s1,
    (if (length torrents =? 0)%nat then TorrentSearcher.search w p else ret torrents) s
    = (Ok (if (length torrents =? 0)%nat then tracker_output w p else torrents), s1)
    /\ cache s1 = cache s
    /\ trace s1 = trace s ++ (if (length torrents =? 0)%nat
                              then [CallTracker Rutor (searchQuery p);
                                    CallTracker RuTracker (searchQuery p);
                                    CallTracker Kinozal (searchQuery p)]
                              else []).
Proof.
  destruct (length torrents =? 0)%nat.
  - apply search_run.
  - exists s. cbn. rewrite app_nil_r. auto.
Qed.

(** The handler after a cache miss, in closed form: its answer, its calls
    and what it stores. *)
Lemma resolve_miss_run type id apiKey s :
  exists s',
    resolve_miss w type id apiKey (fst (parse_episode type id)) (snd (parse_episode type id)) s
    = (Ok (Streams (resolved w type id apiKey)), s')
    /\ trace s' = trace s ++ miss_calls w type id apiKey
    /\ cache s'
       = match resolved w type id apiKey with
         | [] => cache s
         | streams => <[cacheKey id apiKey := CacheItem streams (clock s')]> (cache s)
         end.
Proof.
  unfold resolve_miss, resolved, miss_calls.
  set (season := fst (parse_episode type id)).
  set (episode := snd (parse_episode type id)).
  set (imdbId := default [] (head (split 58 id))).
  destruct (getMetadata_run imdbId type s) as (s1 & E1 & C1 & T1).
  unfold bind at 1. rewrite E1. cbn beta iota.
  change (Params type (fst (metadata_of w imdbId type)) (snd (metadata_of w imdbId type))
                 season episode)
    with (params_of w type id season episode).
  set (p := params_of w type id season episode).
  destruct (jackett_stage_run p s1) as (s2 & E2 & C2 & T2).
  unfold bind at 1. rewrite E2. cbn beta iota.
  destruct (tracker_stage_run p (jackett_output w p) s2) as (s3 & E3 & C3 & T3).
  unfold bind at 1. rewrite E3. cbn beta iota.
  fold (candidates w p).
  destruct (resolve_loop_emits w apiKey type season episode (take 15 (candidates w p)) [] s3)
    as (s4 & E4 & C4 & T4).
  unfold bind at 1. rewrite E4. cbn [app]. cbn beta iota.
  set (streams := flat_map (emitted w apiKey type season episode) (take 15 (candidates w p))).
  assert (HT : trace s4 = trace s ++ CallMetadata imdbId type
                 :: search_calls w p ++ map (provider_call apiKey) (take 15 (candidates w p))).
  { rewrite T4, T3, T2, T1. unfold search_calls.
    rewrite <- !app_assoc. reflexivity. }
  assert (HC : cache s4 = cache s) by congruence.
  unfold bind. destruct streams as [|st streams]; cbn [length Nat.ltb Nat.leb].
  - exists s4. auto.
  - eexists. split; [reflexivity|]. split; [exact HT|].
    cbn [setCache snd cache clock]. rewrite HC. reflexivity.
Qed.

End Stages.

(** ** The handler as a whole *)

Section Handler.
Variable w : world.

Lemma resolve_hit type id apiKey s item :
  fresh_entry s (cacheKey id apiKey) item ->
  resolve w type id (Some (Config (Some apiKey))) s = (Ok (Streams (data item)), s).
Proof.
  intros [Hl Hf]. unfold resolve, bind, lift, read_rdApiKey, getCache.
  cbn [rdApiKey]. rewrite Hl.
  destruct (Z.gtb_spec (clock s - timestamp item) CACHE_TTL); [lia|reflexivity].
Qed.

Lemma resolve_miss_case type id apiKey s :
  no_fresh_entry s (cacheKey id apiKey) ->
  exists s',
    resolve w type id (Some (Config (Some apiKey))) s
    = (Ok (Streams (resolved w type id apiKey)), s')
    /\ trace s' = trace s ++ miss_calls w type id apiKey
    /\ cache s'
       = match resolved w type id apiKey with
         | [] => delete (cacheKey id apiKey) (cache s)
         | streams =>
             <[cacheKey id apiKey := CacheItem streams (clock s')]>
               (delete (cacheKey id apiKey) (cache s))
         end.
Proof.
  intros Hn. unfold no_fresh_entry in Hn.
  unfold resolve, bind at 1, lift, read_rdApiKey. cbn [rdApiKey].
  unfold bind at 1, getCache.
  destruct (cache s !! cacheKey id apiKey) as [item|] eqn:El.
  - destruct (Z.gtb_spec (clock s - timestamp item) CACHE_TTL) as [_|Hle]; [|lia].
    destruct (resolve_miss_run w type id apiKey
                (State (delete (cacheKey id apiKey) (cache s)) (clock s) (trace s)))
      as (s' & E & T & C).
    exists s'. rewrite E. auto.
  - destruct (resolve_miss_run w type id apiKey s) as (s' & E & T & C).
    exists s'. rewrite E. split; [reflexivity|]. split; [exact T|].
    rewrite C, (delete_id (cache s) (cacheKey id apiKey) El). reflexivity.
Qed.

Lemma fresh_or_not s key :
  (exists item, fresh_entry s key item) \/ no_fresh_entry s key.
Proof.
  unfold fresh_entry, no_fresh_entry.
  destruct (cache s !! key) as [item|]; [|right; exact I].
  destruct (Z.le_gt_cases (clock s - timestamp item) CACHE_TTL); [left; eauto | right; lia].
Qed.

Lemma part001_with_credential type id apiKey s :
  truthy (Some apiKey) = true ->
  streamHandler_part001 w type id (Some (Config (Some apiKey))) s
  = (let '(r, s') := resolve w type id (Some (Config (Some apiKey))) s in
     (Ok (rcatch r ErrorResult), s')).
Proof.
  intros Ht. unfold streamHandler_part001, try_catch, has_credential.
  cbn [rdApiKey]. rewrite Ht. cbn [negb].
  destruct (resolve w type id (Some (Config (Some apiKey))) s) as [[r|e] s']; reflexivity.
Qed.

Lemma part001_miss_run type id apiKey s :
  truthy (Some apiKey) = true ->
  no_fresh_entry s (cacheKey id apiKey) ->
  exists s',
    streamHandler_part001 w type id (Some (Config (Some apiKey))) s
    = (Ok (Streams (resolved w type id apiKey)), s')
    /\ trace s' = trace s ++ miss_calls w type id apiKey
    /\ cache s'
       = match resolved w type id apiKey with
         | [] => delete (cacheKey id apiKey) (cache s)
         | streams =>
             <[cacheKey id apiKey := CacheItem streams (clock s')]>
               (delete (cacheKey id apiKey) (cache s))
         end.
Proof.
  intros Ht Hn. rewrite (part001_with_credential type id apiKey s Ht).
  destruct (resolve_miss_case type id apiKey s Hn) as (s' & E & T & C).
  exists s'. rewrite E. auto.
Qed.

(** X3.  When the cache holds an entry for the request that is not older
    than the time to live, the handler answers with the stored streams
    and does nothing else: no call is made, and cache and clock stay as
    they are. *)
Theorem handler_answers_from_fresh_entry (type id apiKey : jstring) (s : state)
    (item : cache_item) :
  truthy (Some apiKey) = true ->
  fresh_entry s (cacheKey id apiKey) item ->
  streamHandler_part001 w type id (Some (Config (Some apiKey))) s
  = (Ok (Streams (data item)), s).
Proof.
  intros Ht Hf. rewrite (part001_with_credential type id apiKey s Ht).
  rewrite (resolve_hit type id apiKey s item Hf). reflexivity.
Qed.

(** X4.  When the cache holds no entry for the request, or an expired
    one, the handler answers with the streams that the first fifteen
    candidates give rise to, in the candidates' order, the candidates being
    Jackett's results when it finds any and the trackers' results sorted by
    seeders otherwise.  A candidate gives no stream when the provider does
    not report it available or, for a series, when [findVideoFile] throws
    on its files; it gives one stream otherwise, with the index that
    [findVideoFile] returns for a series and without an index else.  The
    handler makes the metadata call, the search calls and one provider call
    per candidate, in this order; and it stores the answer under the
    request's key when, and only when, the answer is not empty. *)
Theorem handler_resolves_on_miss (type id apiKey : jstring) (s : state) :
  truthy (Some apiKey) = true ->
  no_fresh_entry s (cacheKey id apiKey) ->
  (exists s',
    streamHandler_part001 w type id (Some (Config (Some apiKey))) s
    = (Ok (Streams (resolved w type id apiKey)), s')
    /\ trace s' = trace s ++ miss_calls w type id apiKey
    /\ cache s' !! cacheKey id apiKey
       = match resolved w type id apiKey with
         | [] => None
         | streams => Some (CacheItem streams (clock s'))
         end
    /\ (forall key', key' <> cacheKey id apiKey -> cache s' !! key' = cache s !! key'))
  /\ resolved w type id apiKey
     = flat_map (emitted w apiKey type (fst (parse_episode type id))
                         (snd (parse_episode type id)))
                (take 15 (candidates w (params_of w type id (fst (parse_episode type id))
                                                  (snd (parse_episode type id)))))
  /\ (forall season episode t,
         (provider_files w apiKey t = None ->
          emitted w apiKey type season episode t = [])
         /\ (forall fs e,
                provider_files w apiKey t = Some fs -> is_series type = true ->
                findVideoFile fs season episode = Throw e ->
                emitted w apiKey type season episode t = [])
         /\ (forall fs idx,
                provider_files w apiKey t = Some fs -> is_series type = true ->
                findVideoFile fs season episode = Ok idx ->
                emitted w apiKey type season episode t = [mkStream t idx])
         /\ (forall fs,
                provider_files w apiKey t = Some fs -> is_series type = false ->
                emitted w apiKey type season episode t = [mkStream t None])).
Proof.
  intros Ht Hn. split; [|split; [reflexivity|]].
  2: { intros season episode t. unfold emitted.
       split; [intros ->; reflexivity|].
       split; [intros fs e -> -> ->; reflexivity|].
       split; [intros fs idx -> -> ->; reflexivity | intros fs -> ->; reflexivity]. }
  destruct (part001_miss_run type id apiKey s Ht Hn) as (s' & E & T & C).
  exists s'. split; [exact E|]. split; [exact T|].
  rewrite C. destruct (resolved w type id apiKey) as [|st streams]; split.
  - apply lookup_delete_eq.
  - intros key' Hne. apply lookup_delete_ne. congruence.
  - apply lookup_insert_eq.
  - intros key' Hne. rewrite lookup_insert_ne by congruence.
    apply lookup_delete_ne. congruence.
Qed.

End Handler.

(** ** The cache key and the credential *)

Lemma truthy_prefix (k1 k2 : jstring) :
  substring0 8 k1 = substring0 8 k2 -> truthy (Some k1) = true -> truthy (Some k2) = true.
Proof.
  destruct k1 as [|c k1], k2 as [|d k2]; try reflexivity; [discriminate|].
  intros H _. discriminate H.
Qed.

(** After a request that was answered with streams, and not with none,
    the cache holds them under the request's key, fresh. *)
Lemma part001_leaves_fresh_entry w type id apiKey s streams :
  truthy (Some apiKey) = true ->
  fst (streamHandler_part001 w type id (Some (Config (Some apiKey))) s)
  = Ok (Streams streams) ->
  streams <> [] ->
  exists item,
    fresh_entry (snd (streamHandler_part001 w type id (Some (Config (Some apiKey))) s))
                (cacheKey id apiKey) item
    /\ data item = streams.
Proof.
  intros Ht Hfst Hne.
  destruct (fresh_or_not s (cacheKey id apiKey)) as [[item Hf]|Hn].
  - rewrite (part001_with_credential w type id apiKey s Ht) in *.
    rewrite (resolve_hit w type id apiKey s item Hf) in *.
    cbn [fst snd rcatch] in *. injection Hfst as <-.
    exists item. split; [exact Hf | reflexivity].
  - destruct (part001_miss_run w type id apiKey s Ht Hn) as (s' & E & _ & C).
    rewrite E in *. cbn [fst snd] in *. injection Hfst as Hs. rewrite Hs in C.
    destruct streams as [|st streams]; [congruence|].
    exists (CacheItem (st :: streams) (clock s')). split; [|reflexivity].
    split; [rewrite C; apply lookup_insert_eq|].
    cbn [timestamp]. unfold CACHE_TTL. lia.
Qed.

(** C1 (as amended).  For every two requests for the same media id: when
    the credentials differ within their first eight code units, the cache
    keys differ, a lookup under the key of one, at any time, is not
    answered from the entry the other wrote, and the handler answers the
    second request as it would had the first left the cache as it found
    it.  When the credentials agree on their first eight code units, be
    they distinct or not, the cache keys are the same, a lookup under the
    key of one within the time to live returns the entry the other wrote,
    and the handler answers the second request with the streams the first
    was answered with, without a call and without a change of state. *)
Theorem C1_cache_separates_key_prefixes (id k1 k2 : jstring) :
  (substring0 8 k1 <> substring0 8 k2 ->
   cacheKey id k1 <> cacheKey id k2
   /\ (forall streams s now,
          fst (getCache (cacheKey id k2)
                 (State (cache (snd (setCache (cacheKey id k1) streams s))) now (trace s)))
          = fst (getCache (cacheKey id k2) (State (cache s) now (trace s))))
   /\ (forall w1 w2 type1 type2 s,
          fst (streamHandler_part001 w2 type2 id (Some (Config (Some k2)))
                 (snd (streamHandler_part001 w1 type1 id (Some (Config (Some k1))) s)))
          = fst (streamHandler_part001 w2 type2 id (Some (Config (Some k2)))
                   (with_cache (cache s)
                      (snd (streamHandler_part001 w1 type1 id (Some (Config (Some k1))) s))))))
  /\ (substring0 8 k1 = substring0 8 k2 ->
      cacheKey id k1 = cacheKey id k2
      /\ (forall streams s now,
             now - clock s <= CACHE_TTL ->
             fst (getCache (cacheKey id k2)
                    (State (cache (snd (setCache (cacheKey id k1) streams s))) now (trace s)))
             = Ok (Some streams))
      /\ (forall w1 w2 type1 type2 s streams,
             truthy (Some k1) = true ->
             fst (streamHandler_part001 w1 type1 id (Some (Config (Some k1))) s)
             = Ok (Streams streams) ->
             streams <> [] ->
             streamHandler_part001 w2 type2 id (Some (Config (Some k2)))
               (snd (streamHandler_part001 w1 type1 id (Some (Config (Some k1))) s))
             = (Ok (Streams streams),
                snd (streamHandler_part001 w1 type1 id (Some (Config (Some k1))) s)))).
Proof.
  split.
  - intros Hne.
    assert (Hk : cacheKey id k1 <> cacheKey id k2).
    { intros E. apply Hne, (cacheKey_prefix id), E. }
    split; [exact Hk|]. split.
    + intros streams s now. apply getCache_lookup; [|reflexivity].
      cbn [setCache snd cache]. apply lookup_insert_ne, Hk.
    + intros w1 w2 type1 type2 s.
      set (s1 := snd (streamHandler_part001 w1 type1 id (Some (Config (Some k1))) s)).
      rewrite <- (with_cache_same s1) at 1.
      rewrite <- (with_cache_with_cache (cache s1) (cache s) s1).
      apply streamHandler_reads_own_key.
      cbn [with_cache cache]. subst s1.
      apply streamHandler_writes_own_key. congruence.
  - intros Heq.
    assert (Hk : cacheKey id k1 = cacheKey id k2).
    { unfold cacheKey. rewrite Heq. reflexivity. }
    split; [exact Hk|]. split.
    + intros streams s now Hnow. rewrite <- Hk.
      unfold getCache, setCache. cbn [snd cache clock fst].
      rewrite lookup_insert_eq. cbn [timestamp data].
      destruct (Z.gtb_spec (now - clock s) CACHE_TTL); [lia | reflexivity].
    + intros w1 w2 type1 type2 s streams Ht Hfst Hne.
      destruct (part001_leaves_fresh_entry w1 type1 id k1 s streams Ht Hfst Hne)
        as (item & Hf & <-).
      rewrite Hk in Hf.
      rewrite (part001_with_credential w2 type2 id k2 _ (truthy_prefix k1 k2 Heq Ht)).
      rewrite (resolve_hit w2 type2 id k2 _ item Hf). reflexivity.
Qed.

Lemma C1_cache_separates_key_prefixes_witness :
  (substring0 8 (js "AAAAAAAA-account") <> substring0 8 (js "BBBBBBBB-account")
   /\ cacheKey (js "tt0111161") (js "AAAAAAAA-account")
      <> cacheKey (js "tt0111161") (js "BBBBBBBB-account"))
  /\ (substring0 8 (js "ABCDEFGH1") = substring0 8 (js "ABCDEFGH2")
      /\ js "ABCDEFGH1" <> js "ABCDEFGH2"
      /\ cacheKey (js "tt0111161") (js "ABCDEFGH1")
         = cacheKey (js "tt0111161") (js "ABCDEFGH2")).
Proof.
  assert (H : substring0 8 (js "AAAAAAAA-account") <> substring0 8 (js "BBBBBBBB-account")).
  { vm_compute. discriminate. }
  assert (H' : substring0 8 (js "ABCDEFGH1") = substring0 8 (js "ABCDEFGH2"))
    by reflexivity.
  split.
  - split; [exact H|].
    exact (proj1 (proj1 (C1_cache_separates_key_prefixes (js "tt0111161") _ _) H)).
  - split; [exact H'|]. split; [vm_compute; discriminate|].
    exact (proj1 (proj2 (C1_cache_separates_key_prefixes (js "tt0111161") _ _) H')).
Defined.

(** C1, as stated, fails: two distinct credentials with the same first
    eight characters get the same key, and the second account is answered
    from the entry of the first, without any call to the provider, although
    the provider does not have the torrent cached for it. *)
Lemma C1_counterexample_shared_prefix :
  key_a <> key_b
  /\ cacheKey (js "tt0111161") key_a = cacheKey (js "tt0111161") key_b
  /\ (let first := streamHandler_part001 sample_world (js "movie") (js "tt0111161")
                     (Some (Config (Some key_a))) empty_state in
      let second := streamHandler_part001 sample_world (js "movie") (js "tt0111161")
                      (Some (Config (Some key_b))) (snd first) in
      fst first = Ok (Streams [mkStream sample_torrent None])
      /\ fst second = Ok (Streams [mkStream sample_torrent None])
      /\ trace (snd second) = trace (snd first)
      /\ fst (streamHandler_part001 sample_world (js "movie") (js "tt0111161")
                (Some (Config (Some key_b))) empty_state) = Ok (Streams [])).
Proof.
  split; [vm_compute; discriminate|].
  split; [reflexivity|].
  vm_compute. repeat split; reflexivity.
Qed.


Lemma miss_calls_provider_count w type id apiKey :
  (length (List.filter is_provider_call (miss_calls w type id apiKey)) <= 15)%nat.
Proof.
  unfold miss_calls. cbn [List.filter is_provider_call].
  rewrite List.filter_app, length_app.
  assert (H1 : List.filter is_provider_call
                 (search_calls w (params_of w type id (fst (parse_episode type id))
                                            (snd (parse_episode type id)))) = []).
  { unfold search_calls.
    destruct (w_jackett w); destruct (length _ =? 0)%nat; reflexivity. }
  rewrite H1. cbn [length Nat.add].
  etransitivity; [apply List.filter_length_le|].
  rewrite length_map, length_take. lia.
Qed.

Lemma miss_calls_tracker_calls w type id apiKey :
  List.filter is_tracker_call (miss_calls w type id apiKey)
  = let p := params_of w type id (fst (parse_episode type id)) (snd (parse_episode type id)) in
    if (length (jackett_output w p) =? 0)%nat
    then [CallTracker Rutor (TorrentSearcher.searchQuery p);
          CallTracker RuTracker (TorrentSearcher.searchQuery p);
          CallTracker Kinozal (TorrentSearcher.searchQuery p)]
    else [].
Proof.
  unfold miss_calls. cbn [List.filter is_tracker_call]. cbn zeta.
  rewrite List.filter_app.
  assert (H2 : forall l, List.filter is_tracker_call (map (provider_call apiKey) l) = []).
  { induction l as [|t l IH]; [reflexivity | exact IH]. }
  rewrite H2, app_nil_r. unfold search_calls. rewrite List.filter_app.
  destruct (w_jackett w); destruct (length _ =? 0)%nat; reflexivity.
Qed.

(** X5.  Whatever the request, the configuration and the answers of the
    network, both handlers return an answer (no exception leaves them),
    and a request makes at most fifteen calls to the provider. *)
Theorem handler_returns_with_bounded_provider_calls (w : world) (type id : jstring)
    (cfg : option config) (s : state) :
  (exists r s' calls,
      streamHandler_part001 w type id cfg s = (Ok r, s')
      /\ trace s' = trace s ++ calls
      /\ (length (List.filter is_provider_call calls) <= 15)%nat)
  /\ (exists r s' calls,
         streamHandler_part000 w type id cfg s = (Ok r, s')
         /\ trace s' = trace s ++ calls
         /\ (length (List.filter is_provider_call calls) <= 15)%nat).
Proof.
  assert (Hres : forall apiKey,
             exists r s' calls,
               resolve w type id (Some (Config (Some apiKey))) s = (Ok r, s')
               /\ trace s' = trace s ++ calls
               /\ (length (List.filter is_provider_call calls) <= 15)%nat).
  { intros apiKey.
    destruct (fresh_or_not s (cacheKey id apiKey)) as [[item Hf]|Hn].
    - exists (Streams (data item)), s, [].
      rewrite (resolve_hit w type id apiKey s item Hf), app_nil_r. cbn. auto with arith.
    - destruct (resolve_miss_case w type id apiKey s Hn) as (s' & E & T & _).
      exists (Streams (resolved w type id apiKey)), s', (miss_calls w type id apiKey).
      split; [exact E|]. split; [exact T|]. apply miss_calls_provider_count. }
  assert (Hnone : forall r, exists (r' : response) (s' : state) (calls : list event),
             (Ok r, s) = (Ok r', s') /\ trace s' = trace s ++ calls
             /\ (length (List.filter is_provider_call calls) <= 15)%nat).
  { intros r. exists r, s, []. rewrite app_nil_r. cbn. auto with arith. }
  split.
  - destruct (has_credential cfg) eqn:Hc.
    + destruct cfg as [[[apiKey|]]|]; try discriminate Hc.
      cbn [has_credential rdApiKey] in Hc.
      rewrite (part001_with_credential w type id apiKey s Hc).
      destruct (Hres apiKey) as (r & s' & calls & E & T & B).
      rewrite E. exists r, s', calls. auto.
    + rewrite (part001_requires_credential w type id cfg s Hc). apply Hnone.
  - unfold streamHandler_part000, try_catch.
    destruct cfg as [[[apiKey|]]|].
    + destruct (Hres apiKey) as (r & s' & calls & E & T & B).
      rewrite E. exists r, s', calls. auto.
    + apply Hnone.
    + apply Hnone.
Qed.

(** X6.  On a cache miss the trackers are asked only when Jackett is not
    configured, fails or finds nothing: when Jackett finds a torrent, its
    results are the candidates and no tracker is called; otherwise each of
    the three trackers is called once, in the order Rutor, RuTracker,
    Kinozal. *)
Theorem handler_prefers_jackett (w : world) (type id apiKey : jstring) (s : state) :
  truthy (Some apiKey) = true ->
  no_fresh_entry s (cacheKey id apiKey) ->
  exists s' calls,
    snd (streamHandler_part001 w type id (Some (Config (Some apiKey))) s) = s'
    /\ trace s' = trace s ++ calls
    /\ (forall t found,
           jackett_output w (params_of w type id (fst (parse_episode type id))
                                       (snd (parse_episode type id))) = t :: found ->
           List.filter is_tracker_call calls = []
           /\ fst (streamHandler_part001 w type id (Some (Config (Some apiKey))) s)
              = Ok (Streams (flat_map (emitted w apiKey type (fst (parse_episode type id))
                                               (snd (parse_episode type id)))
                                      (take 15 (t :: found)))))
    /\ (jackett_output w (params_of w type id (fst (parse_episode type id))
                                    (snd (parse_episode type id))) = [] ->
        List.filter is_tracker_call calls
        = [CallTracker Rutor (TorrentSearcher.searchQuery
                                (params_of w type id (fst (parse_episode type id))
                                           (snd (parse_episode type id))));
           CallTracker RuTracker (TorrentSearcher.searchQuery
                                    (params_of w type id (fst (parse_episode type id))
                                               (snd (parse_episode type id))));
           CallTracker Kinozal (TorrentSearcher.searchQuery
                                  (params_of w type id (fst (parse_episode type id))
                                             (snd (parse_episode type id))))]).
Proof.
  intros Ht Hn.
  destruct (part001_miss_run w type id apiKey s Ht Hn) as (s' & E & T & _).
  exists s', (miss_calls w type id apiKey). rewrite E. cbn [fst snd].
  split; [reflexivity|]. split; [exact T|].
  rewrite miss_calls_tracker_calls. cbn zeta. split.
  - intros t found Hj. rewrite Hj. cbn [length Nat.eqb]. split; [reflexivity|].
    unfold resolved, candidates. rewrite Hj. reflexivity.
  - intros Hj. rewrite Hj. reflexivity.
Qed.

(** X7.  The handler never stores an empty answer: every entry of the
    cache after a request was in the cache before it, or holds the
    non-empty list of streams that the request was answered with. *)
Theorem handler_stores_only_its_nonempty_answer (w : world) (type id : jstring)
    (cfg : option config) (s : state) (key : jstring) (item : cache_item) :
  cache (snd (streamHandler_part001 w type id cfg s)) !! key = Some item ->
  cache s !! key = Some item
  \/ (data item <> []
      /\ fst (streamHandler_part001 w type id cfg s) = Ok (Streams (data item))).
Proof.
  destruct (has_credential cfg) eqn:Hc.
  - destruct cfg as [[[apiKey|]]|]; try discriminate Hc.
    cbn [has_credential rdApiKey] in Hc.
    destruct (fresh_or_not s (cacheKey id apiKey)) as [[it Hf]|Hn].
    + rewrite (part001_with_credential w type id apiKey s Hc),
        (resolve_hit w type id apiKey s it Hf). auto.
    + destruct (part001_miss_run w type id apiKey s Hc Hn) as (s' & E & _ & C).
      rewrite E. cbn [fst snd]. rewrite C. intros Hl.
      destruct (resolved w type id apiKey) as [|st streams].
      * apply lookup_delete_Some in Hl as [_ Hl]. left. exact Hl.
      * apply lookup_insert_Some in Hl as [[_ <-]|[_ Hl]].
        -- right. cbn [data]. split; [discriminate | reflexivity].
        -- apply lookup_delete_Some in Hl as [_ Hl]. left. exact Hl.
  - rewrite (part001_requires_credential w type id cfg s Hc). auto.
Qed.

Lemma handler_answers_from_fresh_entry_witness :
  truthy (Some key_a) = true
  /\ fresh_entry state_after_first (cacheKey sample_id key_a) first_entry
  /\ streamHandler_part001 sample_world (js "movie") sample_id sample_config state_after_first
     = (Ok (Streams [mkStream sample_torrent None]), state_after_first).
Proof.
  assert (Ht : truthy (Some key_a) = true) by reflexivity.
  assert (Hf : fresh_entry state_after_first (cacheKey sample_id key_a) first_entry).
  { split; [vm_compute; reflexivity | vm_compute; discriminate]. }
  split; [exact Ht|]. split; [exact Hf|].
  exact (handler_answers_from_fresh_entry sample_world (js "movie") sample_id key_a
           state_after_first first_entry Ht Hf).
Defined.

Lemma no_fresh_entry_empty key : no_fresh_entry empty_state key.
Proof. unfold no_fresh_entry, empty_state. cbn [cache]. rewrite lookup_empty. exact I. Qed.

Lemma handler_resolves_on_miss_witness :
  (truthy (Some key_a) = true
   /\ no_fresh_entry empty_state (cacheKey sample_id key_a))
  /\ (exists s',
         streamHandler_part001 sample_world (js "movie") sample_id sample_config
           empty_state
         = (Ok (Streams [mkStream sample_torrent None]), s')
         /\ trace s'
            = [CallMetadata sample_id (js "movie");
               CallTracker Rutor (js "Movie Name 2020");
               CallTracker RuTracker (js "Movie Name 2020");
               CallTracker Kinozal (js "Movie Name 2020");
               CallProvider key_a (toUpperCase sample_hash)]
         /\ cache s' !! cacheKey sample_id key_a
            = Some (CacheItem [mkStream sample_torrent None] (clock s'))).
Proof.
  assert (Ht : truthy (Some key_a) = true) by reflexivity.
  pose proof (no_fresh_entry_empty (cacheKey sample_id key_a)) as Hn.
  split; [split; assumption|].
  destruct (handler_resolves_on_miss sample_world (js "movie") sample_id key_a
              empty_state Ht Hn) as [(s' & E & T & C & _) _].
  exists s'. split; [exact E|]. split; [exact T | exact C].
Defined.

Lemma handler_prefers_jackett_witness :
  (truthy (Some key_a) = true /\ no_fresh_entry empty_state (cacheKey sample_id key_a))
  /\ (exists s' calls,
         snd (streamHandler_part001 jackett_world (js "movie") sample_id sample_config
                empty_state) = s'
         /\ trace s' = trace empty_state ++ calls
         /\ List.filter is_tracker_call calls = []
         /\ fst (streamHandler_part001 jackett_world (js "movie") sample_id sample_config
                   empty_state)
            = Ok (Streams [mkStream sample_torrent None]))
  /\ (exists s' calls,
         snd (streamHandler_part001 sample_world (js "movie") sample_id sample_config
                empty_state) = s'
         /\ trace s' = trace empty_state ++ calls
         /\ List.filter is_tracker_call calls
            = [CallTracker Rutor (js "Movie Name 2020");
               CallTracker RuTracker (js "Movie Name 2020");
               CallTracker Kinozal (js "Movie Name 2020")]).
Proof.
  assert (Ht : truthy (Some key_a) = true) by reflexivity.
  pose proof (no_fresh_entry_empty (cacheKey sample_id key_a)) as Hn.
  split; [split; assumption|]. split.
  - destruct (handler_prefers_jackett jackett_world (js "movie") sample_id key_a
                empty_state Ht Hn) as (s' & calls & E & T & Hfound & _).
    destruct (Hfound sample_torrent [] eq_refl) as [Hnone Hfst].
    exists s', calls. split; [exact E|]. split; [exact T|]. split; [exact Hnone|].
    unfold sample_config. rewrite Hfst. vm_compute. reflexivity.
  - destruct (handler_prefers_jackett sample_world (js "movie") sample_id key_a
                empty_state Ht Hn) as (s' & calls & E & T & _ & Hnone).
    exists s', calls. split; [exact E|]. split; [exact T|].
    rewrite (Hnone eq_refl). vm_compute. reflexivity.
Defined.

Lemma handler_stores_only_its_nonempty_answer_witness :
  cache state_after_first !! cacheKey sample_id key_a = Some first_entry
  /\ (cache empty_state !! cacheKey sample_id key_a = Some first_entry
      \/ (data first_entry <> []
          /\ fst (streamHandler_part001 sample_world (js "movie") sample_id sample_config
                    empty_state) = Ok (Streams (data first_entry)))).
Proof.
  assert (H : cache state_after_first !! cacheKey sample_id key_a = Some first_entry)
    by (vm_compute; reflexivity).
  split; [exact H|].
  exact (handler_stores_only_its_nonempty_answer sample_world (js "movie") sample_id
           sample_config empty_state _ _ H).
Defined.

(** ** The file index *)

Lemma utils_match_loop_index ps files : forall k i,
  TorrentUtils.match_loop ps k files = Some i ->
  exists j f, i = (k + j + 1)%nat /\ files !! j = Some f /\ is_video_file f = true.
Proof.
  induction files as [|f files IH]; intros k i; cbn [TorrentUtils.match_loop];
    [discriminate|].
  destruct (TorrentUtils.isVideo (lower_name f)) eqn:Ev; cbn [negb].
  - destruct (matches ps (lower_name f)).
    + intros [= <-]. exists 0%nat, f. repeat split; [lia | exact Ev].
    + intros (j & g & -> & Hg & Hv)%IH. exists (S j), g. repeat split; [lia | exact Hg | exact Hv].
  - intros (j & g & -> & Hg & Hv)%IH. exists (S j), g. repeat split; [lia | exact Hg | exact Hv].
Qed.

Lemma utils_video_loop_index files : forall k i,
  TorrentUtils.video_loop k files = Some i ->
  exists j f, i = (k + j + 1)%nat /\ files !! j = Some f /\ is_video_file f = true.
Proof.
  induction files as [|f files IH]; intros k i; cbn [TorrentUtils.video_loop];
    [discriminate|].
  destruct (TorrentUtils.isVideo (lower_name f)) eqn:Ev.
  - intros [= <-]. exists 0%nat, f. repeat split; [lia | exact Ev].
  - intros (j & g & -> & Hg & Hv)%IH. exists (S j), g. repeat split; [lia | exact Hg | exact Hv].
Qed.

(** X8.  An index returned by [findEpisodeFile] is a valid 1-based index
    into the file list, and the file at it has a video extension. *)
Theorem findEpisodeFile_index_is_valid (files : list file) (season episode : jsnum)
    (i : nat) :
  findEpisodeFile files season episode = Some i ->
  (1 <= i <= length files)%nat
  /\ exists f, files !! (i - 1)%nat = Some f /\ is_video_file f = true.
Proof.
  unfold findEpisodeFile. intros H.
  assert (Hj : exists j f, i = (0 + j + 1)%nat /\ files !! j = Some f
                           /\ is_video_file f = true).
  { destruct (TorrentUtils.match_loop (TorrentUtils.patterns season episode) 0 files)
      as [idx|] eqn:E.
    - injection H as <-. eapply utils_match_loop_index, E.
    - eapply utils_video_loop_index, H. }
  destruct Hj as (j & f & -> & Hf & Hv).
  pose proof (lookup_lt_Some _ _ _ Hf) as Hlt.
  split; [lia|]. exists f. split; [|exact Hv].
  replace (0 + j + 1 - 1)%nat with j by lia. exact Hf.
Qed.

Lemma findEpisodeFile_index_is_valid_witness :
  findEpisodeFile [named "readme.txt"; named "Show.S01E02.mkv"] (Int 1) (Int 2) = Some 2%nat
  /\ (1 <= 2 <= length [named "readme.txt"; named "Show.S01E02.mkv"])%nat.
Proof.
  assert (H : findEpisodeFile [named "readme.txt"; named "Show.S01E02.mkv"] (Int 1) (Int 2)
              = Some 2%nat) by (vm_compute; reflexivity).
  split; [exact H|].
  exact (proj1 (findEpisodeFile_index_is_valid _ _ _ _ H)).
Defined.

Lemma addon_match_loop_index season episode files : forall k i,
  Addon.match_loop season episode k files = Ok (Some i) ->
  exists j f p, i = (k + j + 1)%nat /\ files !! j = Some f /\ path f = Some p
                /\ Addon.isVideo (toLowerCase p) = true.
Proof.
  induction files as [|f files IH]; intros k i; cbn [Addon.match_loop];
    [discriminate|].
  destruct (path f) as [p|] eqn:Ep; [|discriminate].
  destruct (Addon.isVideo (toLowerCase p)) eqn:Ev; cbn [negb].
  - destruct (Addon.patterns season episode) as [ps|e]; cbn [rbind]; [|discriminate].
    destruct (existsb _ ps).
    + intros [= <-]. exists 0%nat, f, p. repeat split; [lia | exact Ep | exact Ev].
    + intros (j & g & q & -> & Hg & Hq & Hv)%IH.
      exists (S j), g, q. repeat split; [lia | exact Hg | exact Hq | exact Hv].
  - intros (j & g & q & -> & Hg & Hq & Hv)%IH.
    exists (S j), g, q. repeat split; [lia | exact Hg | exact Hq | exact Hv].
Qed.

Lemma addon_video_loop_index files : forall k i,
  Addon.video_loop k files = Ok (Some i) ->
  exists j f p, i = (k + j + 1)%nat /\ files !! j = Some f /\ path f = Some p
                /\ Addon.isVideo (toLowerCase p) = true.
Proof.
  induction files as [|f files IH]; intros k i; cbn [Addon.video_loop];
    [discriminate|].
  destruct (path f) as [p|] eqn:Ep; [|discriminate].
  destruct (Addon.isVideo (toLowerCase p)) eqn:Ev.
  - intros [= <-]. exists 0%nat, f, p. repeat split; [lia | exact Ep | exact Ev].
  - intros (j & g & q & -> & Hg & Hq & Hv)%IH.
    exists (S j), g, q. repeat split; [lia | exact Hg | exact Hq | exact Hv].
Qed.

Lemma findVideoFile_index files season episode i :
  Addon.findVideoFile files season episode = Ok (Some i) ->
  exists j f p, i = (j + 1)%nat /\ files !! j = Some f /\ path f = Some p
                /\ Addon.isVideo (toLowerCase p) = true.
Proof.
  unfold Addon.findVideoFile.
  destruct (Addon.match_loop season episode 0 files) as [[idx|]|e] eqn:E; cbn [rbind].
  - intros [= <-]. apply addon_match_loop_index in E. exact E.
  - intros H. apply addon_video_loop_index in H. exact H.
  - discriminate.
Qed.

(** X9.  The file index of a stream that the handler emits is [null] or
    a valid 1-based index into the files of the first cached variant of
    the provider's answer, and the file at it has one of the extensions
    [.mkv], [.mp4], [.avi]; an index is set for a series only. *)
Theorem emitted_file_index_is_valid (w : world) (apiKey type : jstring)
    (season episode : option jsnum) (t : torrent) (st : stream) (i : nat) :
  In st (emitted w apiKey type season episode t) ->
  fileIdx st = Some i ->
  is_series type = true
  /\ exists variant others f name,
      w_provider w apiKey (interp (infoHash t)) = ProviderData (Some (variant :: others))
      /\ (1 <= i <= length variant)%nat
      /\ variant !! (i - 1)%nat = Some f
      /\ filename f = Some name
      /\ Addon.isVideo (toLowerCase name) = true.
Proof.
  unfold emitted, provider_files.
  destruct (w_provider w apiKey (interp (infoHash t))) as [e|[[|variant others]|]];
    try (intros []).
  destruct (is_series type).
  - destruct (Addon.findVideoFile _ season episode) as [idx|e] eqn:E; [|intros []].
    intros [<-|[]]. cbn [fileIdx mkStream]. intros ->.
    apply findVideoFile_index in E as (j & f & p & -> & Hf & Hp & Hv).
    split; [reflexivity|].
    rewrite list_lookup_fmap in Hf.
    destruct (variant !! j) as [rf|] eqn:Ej; [|discriminate Hf].
    cbn in Hf. injection Hf as <-. cbn [path] in Hp.
    pose proof (lookup_lt_Some _ _ _ Ej) as Hlt.
    exists variant, others, rf, p.
    replace (j + 1 - 1)%nat with j by lia.
    repeat split; [lia | lia | exact Ej | exact Hp | exact Hv].
  - intros [<-|[]]. cbn [fileIdx mkStream]. discriminate.
Qed.

(** X10.  [findVideoFile] returns, without throwing, on every file list
    whose files all have a path when the episode is a number; with a
    [null] episode it throws as soon as it meets a video file. *)
Theorem findVideoFile_returns (files : list file) (season : option jsnum) :
  (forall episode,
      Forall (fun f => path f <> None) files ->
      exists r, Addon.findVideoFile files season (Some episode) = Ok r)
  /\ (forall f p rest,
         path f = Some p -> Addon.isVideo (toLowerCase p) = true ->
         Addon.findVideoFile (f :: rest) season None = Throw TypeError).
Proof.
  split.
  - intros episode Hall.
    assert (Hm : forall k, exists r, Addon.match_loop season (Some episode) k files = Ok r).
    { induction Hall as [|f files Hf _ IH]; intros k; cbn [Addon.match_loop];
        [eexists; reflexivity|].
      destruct (path f) as [p|]; [|congruence].
      destruct (Addon.isVideo (toLowerCase p)); cbn [negb]; [|apply IH].
      cbn [Addon.patterns pad2 rbind].
      destruct (existsb _ _); [eexists; reflexivity | apply IH]. }
    assert (Hv : forall k, exists r, Addon.video_loop k files = Ok r).
    { clear Hm.
      induction Hall as [|f files Hf _ IH]; intros k; cbn [Addon.video_loop];
        [eexists; reflexivity|].
      destruct (path f) as [p|]; [|congruence].
      destruct (Addon.isVideo (toLowerCase p)); [eexists; reflexivity | apply IH]. }
    unfold Addon.findVideoFile.
    destruct (Hm 0%nat) as [[idx|] ->]; cbn [rbind]; [eexists; reflexivity | apply Hv].
  - intros f p rest Hp Hv. unfold Addon.findVideoFile.
    cbn [Addon.match_loop]. rewrite Hp, Hv. reflexivity.
Qed.

Lemma emitted_file_index_is_valid_witness :
  In (mkStream sample_torrent (Some 2%nat))
     (emitted series_world key_a (js "series") (Some (Int 1)) (Some (Int 2)) sample_torrent)
  /\ fileIdx (mkStream sample_torrent (Some 2%nat)) = Some 2%nat
  /\ is_series (js "series") = true.
Proof.
  assert (H : In (mkStream sample_torrent (Some 2%nat))
                 (emitted series_world key_a (js "series") (Some (Int 1)) (Some (Int 2))
                          sample_torrent)).
  { left. vm_compute. reflexivity. }
  split; [exact H|]. split; [reflexivity|].
  exact (proj1 (emitted_file_index_is_valid series_world key_a (js "series")
                  (Some (Int 1)) (Some (Int 2)) sample_torrent _ 2%nat H eq_refl)).
Defined.

Lemma findVideoFile_returns_witness :
  Forall (fun f => path f <> None) [named "Show.S01E01.mkv"; named "readme.txt"]
  /\ exists r, Addon.findVideoFile [named "Show.S01E01.mkv"; named "readme.txt"]
                                   (Some (Int 1)) (Some (Int 7)) = Ok r.
Proof.
  assert (H : Forall (fun f => path f <> None) [named "Show.S01E01.mkv"; named "readme.txt"]).
  { repeat constructor; discriminate. }
  split; [exact H|].
  exact (proj1 (findVideoFile_returns _ (Some (Int 1))) (Int 7) H).
Defined.

(** ** Deduplication and ranking together *)

Lemma removeDuplicates_from_fixed seen torrents :
  NoDup (omap hash_key torrents) ->
  (forall k, In k (omap hash_key torrents) -> k ∉ seen) ->
  removeDuplicates_from seen torrents = torrents.
Proof.
  revert seen. induction torrents as [|t rest IH]; intros seen Hnd Hseen;
    cbn [removeDuplicates_from]; [reflexivity|].
  rewrite omap_key_cons in Hnd, Hseen.
  destruct (truthy (infoHash t)) eqn:Et; cbn [negb].
  - rewrite (hash_key_truthy t Et) in Hnd, Hseen.
    apply NoDup_cons in Hnd as [Hnotin Hnd].
    destruct (decide (toUpperCase (default [] (infoHash t)) ∈ seen)) as [Hin|Hout].
    + exfalso. apply (Hseen _ (or_introl eq_refl)), Hin.
    + f_equal. apply IH; [exact Hnd|].
      intros k Hk. rewrite elem_of_union, elem_of_singleton.
      intros [->|Hks].
      * apply Hnotin, list_elem_of_In, Hk.
      * apply (Hseen k); [right; exact Hk | exact Hks].
  - rewrite (hash_key_falsy t Et) in Hnd, Hseen. f_equal. apply IH; assumption.
Qed.

Lemma removeDuplicates_fixed torrents :
  NoDup (omap hash_key torrents) -> removeDuplicates torrents = torrents.
Proof.
  intros H. apply removeDuplicates_from_fixed; [exact H|].
  intros k _. apply not_elem_of_empty.
Qed.

(** X11.  [removeDuplicates] is idempotent, leaves a list without
    duplicate hashes as it is, and never lengthens a list. *)
Theorem removeDuplicates_idempotent (torrents : list torrent) :
  removeDuplicates (removeDuplicates torrents) = removeDuplicates torrents
  /\ (NoDup (omap hash_key torrents) -> removeDuplicates torrents = torrents)
  /\ (length (removeDuplicates torrents) <= length torrents)%nat.
Proof.
  split; [|split].
  - apply removeDuplicates_fixed. apply removeDuplicates_from_NoDup.
  - apply removeDuplicates_fixed.
  - apply sublist_length, removeDuplicates_from_sublist.
Qed.

Lemma removeDuplicates_idempotent_witness :
  NoDup (omap hash_key [cyc_a; cyc_b; cyc_c])
  /\ removeDuplicates [cyc_a; cyc_b; cyc_c] = [cyc_a; cyc_b; cyc_c].
Proof.
  assert (H : NoDup (omap hash_key [cyc_a; cyc_b; cyc_c])).
  { apply (bool_decide_unpack _). vm_compute. exact I. }
  split; [exact H|].
  exact (proj1 (proj2 (removeDuplicates_idempotent [cyc_a; cyc_b; cyc_c])) H).
Defined.

(** X12.  Ranking a deduplicated list gives the same candidates in
    another order and brings no duplicate back: deduplicating the ranked
    list again changes nothing. *)
Theorem ranking_keeps_deduplicated (torrents : list torrent) :
  Permutation (sortByPriority (removeDuplicates torrents)) (removeDuplicates torrents)
  /\ NoDup (omap hash_key (sortByPriority (removeDuplicates torrents)))
  /\ removeDuplicates (sortByPriority (removeDuplicates torrents))
     = sortByPriority (removeDuplicates torrents).
Proof.
  assert (Hp : Permutation (sortByPriority (removeDuplicates torrents))
                           (removeDuplicates torrents))
    by apply array_sort_perm.
  assert (Hn : NoDup (omap hash_key (sortByPriority (removeDuplicates torrents)))).
  { rewrite Hp. apply removeDuplicates_from_NoDup. }
  split; [exact Hp|]. split; [exact Hn|].
  apply removeDuplicates_fixed, Hn.
Qed.

(** Sorting with a comparator that is the difference of a key on the
    elements that are sorted. *)
Section SortOn.
Context {A : Type} (compare : A -> A -> Z) (key : A -> Z) (P : A -> Prop).
Hypothesis compare_key_on : forall a b, P a -> P b -> compare a b = key b - key a.




End SortOn.




(** ** Quality labels *)

Lemma startsWith_app s p q : startsWith s (p ++ q) = true -> startsWith s p = true.
Proof.
  revert s. induction p as [|c p IH]; intros s; [destruct s; reflexivity|].
  destruct s as [|d s]; cbn [app startsWith]; [discriminate|].
  intros [-> H]%andb_true_iff. cbn [andb]. apply IH, H.
Qed.

(** A text that contains a keyword contains every prefix of it. *)
Lemma includes_app s p q : includes s (p ++ q) = true -> includes s p = true.
Proof.
  induction s as [|c s IH]; cbn [includes].
  - rewrite !orb_false_r. apply startsWith_app.
  - intros [H|H]%orb_true_iff.
    + rewrite (startsWith_app _ _ _ H). reflexivity.
    + rewrite (IH H). apply orb_true_r.
Qed.

Lemma first_keyword_app t b1 b2 :
  first_keyword t (b1 ++ b2)
  = match first_keyword t b1 with
    | Some v => Some v
    | None => first_keyword t b2
    end.
Proof.
  induction b1 as [|[kws v] b1 IH]; cbn [app first_keyword]; [reflexivity|].
  destruct (existsb _ kws); [reflexivity | exact IH].
Qed.

Lemma first_keyword_Some t branches v :
  first_keyword t branches = Some v ->
  exists kws, In (kws, v) branches /\ existsb (fun kw => includes t kw) kws = true.
Proof.
  induction branches as [|[kws u] rest IH]; cbn [first_keyword]; [discriminate|].
  destruct (existsb (fun kw => includes t kw) kws) eqn:E.
  - intros [= <-]. exists kws. split; [left; reflexivity | exact E].
  - intros (k & Hin & Hk)%IH. exists k. split; [right; exact Hin | exact Hk].
Qed.

Lemma existsb_includes_false t kws kw :
  existsb (fun kw => includes t kw) kws = false -> In kw kws -> includes t kw = false.
Proof.
  intros H Hin. destruct (includes t kw) eqn:E; [|reflexivity].
  rewrite <- H. symmetry. apply existsb_exists. exists kw. auto.
Qed.

(** X14.  A title that [isGoodQuality] accepts is never parsed as a [CAM]
    or [TS] source by [parseQuality], and its resolution or its source is
    known. *)
Theorem isGoodQuality_excludes_cam_and_ts (title : jstring) :
  isGoodQuality title = true ->
  q_source (parseQuality title) <> Some (js "CAM")
  /\ q_source (parseQuality title) <> Some (js "TS")
  /\ (resolution (parseQuality title) <> None \/ q_source (parseQuality title) <> None).
Proof.
  unfold isGoodQuality. cbn zeta.
  intros [Hgood Hbad]%andb_true_iff. apply negb_true_iff in Hbad.
  set (t := toLowerCase title) in *.
  assert (Hno : forall kw, In kw badKeywords -> includes t kw = false)
    by (intros kw; apply existsb_includes_false, Hbad).
  assert (Hcam : includes t (js "cam") = false) by (apply Hno; cbn; auto).
  assert (Hts : includes t (js "ts") = false) by (apply Hno; cbn; auto).
  assert (Hcamrip : includes t (js "camrip") = false).
  { destruct (includes t (js "camrip")) eqn:E; [|reflexivity].
    rewrite <- Hcam. symmetry. apply (includes_app t (js "cam") (js "rip")), E. }
  assert (Htele : includes t (js "telesync") = false) by (apply Hno; cbn; auto 10).
  assert (Hsrc : forall v,
             first_keyword t source_branches = Some v ->
             v <> js "CAM" /\ v <> js "TS").
  { intros v Hv. unfold source_branches in Hv. cbn [first_keyword existsb] in Hv.
    rewrite Hcam, Hcamrip, Hts, Htele in Hv. cbn [orb] in Hv.
    repeat match type of Hv with
           | context [if ?b then _ else _] => destruct b
           end;
      try discriminate Hv; injection Hv as <-; split; intros E; vm_compute in E;
      discriminate E. }
  unfold parseQuality. fold t. cbn [q_source resolution].
  split; [|split].
  - intros Hv. apply Hsrc in Hv as [Hv _]. apply Hv. reflexivity.
  - intros Hv. apply Hsrc in Hv as [_ Hv]. apply Hv. reflexivity.
  - destruct (first_keyword t resolution_branches) eqn:Er; [left; discriminate|].
    destruct (first_keyword t source_branches) eqn:Es; [right; discriminate|].
    exfalso. apply first_keyword_None in Er, Es.
    assert (Hr : forall kw, In kw (flat_map fst resolution_branches) -> includes t kw = false)
      by (intros kw; apply existsb_includes_false, Er).
    assert (Hs : forall kw, In kw (flat_map fst source_branches) -> includes t kw = false)
      by (intros kw; apply existsb_includes_false, Es).
    unfold goodKeywords in Hgood. cbn [existsb] in Hgood.
    rewrite !Hr, !Hs in Hgood by (cbn; auto 20). discriminate Hgood.
Qed.

Lemma isGoodQuality_excludes_cam_and_ts_witness :
  isGoodQuality (js "Movie.Name.2020.1080p.BluRay.x264") = true
  /\ q_source (parseQuality (js "Movie.Name.2020.1080p.BluRay.x264")) <> Some (js "CAM").
Proof.
  assert (H : isGoodQuality (js "Movie.Name.2020.1080p.BluRay.x264") = true)
    by (vm_compute; reflexivity).
  split; [exact H|].
  exact (proj1 (isGoodQuality_excludes_cam_and_ts _ H)).
Defined.

Lemma first_keyword_plain_label t branches v :
  forallb (fun b => plain_label (snd b)) branches = true ->
  first_keyword t branches = Some v -> plain_label v = true.
Proof.
  intros Hall (kws & Hin & _)%first_keyword_Some.
  rewrite forallb_forall in Hall. apply (Hall _ Hin).
Qed.

Lemma push_if_plain (label : option jstring) :
  (forall v, label = Some v -> plain_label v = true) ->
  (label = None /\ push_if label = [])
  \/ (exists v, label = Some v /\ push_if label = [v] /\ plain_label v = true).
Proof.
  intros H. destruct label as [v|]; [right|left; auto].
  pose proof (H v eq_refl) as Hv. exists v. repeat split; [|exact Hv].
  unfold push_if. destruct v; [discriminate Hv | reflexivity].
Qed.

Lemma join_plain_head sep v rest :
  plain_label v = true ->
  exists c tl, join sep (v :: rest) = c :: tl /\ c <> 85%N.
Proof.
  intros Hv. destruct v as [|c v]; [discriminate Hv|].
  cbn [plain_label] in Hv. apply negb_true_iff, N.eqb_neq in Hv.
  destruct rest; cbn [join app]; eauto.
Qed.

(** X15.  [getQualityString] never returns the empty string, and it
    returns ['Unknown'] exactly when [parseQuality] finds no resolution,
    no source and no codec and the title has no HDR token; the audio label
    plays no part. *)
Theorem getQualityString_unknown (title : jstring) :
  getQualityString title <> []
  /\ (getQualityString title = js "Unknown"
      <-> resolution (parseQuality title) = None
          /\ q_source (parseQuality title) = None
          /\ codec (parseQuality title) = None
          /\ hdr (parseQuality title) = false).
Proof.
  unfold getQualityString. cbn zeta.
  set (q := parseQuality title).
  assert (Hr := push_if_plain (resolution q)
                  (fun v => first_keyword_plain_label _ resolution_branches v eq_refl)).
  assert (Hs := push_if_plain (q_source q)
                  (fun v => first_keyword_plain_label _ source_branches v eq_refl)).
  assert (Hc := push_if_plain (codec q)
                  (fun v => first_keyword_plain_label _ codec_branches v eq_refl)).
  assert (Hknown : forall v rest,
             plain_label v = true ->
             default [] (or_else (Some (join (js " | ") (v :: rest))) (Some (js "Unknown")))
             <> []
             /\ default [] (or_else (Some (join (js " | ") (v :: rest))) (Some (js "Unknown")))
                <> js "Unknown").
  { intros v rest Hv.
    destruct (join_plain_head (js " | ") v rest Hv) as (c & tl & -> & Hc85).
    cbn. split; [discriminate|]. intros [= E]. apply Hc85, E. }
  destruct Hr as [[Er ->]|(vr & Er & -> & Pr)].
  2:{ destruct (Hknown vr (push_if (q_source q) ++ push_if (codec q)
                             ++ (if hdr q then [js "HDR"] else [])) Pr) as [H1 H2].
      split; [exact H1|]. split; [intros E; destruct (H2 E)|].
      intros [E _]. congruence. }
  destruct Hs as [[Es ->]|(vs & Es & -> & Ps)].
  2:{ destruct (Hknown vs (push_if (codec q) ++ (if hdr q then [js "HDR"] else [])) Ps)
        as [H1 H2].
      split; [exact H1|]. split; [intros E; destruct (H2 E)|].
      intros (_ & E & _). congruence. }
  destruct Hc as [[Ec ->]|(vc & Ec & -> & Pc)].
  2:{ destruct (Hknown vc (if hdr q then [js "HDR"] else []) Pc) as [H1 H2].
      split; [exact H1|]. split; [intros E; destruct (H2 E)|].
      intros (_ & _ & E & _). congruence. }
  destruct (hdr q) eqn:Eh.
  - destruct (Hknown (js "HDR") [] eq_refl) as [H1 H2].
    split; [exact H1|]. split; [intros E; destruct (H2 E)|].
    intros (_ & _ & _ & E). discriminate E.
  - cbn. split; [discriminate|]. split; auto.
Qed.

(** X16.  The quality label that the Jackett searcher attaches to a
    title is the resolution that [parseQuality] finds, whenever it finds
    one; the label of the tracker searcher is the same unless the title
    says [uhd], which the tracker searcher does not know. *)
Theorem extractQuality_agrees_with_parseQuality (title r : jstring) :
  resolution (parseQuality title) = Some r ->
  JackettSearcher.extractQuality title = r
  /\ (includes (toLowerCase title) (js "uhd") = false ->
      TorrentSearcher.extractQuality title = r).
Proof.
  unfold parseQuality. cbn [resolution]. intros H. split.
  - unfold JackettSearcher.extractQuality.
    change JackettSearcher.quality_branches
      with (resolution_branches ++ skipn 4 JackettSearcher.quality_branches).
    rewrite first_keyword_app, H. reflexivity.
  - intros Huhd. unfold TorrentSearcher.extractQuality.
    assert (E : first_keyword (toLowerCase title) TorrentSearcher.quality_branches
                = match first_keyword (toLowerCase title) resolution_branches with
                  | Some v => Some v
                  | None => first_keyword (toLowerCase title)
                              (skipn 4 TorrentSearcher.quality_branches)
                  end).
    { rewrite <- first_keyword_app.
      unfold TorrentSearcher.quality_branches, resolution_branches.
      cbn [skipn app first_keyword existsb]. rewrite Huhd. reflexivity. }
    rewrite E, H. reflexivity.
Qed.

Lemma extractQuality_agrees_with_parseQuality_witness :
  resolution (parseQuality (js "Movie.Name.2020.1080p.WEB-DL")) = Some (js "1080p")
  /\ JackettSearcher.extractQuality (js "Movie.Name.2020.1080p.WEB-DL") = js "1080p".
Proof.
  assert (H : resolution (parseQuality (js "Movie.Name.2020.1080p.WEB-DL"))
              = Some (js "1080p")) by (vm_compute; reflexivity).
  split; [exact H|].
  exact (proj1 (extractQuality_agrees_with_parseQuality _ _ H)).
Defined.

(** ** The hashes of the candidates *)

Lemma hex_class_sound_exact c :
  cc_match false hex_class c = true -> is_upper_hex (upper_cu c) = true.
Proof.
  intros H. destruct (N.ltb_spec c 128) as [Hlt|Hge].
  - revert c Hlt H.
    apply (below_128_impl (cc_match false hex_class)
                          (fun c => is_upper_hex (upper_cu c))).
    vm_compute. reflexivity.
  - unfold cc_match, hex_class in H. cbn [existsb xorb item_match andb] in H.
    rewrite !in_range_above in H by lia. discriminate H.
Qed.

(** Whatever a pattern made of a literal text and the group of forty
    hexadecimal digits captures is, once upper-cased, an info hash. *)
Lemma captured_hash_shape ic pre st0 st :
  In st (run ic (RCat (lit pre) (RGroup (RRepeat 40 hex_class))) st0) ->
  upper_hex40 (toUpperCase (group1 st)) = true.
Proof.
  cbn [run]. intros (st1 & _ & Hin)%in_flat_map.
  apply in_map_iff in Hin as (st2 & <- & Hin).
  apply repeat_run_spec in Hin as (p & Hs & Hl & Hf).
  unfold group1. cbn [m_cap]. change (default [] (Some ?m)) with m.
  rewrite Hs, length_app, Nat.add_sub, take_app_length.
  unfold upper_hex40, toUpperCase. rewrite length_map, Hl. cbn [Nat.eqb andb].
  apply forallb_forall. intros c (y & <- & Hy)%in_map_iff.
  rewrite List.Forall_forall in Hf. specialize (Hf y Hy). cbn beta in Hf.
  destruct ic; [apply hex_class_sound | apply hex_class_sound_exact]; exact Hf.
Qed.

Section JackettResults.
Variable formatSize : option Z -> jstring.

Lemma map_item_Some it t :
  JackettSearcher.map_item formatSize it = Ok (Some t) ->
  exists h,
    extractInfoHash (JackettSearcher.MagnetUri it) = Some h
    /\ infoHash t = Some h
    /\ JackettSearcher.Title it = Some (title t)
    /\ quality t = JackettSearcher.extractQuality (title t)
    /\ seeders t = default 0 (JackettSearcher.Seeders it).
Proof.
  unfold JackettSearcher.map_item, extractInfoHash. cbn zeta.
  destruct (truthy (JackettSearcher.MagnetUri it)); cbn [negb truthy]; [|discriminate].
  destruct (exec true infoHash_re (default [] (JackettSearcher.MagnetUri it))) as [st|];
    [|discriminate].
  destruct (truthy (Some (toUpperCase (group1 st)))); cbn [negb]; [|discriminate].
  destruct (JackettSearcher.Title it) as [ttl|]; [|discriminate].
  intros [= <-]. cbn [infoHash title quality seeders]. eauto 10.
Qed.

Lemma map_items_In items mapped t :
  JackettSearcher.map_items formatSize items = Ok mapped ->
  In (Some t) mapped ->
  exists it, In it items /\ JackettSearcher.map_item formatSize it = Ok (Some t).
Proof.
  revert mapped. induction items as [|it items IH]; intros mapped;
    cbn [JackettSearcher.map_items].
  - intros [= <-] [].
  - destruct (JackettSearcher.map_item formatSize it) as [r|] eqn:E; [|discriminate].
    cbn [rbind].
    destruct (JackettSearcher.map_items formatSize items) as [rs|]; [|discriminate].
    cbn [rbind]. intros [= <-] [->|Hin].
    + exists it. split; [left; reflexivity | exact E].
    + destruct (IH rs eq_refl Hin) as (it' & Hit & Hm).
      exists it'. split; [right; exact Hit | exact Hm].
Qed.

Lemma map_items_Throw items it :
  In it items ->
  JackettSearcher.map_item formatSize it = Throw TypeError ->
  exists e, JackettSearcher.map_items formatSize items = Throw e.
Proof.
  induction items as [|x items IH]; intros []; cbn [JackettSearcher.map_items].
  - subst x. intros ->. eauto.
  - intros Ht. destruct (JackettSearcher.map_item formatSize x); cbn [rbind]; [|eauto].
    destruct (IH H Ht) as [e ->]. eauto.
Qed.

End JackettResults.

(** X17.  Every torrent that the Jackett searcher returns comes from a
    hit of the answer, carries the info hash found in the hit's magnet
    link, forty upper-case hexadecimal digits, and the hit's title; hits
    without such a hash are left out.  One hit that has a hash but no
    title makes the searcher return nothing at all. *)
Theorem jackett_results_carry_hashes (formatSize : option Z -> jstring)
    (Results : option (list JackettSearcher.item)) :
  (forall t,
      In t (JackettSearcher.search_results formatSize Results) ->
      exists items it h,
        Results = Some items /\ In it items
        /\ extractInfoHash (JackettSearcher.MagnetUri it) = Some h
        /\ infoHash t = Some h
        /\ upper_hex40 h = true
        /\ JackettSearcher.Title it = Some (title t))
  /\ (forall items it h,
         Results = Some items -> In it items ->
         extractInfoHash (JackettSearcher.MagnetUri it) = Some h ->
         JackettSearcher.Title it = None ->
         JackettSearcher.search_results formatSize Results = []).
Proof.
  split.
  - intros t. unfold JackettSearcher.search_results, JackettSearcher.results_of.
    destruct Results as [items|]; [|intros []].
    destruct (JackettSearcher.map_items formatSize _) as [mapped|e] eqn:E;
      cbn [rbind rcatch]; [|intros []].
    intros Hin.
    assert (Hs : In (Some t) mapped).
    { apply list_elem_of_In. apply list_elem_of_In in Hin.
      apply list_elem_of_omap in Hin as (o & Ho & Hid). cbn in Hid. subst o. exact Ho. }
    destruct (map_items_In formatSize _ mapped t E Hs) as (it & Hit & Hm).
    apply List.filter_In in Hit as [Hit _].
    apply map_item_Some in Hm as (h & Hh & Hi & Ht & _).
    exists items, it, h. repeat split; try assumption.
    eapply extractInfoHash_shape, Hh.
  - intros items it h -> Hit Hh Ht.
    unfold JackettSearcher.search_results, JackettSearcher.results_of.
    assert (Hthrow : JackettSearcher.map_item formatSize it = Throw TypeError).
    { unfold JackettSearcher.map_item. cbn zeta.
      unfold extractInfoHash in Hh.
      destruct (truthy (JackettSearcher.MagnetUri it)); cbn [negb] in Hh; [|discriminate Hh].
      destruct (exec true infoHash_re (default [] (JackettSearcher.MagnetUri it)))
        as [st|] eqn:Ex; [|discriminate Hh].
      assert (Hup : upper_hex40 (toUpperCase (group1 st)) = true).
      { apply exec_from_Some in Ex as (prev & s0 & Hin).
        eapply captured_hash_shape, Hin. }
      assert (Htr : truthy (Some (toUpperCase (group1 st))) = true).
      { destruct (toUpperCase (group1 st)); [discriminate Hup | reflexivity]. }
      rewrite Htr, Ht. reflexivity. }
    assert (Hf : In it (List.filter
                          (fun it => truthy (or_else (JackettSearcher.MagnetUri it)
                                                     (JackettSearcher.Link it))) items)).
    { apply List.filter_In. split; [exact Hit|].
      unfold extractInfoHash in Hh. unfold or_else.
      destruct (truthy (JackettSearcher.MagnetUri it)) eqn:Em; [exact Em | discriminate Hh]. }
    destruct (map_items_Throw formatSize _ it Hf Hthrow) as [e ->]. reflexivity.
Qed.

Lemma jackett_results_carry_hashes_witness :
  In (Torrent (js "Movie Name 2020 1080p") (Some (toUpperCase sample_hash))
              (js "Unknown") 5 (js "1080p") (js "rutor"))
     (JackettSearcher.search_results no_size (Some [sample_item]))
  /\ upper_hex40 (toUpperCase sample_hash) = true.
Proof.
  assert (H : In (Torrent (js "Movie Name 2020 1080p") (Some (toUpperCase sample_hash))
                          (js "Unknown") 5 (js "1080p") (js "rutor"))
                 (JackettSearcher.search_results no_size (Some [sample_item]))).
  { left. vm_compute. reflexivity. }
  split; [exact H|].
  destruct (proj1 (jackett_results_carry_hashes no_size (Some [sample_item])) _ H)
    as (items & it & h & _ & _ & _ & Hh & Hup & _).
  cbn [infoHash] in Hh. injection Hh as <-. exact Hup.
Defined.





(** ** When [createMagnetLink] throws *)

Lemma encodeURIComponent_ill_formed s :
  well_formed s = false -> encodeURIComponent s = Throw URIError.
Proof.
  remember (length s) as n eqn:Hn.
  revert s Hn. induction n as [n IH] using lt_wf_ind. intros s Hn.
  destruct s as [|c s]; [discriminate|]. intros Hwf.
  cbn [encodeURIComponent well_formed] in *.
  destruct (uri_unescaped c) eqn:Hu.
  - apply uri_unescaped_not_surrogate in Hu as [Hl Hh]. rewrite Hl, Hh in Hwf.
    rewrite (IH (length s)) with (s := s); [reflexivity | simpl in Hn; lia | reflexivity | exact Hwf].
  - destruct (is_low_surrogate c); [reflexivity|].
    destruct (is_high_surrogate c).
    + destruct s as [|d s]; [reflexivity|].
      destruct (is_low_surrogate d); [|reflexivity]. cbn [andb] in Hwf.
      rewrite (IH (length s)) with (s := s);
        [reflexivity | simpl in Hn; lia | reflexivity | exact Hwf].
    + rewrite (IH (length s)) with (s := s);
        [reflexivity | simpl in Hn; lia | reflexivity | exact Hwf].
Qed.

Lemma append_trackers_ill_formed magnet trackers :
  forallb well_formed trackers = false ->
  append_trackers magnet trackers = Throw URIError.
Proof.
  revert magnet. induction trackers as [|t ts IH]; intros magnet; cbn [forallb append_trackers].
  - discriminate.
  - destruct (well_formed t) eqn:Et; cbn [andb].
    + destruct (encodeURIComponent_well_formed t Et) as [e ->]. cbn [rbind]. apply IH.
    + intros _. rewrite (encodeURIComponent_ill_formed t Et). reflexivity.
Qed.

(** X19.  [createMagnetLink] returns a link exactly when the display
    name and every tracker are well-formed UTF-16, and throws [URIError]
    otherwise; it does not look at the hash, which need not be one. *)
Theorem createMagnetLink_throws_iff_ill_formed (h : jstring) (name : option jstring)
    (trackers : list jstring) :
  ((exists m, createMagnetLink h name trackers = Ok m)
   <-> well_formed_opt name = true /\ forallb well_formed trackers = true)
  /\ (createMagnetLink h name trackers = Throw URIError
      <-> well_formed_opt name = false \/ forallb well_formed trackers = false).
Proof.
  assert (Hbad : well_formed_opt name = false \/ forallb well_formed trackers = false ->
                 createMagnetLink h name trackers = Throw URIError).
  { intros Hcase. unfold createMagnetLink.
    destruct (well_formed_opt name) eqn:En.
    - destruct Hcase as [Hcase|Ht]; [discriminate Hcase|].
      assert (Hall : forallb well_formed (defaultTrackers ++ trackers) = false).
      { rewrite forallb_app, Ht. apply andb_false_r. }
      destruct (truthy name) eqn:Et.
      + destruct name as [s|]; [|discriminate Et]. cbn [well_formed_opt] in En.
        destruct (encodeURIComponent_well_formed s En) as [e He].
        change (default [] (Some s)) with s. rewrite He. cbn [rbind].
        apply append_trackers_ill_formed, Hall.
      + cbn [rbind]. apply append_trackers_ill_formed, Hall.
    - destruct name as [s|]; [|discriminate En]. cbn [well_formed_opt] in En.
      assert (Et : truthy (Some s) = true) by (destruct s; [discriminate En | reflexivity]).
      rewrite Et. change (default [] (Some s)) with s.
      rewrite (encodeURIComponent_ill_formed s En). reflexivity. }
  assert (Hgood : well_formed_opt name = true /\ forallb well_formed trackers = true ->
                  exists m, createMagnetLink h name trackers = Ok m).
  { intros [Hn Ht]. apply createMagnetLink_returns; assumption. }
  split; split.
  - intros [m Hm].
    destruct (well_formed_opt name) eqn:En, (forallb well_formed trackers) eqn:Et; auto;
      rewrite Hbad in Hm by auto; discriminate Hm.
  - exact Hgood.
  - intros Hthrow.
    destruct (well_formed_opt name) eqn:En, (forallb well_formed trackers) eqn:Et; auto.
    destruct (Hgood (conj eq_refl eq_refl)) as [m Hm]. congruence.
  - exact Hbad.
Qed.

(** ** Episode ids: printing and [parseInt] *)

Lemma parse_digits_step c k s a :
  digit_value 10 c = Some k ->
  parse_digits 10 (Some a) (c :: s) = parse_digits 10 (Some (a * 10 + k)%N) s.
Proof. intros H. cbn [parse_digits]. rewrite H. reflexivity. Qed.

Lemma js_String c s : js (String c s) = N_of_ascii c :: js s.
Proof. reflexivity. Qed.

Lemma parse_digits_uint d a :
  parse_digits 10 (Some a) (js (NilEmpty.string_of_uint d)) = Some (decimal_value a d).
Proof.
  revert a. induction d; intros a;
    [destruct a; reflexivity | ..];
    cbn [NilEmpty.string_of_uint]; rewrite js_String;
    (erewrite parse_digits_step by reflexivity);
    rewrite IHd; destruct a as [|p]; try reflexivity;
    cbn [decimal_value N.mul N.add Pos.of_uint_acc];
    match goal with
    | |- Some (decimal_value ?x d) = Some (N.pos (Pos.of_uint_acc d ?q)) =>
        replace x with (N.pos q) by (vm_compute (N_of_ascii _); lia)
    end; reflexivity.
Qed.

Lemma skip_space_nonspace c s : is_space c = false -> skip_space (c :: s) = c :: s.
Proof. intros H. cbn [skip_space]. rewrite H. reflexivity. Qed.

Lemma parseInt_uint d :
  d <> Decimal.Nil ->
  parseInt (js (NilEmpty.string_of_uint d)) = Int (Z.of_N (to_double (Pos.of_uint d)))
  /\ parseInt (45%N :: js (NilEmpty.string_of_uint d))
     = Int (- Z.of_N (to_double (Pos.of_uint d))).
Proof.
  intros Hd. destruct d as [|u|u|u|u|u|u|u|u|u|u]; [contradiction | ..].
  1: destruct u; [split; reflexivity | ..].
  all: cbn [NilEmpty.string_of_uint]; rewrite ?js_String.
  all: match goal with |- context [js (NilEmpty.string_of_uint ?v)] =>
         remember (js (NilEmpty.string_of_uint v)) as rest eqn:Hrest end.
  all: unfold parseInt.
  all: vm_compute (N_of_ascii _).
  all: rewrite !skip_space_nonspace by reflexivity.
  all: cbv beta iota zeta.
  all: cbn [parse_digits].
  all: vm_compute (digit_value _ _); cbv beta iota.
  all: subst rest; rewrite parse_digits_uint; split; reflexivity.
Qed.

(** A natural number below 2^53 is a double. *)
Lemma to_double_safe (n : N) : (n < 2 ^ 53)%N -> to_double n = n.
Proof.
  intros Hn. unfold to_double.
  assert (Hs : (N.size n <= 53)%N).
  { destruct (N.eq_dec n 0%N) as [->|Hz]; [cbn; lia|].
    rewrite N.size_log2 by exact Hz.
    apply N.le_succ_l, N.log2_lt_pow2; lia. }
  destruct (N.leb_spec (N.size n) 53); [reflexivity | lia].
Qed.

Lemma parseInt_num_toString z :
  safe_integer z -> parseInt (num_toString (Int z)) = Int z.
Proof.
  unfold safe_integer. intros Hz.
  destruct z as [|p|p]; [reflexivity | |].
  - change (num_toString (Int (Z.pos p)))
      with (js (NilZero.string_of_uint (Pos.to_uint p))).
    pose proof (DecimalPos.Unsigned.to_uint_nonnil p) as Hnil.
    replace (NilZero.string_of_uint (Pos.to_uint p))
      with (NilEmpty.string_of_uint (Pos.to_uint p))
      by (destruct (Pos.to_uint p); [contradiction | reflexivity ..]).
    rewrite (proj1 (parseInt_uint _ Hnil)), DecimalPos.Unsigned.of_to.
    rewrite to_double_safe by lia. reflexivity.
  - change (num_toString (Int (Z.neg p)))
      with (js (String "-" (NilZero.string_of_uint (Pos.to_uint p)))).
    pose proof (DecimalPos.Unsigned.to_uint_nonnil p) as Hnil.
    replace (NilZero.string_of_uint (Pos.to_uint p))
      with (NilEmpty.string_of_uint (Pos.to_uint p))
      by (destruct (Pos.to_uint p); [contradiction | reflexivity ..]).
    rewrite js_String.
    change (N_of_ascii "-") with 45%N.
    rewrite (proj2 (parseInt_uint _ Hnil)), DecimalPos.Unsigned.of_to.
    rewrite to_double_safe by lia. reflexivity.
Qed.

(** Above 2^53 the round trip fails: the odd number 2^53 + 1 is read as
    2^53. *)
Lemma parseInt_rounds_to_double :
  parseInt (js "9007199254740993") = Int 9007199254740992
  /\ parseInt (js "9007199254740995") = Int 9007199254740996.
Proof. split; vm_compute; reflexivity. Qed.

Lemma uint_no_colon d : 58%N ∉ js (NilEmpty.string_of_uint d).
Proof.
  induction d; cbn [NilEmpty.string_of_uint]; rewrite ?js_String;
    [apply not_elem_of_nil | ..];
    (apply not_elem_of_cons; split; [discriminate | exact IHd]).
Qed.

Lemma num_toString_no_colon z : 58%N ∉ num_toString (Int z).
Proof.
  assert (H : forall d, 58%N ∉ js (NilZero.string_of_uint d)).
  { intros d. destruct d; try apply uint_no_colon.
    apply not_elem_of_cons; split; [discriminate | apply not_elem_of_nil]. }
  destruct z as [|p|p].
  - apply not_elem_of_cons; split; [discriminate | apply not_elem_of_nil].
  - apply H.
  - change (num_toString (Int (Z.neg p)))
      with (js (String "-" (NilZero.string_of_uint (Pos.to_uint p)))).
    rewrite js_String. apply not_elem_of_cons; split; [discriminate | apply H].
Qed.

Lemma split_acc_app sep cur a rest :
  sep ∉ a -> split_acc sep cur (a ++ rest) = split_acc sep (rev a ++ cur) rest.
Proof.
  revert cur. induction a as [|c a IH]; intros cur Ha; [reflexivity|].
  apply not_elem_of_cons in Ha as [Hc Ha].
  cbn [app split_acc]. destruct (N.eqb_spec c sep) as [->|_]; [contradiction|].
  rewrite IH by exact Ha. cbn [rev]. rewrite <- app_assoc. reflexivity.
Qed.

Lemma split_field sep a rest :
  sep ∉ a -> split sep (a ++ sep :: rest) = a :: split sep rest.
Proof.
  intros Ha. unfold split. rewrite split_acc_app by exact Ha.
  cbn [split_acc]. rewrite N.eqb_refl, app_nil_r, rev_involutive. reflexivity.
Qed.

Lemma split_last sep a : sep ∉ a -> split sep a = [a].
Proof.
  intros Ha. unfold split. rewrite <- (app_nil_r a) at 1.
  rewrite split_acc_app by exact Ha.
  cbn [split_acc]. rewrite app_nil_r, rev_involutive. reflexivity.
Qed.

Lemma startsWith_prefix p s : startsWith (p ++ s) p = true.
Proof.
  induction p as [|c p IH]; [destruct s; reflexivity|].
  cbn [app startsWith]. rewrite N.eqb_refl. exact IH.
Qed.

Lemma includes_infix a p b : includes (a ++ p ++ b) p = true.
Proof.
  induction a as [|c a IH].
  - cbn [app]. destruct (p ++ b) eqn:E.
    + cbn [includes]. destruct p; [reflexivity | discriminate E].
    + rewrite <- E. destruct p as [|d p]; [rewrite E; reflexivity|].
      cbn [app includes]. cbn [app] in E. 
      change (startsWith ((d :: p) ++ b) (d :: p) || includes (p ++ b) (d :: p) = true).
      rewrite startsWith_prefix. reflexivity.
  - cbn [app includes]. rewrite IH. apply orb_true_r.
Qed.

(** X20.  An id built as [imdb:season:episode] from an imdb id without a
    colon and two safe integers (below 2^53 in absolute value) is taken
    apart again by the handler: for a series [parseInt] of the second and
    third field gives back the season and the episode, and the first field
    is the imdb id. *)
Theorem episode_id_round_trip (imdb : jstring) (season episode : Z) :
  58%N ∉ imdb -> safe_integer season -> safe_integer episode ->
  parse_episode (js "series") (episode_id imdb season episode)
    = (Some (Int season), Some (Int episode))
  /\ head (split 58 (episode_id imdb season episode)) = Some imdb.
Proof.
  intros Himdb Hs He. unfold parse_episode.
  change (episode_id imdb season episode)
    with (imdb ++ 58%N :: num_toString (Int season)
               ++ 58%N :: num_toString (Int episode)).
  rewrite (split_field 58 imdb) by exact Himdb.
  rewrite (split_field 58 (num_toString (Int season))) by apply num_toString_no_colon.
  rewrite (split_last 58 (num_toString (Int episode))) by apply num_toString_no_colon.
  split; [|reflexivity].
  pose proof (includes_infix imdb (js ":")
                (num_toString (Int season) ++ 58%N :: num_toString (Int episode)))
    as Hcolon.
  change (js ":" ++ ?x) with (58%N :: x) in Hcolon. rewrite Hcolon.
  unfold parseInt_at. cbn [lookup list_lookup].
  rewrite (parseInt_num_toString season Hs), (parseInt_num_toString episode He).
  reflexivity.
Qed.

Lemma episode_id_round_trip_witness :
  ((58%N ∉ js "tt0944947") /\ safe_integer 1 /\ safe_integer 2)
  /\ parse_episode (js "series") (episode_id (js "tt0944947") 1 2)
      = (Some (Int 1), Some (Int 2))
  /\ head (split 58 (episode_id (js "tt0944947") 1 2)) = Some (js "tt0944947").
Proof.
  assert (Hc : 58%N ∉ js "tt0944947").
  { intros H. apply list_elem_of_In in H. vm_compute in H. intuition discriminate. }
  assert (H1 : safe_integer 1) by (unfold safe_integer; lia).
  assert (H2 : safe_integer 2) by (unfold safe_integer; lia).
  split; [auto|]. exact (episode_id_round_trip (js "tt0944947") 1 2 Hc H1 H2).
Defined.

(** ** Stability of the seeders order *)

Lemma filter_insert_by_seeders n x l :
  List.filter (fun t => seeders t =? n) (insert_sorted by_seeders x l)
  = List.filter (fun t => seeders t =? n) (x :: l).
Proof.
  induction l as [|y l IH]; [reflexivity|].
  cbn [insert_sorted]. unfold by_seeders at 1.
  destruct (Z.leb_spec (seeders y - seeders x) 0) as [Hle|Hgt]; [reflexivity|].
  cbn [List.filter] in *. rewrite IH.
  destruct (Z.eqb_spec (seeders x) n) as [Hx|Hx],
           (Z.eqb_spec (seeders y) n) as [Hy|Hy]; try reflexivity.
  lia.
Qed.

(** X21.  [TorrentSearcher.search] keeps the order of arrival among the
    torrents that have the same number of seeders: for every count, the
    torrents with that count appear in the result in the order in which the
    adapters returned them (Rutor before RuTracker before Kinozal). *)
Theorem search_keeps_arrival_order_among_equal_seeders (allResults : list settled) (n : Z) :
  List.filter (fun t => seeders t =? n) (TorrentSearcher.search_results allResults)
  = List.filter (fun t => seeders t =? n) (collect allResults).
Proof.
  unfold TorrentSearcher.search_results.
  induction (collect allResults) as [|x l IH]; [reflexivity|].
  cbn [array_sort]. rewrite filter_insert_by_seeders.
  cbn [List.filter]. rewrite IH. reflexivity.
Qed.
